(** * The rich-text document model of the editor

    A shallow embedding of [src/cicada/Document/DocumentModel.ts] (class
    [DocumentModel]) and of the parts of the second [DocumentModel] source
    (unnamed/part_001) that still carry [pasteText], together with the
    properties of the run ledger and of the editing operations.

    Conventions.
    - A JavaScript string is the list of its UTF-16 code units.
    - JavaScript numbers that hold indices, offsets and run lengths are
      integers of [Z]; [-1] is the "not found" run index of the source.
    - The document is the only mutable object: a method of the class is a
      computation of the monad [M], which threads the document and may
      throw.  Helpers that receive a paragraph object and mutate it are
      functions from the paragraph to the mutated paragraph.
    - [Intl.Segmenter] and [String.prototype.normalize] are supplied by the
      platform; they are the fields of the class [Unicode]. *)

From Stdlib Require Import String Ascii ZArith NArith List Bool Lia ZifyBool.
Import ListNotations.

Open Scope Z_scope.

(** ** JavaScript strings and arrays *)

Definition codeunit := N.
Definition jsstring := list codeunit.

(** Index normalisation shared by [Array.prototype.slice],
    [String.prototype.slice] and [Array.prototype.splice]: a negative index
    counts back from the end, and the result is clamped to [0, len]. *)
Definition relativeIndex (len k : Z) : Z :=
  if k <? 0 then Z.max (len + k) 0 else Z.min k len.

Definition zlength {A} (l : list A) : Z := Z.of_nat (List.length l).

(** [l.slice(start, end)]; [None] is an omitted [end]. *)
Definition js_slice {A} (l : list A) (start : Z) (end_ : option Z) : list A :=
  let len := zlength l in
  let k := relativeIndex len start in
  let final := match end_ with
               | None => len
               | Some e => relativeIndex len e
               end in
  firstn (Z.to_nat (final - k)) (skipn (Z.to_nat k) l).

(** [l.splice(start, deleteCount, ...items)], the array after the call;
    [None] is an omitted [deleteCount] (delete to the end). *)
Definition js_splice {A} (l : list A) (start : Z) (deleteCount : option Z)
    (items : list A) : list A :=
  let len := zlength l in
  let k := relativeIndex len start in
  let dc := match deleteCount with
            | None => len - k
            | Some c => Z.min (Z.max c 0) (len - k)
            end in
  firstn (Z.to_nat k) l ++ items ++ skipn (Z.to_nat (k + dc)) l.

(** [l[i]]: [None] is [undefined]. *)
Definition js_get {A} (l : list A) (i : Z) : option A :=
  if i <? 0 then None else nth_error l (Z.to_nat i).

(** [l[i] = x] for an index inside the array. *)
Fixpoint set_nth {A} (l : list A) (n : nat) (x : A) : list A :=
  match l, n with
  | [], _ => []
  | _ :: l', O => x :: l'
  | y :: l', S n' => y :: set_nth l' n' x
  end.

Definition js_set {A} (l : list A) (i : Z) (x : A) : list A :=
  if i <? 0 then l else set_nth l (Z.to_nat i) x.

Definition newline : codeunit := 10%N.

(** [text.includes('\n')] *)
Definition includesNewline (t : jsstring) : bool := existsb (N.eqb newline) t.

(** [text.split('\n')] *)
Fixpoint splitNewline (t : jsstring) : list jsstring :=
  match t with
  | [] => [[]]
  | c :: t' =>
      if N.eqb c newline then [] :: splitNewline t'
      else match splitNewline t' with
           | [] => [[c]]
           | s :: ss => (c :: s) :: ss
           end
  end.

(** White space and line terminators of ECMAScript, the code units that
    [String.prototype.trim] strips. *)
Definition isWhiteSpace (c : codeunit) : bool :=
  let c := Z.of_N c in
  (c =? 9) || (c =? 10) || (c =? 11) || (c =? 12) || (c =? 13) || (c =? 32)
  || (c =? 160) || (c =? 5760) || ((8192 <=? c) && (c <=? 8202))
  || (c =? 8232) || (c =? 8233) || (c =? 8239) || (c =? 8287)
  || (c =? 12288) || (c =? 65279).

Fixpoint trimStart (t : jsstring) : jsstring :=
  match t with
  | [] => []
  | c :: t' => if isWhiteSpace c then trimStart t' else t
  end.

Definition trimEnd (t : jsstring) : jsstring := rev (trimStart (rev t)).

(** [text.trim()] *)
Definition trim (t : jsstring) : jsstring := trimEnd (trimStart t).

(** The code units of a string of Basic Latin characters. *)
Fixpoint latin (s : string) : jsstring :=
  match s with
  | EmptyString => []
  | String c s' => N_of_ascii c :: latin s'
  end.

(** ** The platform's Unicode services

    [segment t] is the list of the grapheme clusters that
    [new Intl.Segmenter().segment(t)] yields (their [segment] fields), and
    [normalizeNFC t] is [t.normalize('NFC')].  A segmentation cuts the text
    into consecutive pieces. *)
Class Unicode := {
  segment : jsstring -> list jsstring;
  normalizeNFC : jsstring -> jsstring;
  segment_join : forall t, concat (segment t) = t
}.

(** An instance for text made of letters, digits, spaces and symbols outside
    the Basic Multilingual Plane: a UTF-16 surrogate pair is one cluster and
    every other code unit is a cluster of its own, which is where the default
    grapheme boundaries fall when the text has no combining marks, joiners,
    variation selectors or CR LF; such text is already in NFC. *)
Definition isHighSurrogate (c : codeunit) : bool :=
  (55296 <=? c)%N && (c <=? 56319)%N.
Definition isLowSurrogate (c : codeunit) : bool :=
  (56320 <=? c)%N && (c <=? 57343)%N.

Fixpoint pairSegment (t : jsstring) : list jsstring :=
  match t with
  | [] => []
  | c :: t' =>
      match t' with
      | c' :: t'' =>
          if isHighSurrogate c && isLowSurrogate c'
          then [c; c'] :: pairSegment t''
          else [c] :: pairSegment t'
      | [] => [[c]]
      end
  end.

#[export] Instance pairUnicode : Unicode.
Proof.
  refine {| segment := pairSegment; normalizeNFC := fun t => t; segment_join := _ |}.
  assert (H : forall n t, (List.length t <= n)%nat -> concat (pairSegment t) = t).
  { induction n as [|n IH]; intros t Hn.
    - destruct t; [reflexivity | simpl in Hn; lia].
    - destruct t as [|c [|c' t'']]; try reflexivity.
      simpl in Hn.
      change (pairSegment (c :: c' :: t''))
        with (if isHighSurrogate c && isLowSurrogate c'
              then [c; c'] :: pairSegment t''
              else [c] :: pairSegment (c' :: t'')).
      destruct (isHighSurrogate c && isLowSurrogate c').
      + cbn [concat app]. rewrite IH by lia. reflexivity.
      + cbn [concat app]. rewrite IH by (simpl; lia). reflexivity. }
  intros t. apply (H (List.length t)). lia.
Defined.

(** ** Styles

    A [TextStyle] is a plain object of JSON data: its own properties in
    insertion order.  [JSON.stringify] writes the properties in that order,
    so two such objects have the same serialisation exactly when they hold
    the same keys in the same order with equal values: the comparison of the
    serialisations is the structural comparison [json_eqb]. *)
Unset Elimination Schemes.
Inductive json :=
| JNum (n : Z)
| JStr (s : string)
| JBool (b : bool)
| JObj (fields : list (string * json)).
Set Elimination Schemes.

Definition TextStyle := list (string * json).

Fixpoint json_eqb (a b : json) {struct a} : bool :=
  match a, b with
  | JNum n, JNum m => n =? m
  | JStr s, JStr t => String.eqb s t
  | JBool x, JBool y => Bool.eqb x y
  | JObj fs, JObj gs =>
      (fix fields_eqb (fs gs : list (string * json)) {struct fs} : bool :=
         match fs, gs with
         | [], [] => true
         | (k, v) :: fs', (k', v') :: gs' =>
             String.eqb k k' && json_eqb v v' && fields_eqb fs' gs'
         | _, _ => false
         end) fs gs
  | _, _ => false
  end.

(** [JSON.stringify(styleA) === JSON.stringify(styleB)] *)
Definition areStylesEqual (styleA styleB : TextStyle) : bool :=
  json_eqb (JObj styleA) (JObj styleB).

Definition hasKey (k : string) (o : TextStyle) : bool :=
  existsb (fun kv => String.eqb (fst kv) k) o.

(** [o[k] = v]: an existing property keeps its place, a new one goes last. *)
Definition assign (o : TextStyle) (kv : string * json) : TextStyle :=
  if hasKey (fst kv) o
  then map (fun kv' => if String.eqb (fst kv') (fst kv)
                       then (fst kv', snd kv) else kv') o
  else o ++ [kv].

(** [{ ...base, ...patch }] *)
Definition spread (base patch : TextStyle) : TextStyle :=
  fold_left assign patch base.

(** ** The document

    [Document.ts] declares the three interfaces; their fields are the ones
    the model and its tests read and write. *)
Record Run := { length : Z; style : TextStyle }.
Record Paragraph := { text : jsstring; runs : list Run; yOffset : Z }.
Record Document := { paragraphs : list Paragraph }.
Record Position := { paragraphIndex : Z; offset : Z }.

(** The entries of [ClipboardData.paragraphs]. *)
Module Clipboard.
Record Entry := { text : jsstring; runs : list Run }.
End Clipboard.
Definition ClipboardData := list Clipboard.Entry.

Definition withLength (r : Run) (n : Z) : Run :=
  {| length := n; style := style r |}.
Definition withText (p : Paragraph) (t : jsstring) : Paragraph :=
  {| text := t; runs := runs p; yOffset := yOffset p |}.
Definition withRuns (p : Paragraph) (rs : list Run) : Paragraph :=
  {| text := text p; runs := rs; yOffset := yOffset p |}.

(** ** Methods: state and exceptions

    The three [throw new Error(...)] of the class, and the [TypeError] that
    JavaScript raises when a property of [undefined] is read. *)
Inductive Error :=
| InvalidParagraphIndex (paragraphIndex : Z)
| InvalidOffset (offset graphemeCount : Z)
| InvalidRange
| TypeError.

Definition M (A : Type) : Type := Document -> (Error + A) * Document.

Definition ret {A} (a : A) : M A := fun d => (inr a, d).
Definition throw {A} (e : Error) : M A := fun d => (inl e, d).
Definition bind {A B} (m : M A) (f : A -> M B) : M B :=
  fun d => match m d with
           | (inl e, d') => (inl e, d')
           | (inr a, d') => f a d'
           end.

Declare Scope method_scope.
Delimit Scope method_scope with method.
Notation "x <- m ;; k" := (bind m (fun x => k))
  (at level 61, m at next level, right associativity) : method_scope.
Notation "m ;; k" := (bind m (fun _ => k))
  (at level 61, right associativity) : method_scope.
Open Scope method_scope.

(** [this.document.paragraphs] *)
Definition getParagraphs : M (list Paragraph) := fun d => (inr (paragraphs d), d).
Definition setParagraphs (ps : list Paragraph) : M unit :=
  fun _ => (inr tt, {| paragraphs := ps |}).

(** [const paragraph = this.document.paragraphs[index]], for a paragraph
    whose fields are then read. *)
Definition getParagraph (index : Z) : M Paragraph :=
  ps <- getParagraphs ;;
  match js_get ps index with
  | Some p => ret p
  | None => throw TypeError
  end.

(** The writes to the fields of the paragraph object held at [index]. *)
Definition setParagraph (index : Z) (p : Paragraph) : M unit :=
  ps <- getParagraphs ;; setParagraphs (js_set ps index p).

Section DocumentModel.
Context {U : Unicode}.

Definition getGraphemeCount (t : jsstring) : Z := zlength (segment t).

Definition validatePosition (position : Position) : M unit :=
  ps <- getParagraphs ;;
  if (paragraphIndex position <? 0) || (paragraphIndex position >=? zlength ps)
  then throw (InvalidParagraphIndex (paragraphIndex position))
  else
    paragraph <- getParagraph (paragraphIndex position) ;;
    let graphemeCount := getGraphemeCount (text paragraph) in
    if (offset position <? 0) || (offset position >? graphemeCount)
    then throw (InvalidOffset (offset position) graphemeCount)
    else ret tt.

(** The method reads the document and never throws; it is a function of
    the paragraph array. *)
Definition sliceTextByGraphemes (ps : list Paragraph) (index start : Z)
    (end_ : option Z) : jsstring :=
  match js_get ps index with
  | None => []
  | Some paragraph =>
      match text paragraph with
      | [] => []
      | _ => concat (js_slice (segment (text paragraph)) start end_)
      end
  end.

(** The loop keeps the array [merged] and only ever touches its last
    element: [lastRun] here, the runs before it being already emitted. *)
Fixpoint mergeLoop (lastRun : Run) (rest : list Run) : list Run :=
  match rest with
  | [] => [lastRun]
  | currentRun :: rest' =>
      if areStylesEqual (style lastRun) (style currentRun)
      then mergeLoop (withLength lastRun (length lastRun + length currentRun)) rest'
      else lastRun :: mergeLoop currentRun rest'
  end.

Definition mergeAdjacentRuns (rs : list Run) : list Run :=
  match rs with
  | [] => rs
  | [_] => rs
  | r0 :: rest => mergeLoop r0 rest
  end.

Fixpoint findRunLoop (rs : list Run) (i currentOffset offset : Z) : Z * Z :=
  match rs with
  | [] => (-1, 0)
  | run :: rs' =>
      if currentOffset + length run >? offset
      then (i, offset - currentOffset)
      else findRunLoop rs' (i + 1) (currentOffset + length run) offset
  end.

(** The pair is [{ runIndex, offsetInRun }]. *)
Definition findRunAtOffset (paragraph : Paragraph) (offset : Z) : Z * Z :=
  findRunLoop (runs paragraph) 0 0 offset.

(** [runIndex] is an index that [findRunAtOffset] returned: the run is
    there (a missing one would be a [TypeError] in the source). *)
Definition insertTextIntoRun (paragraph : Paragraph) (runIndex offsetInRun
    textLength : Z) (sty : TextStyle) : Paragraph :=
  match js_get (runs paragraph) runIndex with
  | None => paragraph
  | Some run =>
      if areStylesEqual (style run) sty
      then withRuns paragraph
             (js_set (runs paragraph) runIndex
                (withLength run (length run + textLength)))
      else
        let newRuns :=
          (if offsetInRun >? 0
           then [{| length := offsetInRun; style := style run |}] else [])
          ++ [{| length := textLength; style := sty |}]
          ++ (if offsetInRun <? length run
              then [{| length := length run - offsetInRun; style := style run |}]
              else []) in
        withRuns paragraph (js_splice (runs paragraph) runIndex (Some 1) newRuns)
  end.

Definition splitRunsAtOffset (paragraph : Paragraph) (offset : Z) : Paragraph :=
  let '(runIndex, offsetInRun) := findRunAtOffset paragraph offset in
  if negb (runIndex =? -1) && (offsetInRun >? 0)
  then match js_get (runs paragraph) runIndex with
       | None => paragraph
       | Some run =>
           if offsetInRun <? length run
           then withRuns paragraph
                  (js_splice (runs paragraph) runIndex (Some 1)
                     [ {| length := offsetInRun; style := style run |};
                       {| length := length run - offsetInRun; style := style run |} ])
           else paragraph
       end
  else paragraph.

Fixpoint clampRuns (rs : list Run) (currentOffset graphemeCount : Z) : list Run :=
  match rs with
  | [] => []
  | run :: rs' =>
      let nextOffset := Z.min (currentOffset + length run) graphemeCount in
      withLength run (nextOffset - currentOffset)
      :: clampRuns rs' nextOffset graphemeCount
  end.

(** The final comparison of the total with the grapheme count only logs a
    warning; it changes nothing. *)
Definition updateRunLengths (paragraph : Paragraph) : Paragraph :=
  let graphemeCount := getGraphemeCount (text paragraph) in
  withRuns paragraph
    (filter (fun run => length run >? 0)
       (clampRuns (runs paragraph) 0 graphemeCount)).

(** [for (let i = from; i < to; i++) body(i)] *)
Fixpoint forLoop (n : nat) (i : Z) (body : Z -> M unit) : M unit :=
  match n with
  | O => ret tt
  | S n' => body i ;; forLoop n' (i + 1) body
  end.
Definition forRange (from to : Z) (body : Z -> M unit) : M unit :=
  forLoop (Z.to_nat (to - from)) from body.

(** *** Insertion *)

Definition newParagraph (t : jsstring) (sty : TextStyle) : Paragraph :=
  {| text := t;
     runs := [{| length := getGraphemeCount t; style := sty |}];
     yOffset := 0 |}.

Definition insertTextWithNewlines (position : Position) (txt : jsstring)
    (sty : TextStyle) : M unit :=
  let pieces := splitNewline txt in
  ps <- getParagraphs ;;
  currentParagraph <- getParagraph (paragraphIndex position) ;;
  let beforeText :=
    sliceTextByGraphemes ps (paragraphIndex position) 0 (Some (offset position)) in
  let afterText :=
    sliceTextByGraphemes ps (paragraphIndex position) (offset position) None in
  let currentParagraph :=
    splitRunsAtOffset (withText currentParagraph (beforeText ++ hd [] pieces))
      (offset position) in
  setParagraph (paragraphIndex position) currentParagraph ;;
  let middle :=
    map (fun t => newParagraph t sty)
        (js_slice pieces 1 (Some (zlength pieces - 1))) in
  let lastParagraph :=
    if zlength pieces >? 1
    then [newParagraph (last pieces [] ++ afterText) sty]
    else [] in
  ps' <- getParagraphs ;;
  setParagraphs
    (js_splice ps' (paragraphIndex position + 1) (Some 0) (middle ++ lastParagraph)).

Definition insertText (position : Position) (txt : jsstring) (sty : TextStyle)
    : M unit :=
  validatePosition position ;;
  let txt := normalizeNFC txt in
  if includesNewline txt then insertTextWithNewlines position txt sty
  else
    paragraph <- getParagraph (paragraphIndex position) ;;
    let textGraphemeCount := getGraphemeCount txt in
    let paragraph :=
      withText paragraph
        (js_slice (text paragraph) 0 (Some (offset position)) ++ txt
         ++ js_slice (text paragraph) (offset position) None) in
    let '(runIndex, offsetInRun) := findRunAtOffset paragraph (offset position) in
    let paragraph :=
      if runIndex =? -1
      then withRuns paragraph
             (runs paragraph ++ [{| length := textGraphemeCount; style := sty |}])
      else insertTextIntoRun paragraph runIndex offsetInRun textGraphemeCount sty in
    setParagraph (paragraphIndex position) (updateRunLengths paragraph).

(** *** Deletion *)

Definition updateRunsAfterDeletion (paragraph : Paragraph) (startOffset len : Z)
    : Paragraph :=
  let '(startRunIndex, startOffsetInRun) := findRunAtOffset paragraph startOffset in
  let '(endRunIndex, _) := findRunAtOffset paragraph (startOffset + len) in
  if startRunIndex =? -1 then paragraph
  else
    match js_get (runs paragraph) startRunIndex with
    | None => paragraph
    | Some firstRun =>
        let lastRun := match js_get (runs paragraph) endRunIndex with
                       | Some r => r
                       | None => firstRun
                       end in
        if startRunIndex =? endRunIndex
        then
          let firstRun' := withLength firstRun (length firstRun - len) in
          let rs := js_set (runs paragraph) startRunIndex firstRun' in
          withRuns paragraph
            (if length firstRun' <=? 0
             then js_splice rs startRunIndex (Some 1) []
             else rs)
        else
          let remainingLength :=
            startOffsetInRun
            + (length lastRun
               - (startOffset + len - (startOffset - startOffsetInRun))) in
          withRuns paragraph
            (if remainingLength >? 0
             then js_splice
                    (js_set (runs paragraph) startRunIndex
                       (withLength firstRun remainingLength))
                    (startRunIndex + 1) (Some (endRunIndex - startRunIndex)) []
             else js_splice (runs paragraph) startRunIndex
                    (Some (endRunIndex - startRunIndex + 1)) [])
    end.

Definition deleteWithinParagraph (index startOffset endOffset : Z) : M unit :=
  paragraph <- getParagraph index ;;
  let graphemes := segment (text paragraph) in
  let actualStart := Z.max 0 startOffset in
  let actualEnd := Z.min (zlength graphemes) endOffset in
  let paragraph :=
    withText paragraph
      (concat (js_slice graphemes 0 (Some actualStart))
       ++ concat (js_slice graphemes actualEnd None)) in
  let paragraph :=
    updateRunsAfterDeletion paragraph actualStart (actualEnd - actualStart) in
  setParagraph index (updateRunLengths paragraph).

(** The runs of the end paragraph from [endOffset] on. *)
Fixpoint runsFromOffset (rs : list Run) (globalGraphemeOffset endOffset : Z)
    : list Run :=
  match rs with
  | [] => []
  | run :: rs' =>
      let runGraphemeCount := length run in
      (if globalGraphemeOffset + runGraphemeCount >? endOffset
       then
         let runStart := Z.max (endOffset - globalGraphemeOffset) 0 in
         let len := runGraphemeCount - runStart in
         if len >? 0 then [{| length := len; style := style run |}] else []
       else [])
      ++ runsFromOffset rs' (globalGraphemeOffset + runGraphemeCount) endOffset
  end.

Definition updateRunsAfterMultiParagraphDeletion (startParagraph : Paragraph)
    (startOffset : Z) (endParagraph : Paragraph) (endOffset : Z) : Paragraph :=
  let '(startRunIndex, startOffsetInRun) :=
    findRunAtOffset startParagraph startOffset in
  let trimmed :=
    if negb (startRunIndex =? -1)
    then match js_get (runs startParagraph) startRunIndex with
         | None => runs startParagraph
         | Some startRun =>
             if startOffsetInRun >? 0
             then js_splice
                    (js_set (runs startParagraph) startRunIndex
                       (withLength startRun startOffsetInRun))
                    (startRunIndex + 1) None []
             else js_splice (runs startParagraph) startRunIndex None []
         end
    else [] in
  let merged :=
    mergeAdjacentRuns (trimmed ++ runsFromOffset (runs endParagraph) 0 endOffset) in
  let graphemeCount := getGraphemeCount (text startParagraph) in
  withRuns startParagraph
    match merged with
    | r0 :: _ =>
        if forallb (fun r => areStylesEqual (style r) (style r0)) merged
        then [{| length := graphemeCount; style := style r0 |}]
        else merged
    | [] => [{| length := graphemeCount; style := [] |}]
    end.

Definition deleteAcrossParagraphs (start end_ : Position) : M unit :=
  ps <- getParagraphs ;;
  startParagraph <- getParagraph (paragraphIndex start) ;;
  endParagraph <- getParagraph (paragraphIndex end_) ;;
  let newText :=
    sliceTextByGraphemes ps (paragraphIndex start) 0 (Some (offset start))
    ++ sliceTextByGraphemes ps (paragraphIndex end_) (offset end_) None in
  let startParagraph := withText startParagraph newText in
  setParagraphs
    (js_splice (js_set ps (paragraphIndex start) startParagraph)
       (paragraphIndex start + 1)
       (Some (paragraphIndex end_ - paragraphIndex start)) []) ;;
  let startParagraph :=
    updateRunsAfterMultiParagraphDeletion startParagraph (offset start)
      endParagraph (offset end_) in
  setParagraph (paragraphIndex start) (updateRunLengths startParagraph).

(** The check that the three two-position methods share. *)
Definition startAfterEnd (start end_ : Position) : bool :=
  (paragraphIndex start >? paragraphIndex end_)
  || ((paragraphIndex start =? paragraphIndex end_)
      && (offset start >? offset end_)).

Definition validateRange (start end_ : Position) : M unit :=
  validatePosition start ;;
  validatePosition end_ ;;
  if startAfterEnd start end_ then throw InvalidRange else ret tt.

Definition deleteText (start end_ : Position) : M unit :=
  validateRange start end_ ;;
  if paragraphIndex start =? paragraphIndex end_
  then deleteWithinParagraph (paragraphIndex start) (offset start) (offset end_)
  else deleteAcrossParagraphs start end_.

(** *** Styling *)

Fixpoint styleLoop (rs : list Run) (currentOffset startOffset endOffset : Z)
    (patch : TextStyle) : list Run :=
  match rs with
  | [] => []
  | run :: rs' =>
      let runStart := currentOffset in
      let runEnd := currentOffset + length run in
      (if (runEnd <=? startOffset) || (runStart >=? endOffset)
       then [run]
       else
         (if runStart <? startOffset
          then [{| length := startOffset - runStart; style := style run |}]
          else [])
         ++ [{| length := Z.min runEnd endOffset - Z.max runStart startOffset;
                style := spread (style run) patch |}]
         ++ (if runEnd >? endOffset
             then [{| length := runEnd - endOffset; style := style run |}]
             else []))
      ++ styleLoop rs' (currentOffset + length run) startOffset endOffset patch
  end.

Definition applyStyleToSingleParagraph (index startOffset endOffset : Z)
    (patch : TextStyle) : M unit :=
  paragraph <- getParagraph index ;;
  setParagraph index
    (withRuns paragraph
       (mergeAdjacentRuns
          (styleLoop (runs paragraph) 0 startOffset endOffset patch))).

Definition applyStyleAcrossParagraphs (start end_ : Position) (patch : TextStyle)
    : M unit :=
  first <- getParagraph (paragraphIndex start) ;;
  applyStyleToSingleParagraph (paragraphIndex start) (offset start)
    (getGraphemeCount (text first)) patch ;;
  forRange (paragraphIndex start + 1) (paragraphIndex end_)
    (fun i =>
       paragraph <- getParagraph i ;;
       applyStyleToSingleParagraph i 0 (getGraphemeCount (text paragraph)) patch) ;;
  applyStyleToSingleParagraph (paragraphIndex end_) 0 (offset end_) patch.

Definition applyStyle (start end_ : Position) (patch : TextStyle) : M unit :=
  validateRange start end_ ;;
  if paragraphIndex start =? paragraphIndex end_
  then applyStyleToSingleParagraph (paragraphIndex start) (offset start)
         (offset end_) patch
  else applyStyleAcrossParagraphs start end_ patch.

Definition getDocument : M Document := fun d => (inr d, d).

(** *** Copy *)

Fixpoint extractLoop (rs : list Run) (currentOffset startOffset endOffset : Z)
    : list Run :=
  match rs with
  | [] => []
  | run :: rs' =>
      let runStart := Z.max 0 (startOffset - currentOffset) in
      let runEnd := Z.min (length run) (endOffset - currentOffset) in
      (if runEnd >? runStart
       then [{| length := runEnd - runStart; style := style run |}]
       else [])
      ++ extractLoop rs' (currentOffset + length run) startOffset endOffset
  end.

(** The loop visits the runs [startRunIndex .. last] with the running
    offset starting at 0. *)
Definition extractTextRange (paragraph : Paragraph) (startOffset endOffset : Z)
    : Clipboard.Entry :=
  let t := trim (js_slice (text paragraph) startOffset (Some endOffset)) in
  let '(startRunIndex, _) := findRunAtOffset paragraph startOffset in
  let '(endRunIndex, _) := findRunAtOffset paragraph endOffset in
  if startRunIndex =? -1
  then {| Clipboard.text := t;
          Clipboard.runs :=
            [{| length := getGraphemeCount t;
                style := match runs paragraph with
                         | r0 :: _ => style r0
                         | [] => []
                         end |}] |}
  else
    let lastIndex :=
      if endRunIndex >=? 0 then endRunIndex else zlength (runs paragraph) - 1 in
    {| Clipboard.text := t;
       Clipboard.runs :=
         extractLoop (js_slice (runs paragraph) startRunIndex (Some (lastIndex + 1)))
           0 startOffset endOffset |}.

Definition wholeParagraph (paragraph : Paragraph) : Clipboard.Entry :=
  {| Clipboard.text := text paragraph; Clipboard.runs := runs paragraph |}.

Definition copyText (start end_ : Position) : M ClipboardData :=
  validateRange start end_ ;;
  if paragraphIndex start =? paragraphIndex end_
  then
    paragraph <- getParagraph (paragraphIndex start) ;;
    ret [extractTextRange paragraph (offset start) (offset end_)]
  else
    firstParagraph <- getParagraph (paragraphIndex start) ;;
    ps <- getParagraphs ;;
    lastParagraph <- getParagraph (paragraphIndex end_) ;;
    ret (extractTextRange firstParagraph (offset start)
           (getGraphemeCount (text firstParagraph))
         :: map wholeParagraph
              (js_slice ps (paragraphIndex start + 1) (Some (paragraphIndex end_)))
         ++ [extractTextRange lastParagraph 0 (offset end_)]).
End DocumentModel.

(** ** The second source of the class (unnamed/part_001)

    This file holds the only [pasteText] that is not commented out, with the
    helpers it calls, and the variants [sliceParagraphText] and
    [extractParagraphContent] of the slicing and extraction methods.  Its
    [mergeAdjacentRuns] starts from [runs[0]] itself instead of a copy and
    otherwise runs the loop of [mergeAdjacentRuns] above: the array it
    returns holds the same lengths and styles.  Its methods validate no
    position. *)
Module Part001.
Section Part001.
Context {U : Unicode}.

(** Reading [text] of a paragraph that is not there is a [TypeError]. *)
Definition sliceParagraphText (ps : list Paragraph) (index start : Z)
    (end_ : option Z) : Error + jsstring :=
  match js_get ps index with
  | None => inl TypeError
  | Some paragraph => inr (concat (js_slice (segment (text paragraph)) start end_))
  end.

(** The [while] loop that looks for the run holding [offset]: the pair is
    [(runIndex, currentOffset)] when it stops. *)
Fixpoint seekRun (rs : list Run) (runIndex currentOffset offset : Z) : Z * Z :=
  match rs with
  | [] => (runIndex, currentOffset)
  | run :: rs' =>
      if currentOffset + length run <=? offset
      then seekRun rs' (runIndex + 1) (currentOffset + length run) offset
      else (runIndex, currentOffset)
  end.

Definition updateRunsForSplit (paragraph : Paragraph) (splitPoint : Z) : Paragraph :=
  let '(runIndex, currentOffset) := seekRun (runs paragraph) 0 0 splitPoint in
  match js_get (runs paragraph) runIndex with
  | Some run =>
      let runSplitPoint := splitPoint - currentOffset in
      if (runSplitPoint >? 0) && (runSplitPoint <? length run)
      then withRuns paragraph
             (js_splice (runs paragraph) runIndex (Some 1)
                [ {| length := runSplitPoint; style := style run |};
                  {| length := length run - runSplitPoint; style := style run |} ])
      else paragraph
  | None => paragraph
  end.

Definition insertRunsAtOffset (paragraph : Paragraph) (offset : Z)
    (runsToInsert : list Run) : Paragraph :=
  let '(runIndex, currentOffset) := seekRun (runs paragraph) 0 0 offset in
  let before := js_slice (runs paragraph) 0 (Some runIndex) in
  let newRuns :=
    match js_get (runs paragraph) runIndex with
    | Some currentRun =>
        let splitPoint := offset - currentOffset in
        before
        ++ (if splitPoint >? 0
            then [{| length := splitPoint; style := style currentRun |}] else [])
        ++ runsToInsert
        ++ (if splitPoint <? length currentRun
            then [{| length := length currentRun - splitPoint;
                     style := style currentRun |}]
            else [])
        ++ js_slice (runs paragraph) (runIndex + 1) None
    | None => before ++ runsToInsert
    end in
  withRuns paragraph (mergeAdjacentRuns newRuns).

Definition updateRunsForPaste (paragraph : Paragraph) (offset : Z)
    (pastedRuns : list Run) : Paragraph :=
  insertRunsAtOffset (updateRunsForSplit paragraph offset) offset pastedRuns.

Definition pastedParagraph (e : Clipboard.Entry) : Paragraph :=
  {| text := Clipboard.text e; runs := Clipboard.runs e; yOffset := 0 |}.

Definition pasteText (position : Position) (clipboardData : ClipboardData)
    : M unit :=
  match clipboardData with
  | [] => ret tt
  | [pasteContent] =>
      paragraph <- getParagraph (paragraphIndex position) ;;
      let beforeText := js_slice (text paragraph) 0 (Some (offset position)) in
      let afterText := js_slice (text paragraph) (offset position) None in
      let paragraph :=
        withText paragraph (beforeText ++ Clipboard.text pasteContent ++ afterText) in
      setParagraph (paragraphIndex position)
        (insertRunsAtOffset paragraph (offset position) (Clipboard.runs pasteContent))
  | firstEntry :: _ =>
      currentParagraph <- getParagraph (paragraphIndex position) ;;
      let beforeText := js_slice (text currentParagraph) 0 (Some (offset position)) in
      let afterText := js_slice (text currentParagraph) (offset position) None in
      let currentParagraph :=
        withText currentParagraph (beforeText ++ Clipboard.text firstEntry) in
      setParagraph (paragraphIndex position)
        (updateRunsForPaste currentParagraph (offset position)
           (Clipboard.runs firstEntry)) ;;
      let middle :=
        map pastedParagraph
            (js_slice clipboardData 1 (Some (zlength clipboardData - 1))) in
      let lastClipboardParagraph :=
        last clipboardData firstEntry in
      let lastParagraph :=
        {| text := Clipboard.text lastClipboardParagraph ++ afterText;
           runs := Clipboard.runs lastClipboardParagraph;
           yOffset := 0 |} in
      ps <- getParagraphs ;;
      setParagraphs
        (js_splice ps (paragraphIndex position + 1) (Some 0)
           (middle ++ [lastParagraph]))
  end.

(** The first loop of [extractParagraphContent]: the pair is
    [(startRunIndex, endRunIndex)]. *)
Fixpoint affectedRuns (rs : list Run) (i currentOffset startRunIndex start
    end_ : Z) : Z * Z :=
  match rs with
  | [] => (startRunIndex, -1)
  | run :: rs' =>
      let startRunIndex :=
        if (startRunIndex =? -1) && (currentOffset + length run >? start)
        then i else startRunIndex in
      if currentOffset + length run >=? end_
      then (startRunIndex, i)
      else affectedRuns rs' (i + 1) (currentOffset + length run) startRunIndex
             start end_
  end.

Definition extractParagraphContent (paragraph : Paragraph) (start end_ : Z)
    : Clipboard.Entry :=
  let t := trim (js_slice (text paragraph) start (Some end_)) in
  let '(startRunIndex, endRunIndex) :=
    affectedRuns (runs paragraph) 0 0 (-1) start end_ in
  if startRunIndex =? -1
  then {| Clipboard.text := t;
          Clipboard.runs :=
            [{| length := zlength t;
                style := match runs paragraph with
                         | r0 :: _ => style r0
                         | [] => []
                         end |}] |}
  else
    {| Clipboard.text := t;
       Clipboard.runs :=
         extractLoop
           (js_slice (runs paragraph) startRunIndex (Some (endRunIndex + 1)))
           0 start end_ |}.
End Part001.
End Part001.

(** ** Test data

    The documents of [__tests__/DocumentModel.spec.ts] and smaller ones of
    the same shape. *)
Definition fontSize (n : Z) : TextStyle := [("fontSize"%string, JNum n)].

Definition run (n : Z) (s : TextStyle) : Run := {| length := n; style := s |}.

Definition paragraph (t : jsstring) (rs : list Run) : Paragraph :=
  {| text := t; runs := rs; yOffset := 0 |}.

Definition at_ (index off : Z) : Position :=
  {| paragraphIndex := index; offset := off |}.

(** The document of the insertion tests. *)
Definition testDoc : Document :=
  {| paragraphs := [paragraph (latin "First paragraph") [run 15 (fontSize 16)]] |}.

(** U+1F3A8, the artist palette of the tests: two code units. *)
Definition palette : jsstring := [55356%N; 57256%N].

Definition twoParagraphs : Document :=
  {| paragraphs := [paragraph (latin "ab") [run 2 (fontSize 16)];
                    paragraph (latin "cd") [run 2 (fontSize 14)]] |}.

Definition spaced : Document :=
  {| paragraphs := [paragraph (latin "a b") [run 3 (fontSize 16)]] |}.

(** [insertText] at the end of a paragraph, in the style of its last run. *)
Definition typedAtEnd : Document :=
  snd (insertText (at_ 0 1) (latin "b") (fontSize 16)
         {| paragraphs := [paragraph (latin "a") [run 1 (fontSize 16)]] |}).

Definition firstParagraph : Paragraph :=
  paragraph (latin "First paragraph") [run 15 (fontSize 16)].

Definition twoRuns : Paragraph :=
  paragraph (latin "abcd") [run 2 (fontSize 16); run 2 (fontSize 14)].

(** The text of the test "should handle multi-paragraph text insertion". *)
Definition threeLines : jsstring :=
  latin " split" ++ [newline] ++ latin "New paragraph" ++ [newline] ++ latin "Third".

Definition bold : TextStyle := [("fontWeight"%string, JNum 700)].

Definition pastedEntry : Clipboard.Entry :=
  {| Clipboard.text := latin "XY"; Clipboard.runs := [run 2 (fontSize 20)] |}.

(** A paragraph whose two runs hold different fields, and a patch that
    sets both fields. *)
Definition mixedFields : Document :=
  {| paragraphs := [paragraph (latin "abcd") [run 2 (fontSize 16); run 2 bold]] |}.

Definition boldLarge : TextStyle :=
  [("fontWeight"%string, JNum 700); ("fontSize"%string, JNum 20)].

(** * The vocabulary of the properties *)

(** ** Styles *)

(** The value that the last assignment of [patch] gives to the key [k]. *)
Fixpoint lastValue (patch : TextStyle) (k : string) : option json :=
  match patch with
  | [] => None
  | kv :: patch' =>
      match lastValue patch' k with
      | Some v => Some v
      | None => if String.eqb k (fst kv) then Some (snd kv) else None
      end
  end.

(** The property [kv] after the spread of [patch] over an object that has
    every key of [patch]. *)
Definition override (patch : TextStyle) (kv : string * json) : string * json :=
  match lastValue patch (fst kv) with
  | Some v => (fst kv, v)
  | None => kv
  end.

(** The property [kv'] after the assignment [o[k] = v]. *)
Definition assigned (k : string) (v : json) (kv' : string * json) : string * json :=
  if String.eqb (fst kv') k then (fst kv', v) else kv'.

(** ** Runs *)

(** [runs.reduce((sum, run) => sum + run.length, 0)] *)
Definition totalRunLength (rs : list Run) : Z :=
  fold_left (fun sum run => sum + length run) rs 0.

Definition sumLengths (rs : list Run) : Z :=
  fold_right (fun run sum => length run + sum) 0 rs.

(** I2: no run is empty (nor negative). *)
Definition positiveRuns (rs : list Run) : Prop := Forall (fun r => 0 < length r) rs.
Definition nonNegativeRuns (rs : list Run) : Prop := Forall (fun r => 0 <= length r) rs.

(** I3: no two neighbours have equal styles. *)
Fixpoint noAdjacentEqual (rs : list Run) : Prop :=
  match rs with
  | [] => True
  | r :: rs' =>
      match rs' with
      | [] => True
      | r' :: _ => areStylesEqual (style r) (style r') = false /\ noAdjacentEqual rs'
      end
  end.

(** [cumulative rs i]: the lengths of the runs before the run [i]. *)
Definition cumulative (rs : list Run) (i : Z) : Z :=
  sumLengths (firstn (Z.to_nat i) rs).

(** Runs as one style per grapheme: for runs without empty ones, the merge
    only depends on the style that each grapheme carries. *)
Definition expand (rs : list Run) : list TextStyle :=
  flat_map (fun r => repeat (style r) (Z.to_nat (length r))) rs.

Fixpoint rleLoop (s : TextStyle) (n : Z) (l : list TextStyle) : list Run :=
  match l with
  | [] => [{| length := n; style := s |}]
  | s' :: l' =>
      if areStylesEqual s s' then rleLoop s (n + 1) l'
      else {| length := n; style := s |} :: rleLoop s' 1 l'
  end.

Definition rle (l : list TextStyle) : list Run :=
  match l with
  | [] => []
  | s :: l' => rleLoop s 1 l'
  end.

(** The runs of a paragraph after [applyStyleToSingleParagraph]. *)
Definition styledRuns (startOffset endOffset : Z) (patch : TextStyle)
    (rs : list Run) : list Run :=
  mergeAdjacentRuns (styleLoop rs 0 startOffset endOffset patch).

(** The patch laid over the graphemes [startOffset .. endOffset - 1] of a
    list of per-grapheme styles that starts at offset [o]. *)
Fixpoint patchFrom (startOffset endOffset : Z) (patch : TextStyle) (o : Z)
    (l : list TextStyle) : list TextStyle :=
  match l with
  | [] => []
  | s :: l' =>
      (if (startOffset <=? o) && (o <? endOffset) then spread s patch else s)
      :: patchFrom startOffset endOffset patch (o + 1) l'
  end.

(** The range of the paragraph [i], of [count] clusters, that [applyStyle]
    restyles; [None] for a paragraph outside the range. *)
Definition styledRange (start end_ : Position) (i count : Z) : option (Z * Z) :=
  if paragraphIndex start =? paragraphIndex end_
  then (if i =? paragraphIndex start then Some (offset start, offset end_) else None)
  else if i =? paragraphIndex start then Some (offset start, count)
       else if (paragraphIndex start <? i) && (i <? paragraphIndex end_)
            then Some (0, count)
            else if i =? paragraphIndex end_ then Some (0, offset end_)
                 else None.

(** ** Text with line breaks *)

(** [pieces.join('\n')] *)
Fixpoint joinNewline (pieces : list jsstring) : jsstring :=
  match pieces with
  | [] => []
  | t :: rest =>
      match rest with
      | [] => t
      | _ :: _ => t ++ newline :: joinNewline rest
      end
  end.

(** ** Positions, documents and methods *)

Section Vocabulary.
Context {U : Unicode}.

(** The paragraph index is in [0, paragraphCount) and the offset in
    [0, graphemeCount]. *)
Definition validPosition (d : Document) (pos : Position) : Prop :=
  exists p, js_get (paragraphs d) (paragraphIndex pos) = Some p
            /\ 0 <= offset pos <= getGraphemeCount (text p).

(** Both positions are valid and [start] is not after [end_] in
    paragraph-then-offset order. *)
Definition validRange (d : Document) (start end_ : Position) : Prop :=
  validPosition d start /\ validPosition d end_
  /\ startAfterEnd start end_ = false.

(** The errors that report a position out of range. *)
Definition PositionOutOfRange (e : Error) : Prop :=
  match e with
  | InvalidParagraphIndex _ | InvalidOffset _ _ => True
  | _ => False
  end.

(** A method with one position fails, before it writes, on a position out of
    range. *)
Definition validatesPosition {A} (method : Position -> M A) : Prop :=
  forall d pos,
    (~ validPosition d pos ->
     exists e, method pos d = (inl e, d) /\ PositionOutOfRange e)
    /\ (forall e d', method pos d = (inl e, d') -> d' = d).

(** A method with two positions fails, before it writes, on a position out
    of range and on a start after the end. *)
Definition validatesRange {A} (method : Position -> Position -> M A) : Prop :=
  forall d start end_,
    (~ (validPosition d start /\ validPosition d end_) ->
     exists e, method start end_ d = (inl e, d) /\ PositionOutOfRange e)
    /\ (validPosition d start -> validPosition d end_ ->
        startAfterEnd start end_ = true ->
        method start end_ d = (inl InvalidRange, d))
    /\ (forall e d', method start end_ d = (inl e, d') -> d' = d).

(** The paragraph after [applyStyleToSingleParagraph] on the range
    [s .. e]. *)
Definition restyleRange (patch : TextStyle) (s e : Z) (p : Paragraph) : Paragraph :=
  withRuns p (styledRuns s e patch (runs p)).

Definition restyleWhole (patch : TextStyle) (p : Paragraph) : Paragraph :=
  restyleRange patch 0 (getGraphemeCount (text p)) p.

(** The paragraph at index [i] after [applyStyle start end_ patch]. *)
Definition styledParagraph (patch : TextStyle) (start end_ : Position) (i : Z)
    (p : Paragraph) : Paragraph :=
  if paragraphIndex start =? paragraphIndex end_
  then (if i =? paragraphIndex start
        then restyleRange patch (offset start) (offset end_) p else p)
  else if i =? paragraphIndex start
       then restyleRange patch (offset start) (getGraphemeCount (text p)) p
       else if (paragraphIndex start <? i) && (i <? paragraphIndex end_)
            then restyleWhole patch p
            else if i =? paragraphIndex end_
                 then restyleRange patch 0 (offset end_) p
                 else p.

(** I1 and I2 for one paragraph: the runs are not empty and their lengths
    add up to the number of grapheme clusters of the text. *)
Definition ledgerInvariant (p : Paragraph) : Prop :=
  positiveRuns (runs p) /\ sumLengths (runs p) = getGraphemeCount (text p).

Definition ledgerInvariants (d : Document) : Prop :=
  Forall ledgerInvariant (paragraphs d).

(** I3 for every paragraph. *)
Definition maximallyMerged (d : Document) : Prop :=
  Forall (fun p => noAdjacentEqual (runs p)) (paragraphs d).

(** The bounds that a call [slice(start, end)] on a text of [count]
    clusters works with. *)
Definition sliceFrom (count start : Z) : Z := relativeIndex count start.
Definition sliceTo (count : Z) (end_ : option Z) : Z :=
  match end_ with
  | None => count
  | Some e => relativeIndex count e
  end.

(** Every grapheme cluster of the text is one code unit: grapheme offsets
    and code-unit offsets are the same. *)
Definition singleUnitClusters (t : jsstring) : Prop :=
  segment t = map (fun c => [c]) t.

(** The texts of the clipboard paragraphs, with the slices taken by
    grapheme offsets. *)
Definition copiedTexts (d : Document) (start end_ : Position) : list jsstring :=
  let ps := paragraphs d in
  if paragraphIndex start =? paragraphIndex end_
  then [trim (sliceTextByGraphemes ps (paragraphIndex start) (offset start)
                (Some (offset end_)))]
  else trim (sliceTextByGraphemes ps (paragraphIndex start) (offset start) None)
       :: map text (js_slice ps (paragraphIndex start + 1) (Some (paragraphIndex end_)))
       ++ [trim (sliceTextByGraphemes ps (paragraphIndex end_) 0 (Some (offset end_)))].

(** The slices of the first and of the last paragraph that [copyText]
    trims. *)
Definition copiedSlices (d : Document) (start end_ : Position) : list jsstring :=
  let ps := paragraphs d in
  if paragraphIndex start =? paragraphIndex end_
  then [sliceTextByGraphemes ps (paragraphIndex start) (offset start)
          (Some (offset end_))]
  else [sliceTextByGraphemes ps (paragraphIndex start) (offset start) None;
        sliceTextByGraphemes ps (paragraphIndex end_) 0 (Some (offset end_))].

(** The three calls of the round trip, the paste being the one of the
    second source. *)
Definition copyDeletePaste (start end_ : Position) : M unit :=
  clipboardData <- copyText start end_ ;;
  deleteText start end_ ;;
  Part001.pasteText start clipboardData.
(** The paragraph that [insertText] hands to [updateRunLengths]. *)
Definition insertedParagraph (p : Paragraph) (off : Z) (txt : jsstring)
    (sty : TextStyle) : Paragraph :=
  let n := getGraphemeCount txt in
  let p1 := withText p (js_slice (text p) 0 (Some off) ++ txt
                        ++ js_slice (text p) off None) in
  let '(runIndex, offsetInRun) := findRunAtOffset p1 off in
  if runIndex =? -1
  then withRuns p1 (runs p1 ++ [{| length := n; style := sty |}])
  else insertTextIntoRun p1 runIndex offsetInRun n sty.

End Vocabulary.

(** * Properties *)

(** Boolean tests of the source, turned into the arithmetic they decide. *)
Ltac unbool :=
  repeat match goal with
         | H : _ && _ = true |- _ => apply andb_true_iff in H; destruct H
         | H : _ || _ = false |- _ => apply orb_false_iff in H; destruct H
         | H : _ && _ = false |- _ => apply andb_false_iff in H
         | H : _ || _ = true |- _ => apply orb_true_iff in H
         | H : negb _ = true |- _ => apply negb_true_iff in H
         | H : negb _ = false |- _ => apply negb_false_iff in H
         end.
Ltac zbool := unbool; lia.

(** ** Styles: the comparison decides equality, the spread is idempotent *)

(** Induction on a JSON value, with the hypothesis for every field of an
    object. *)
Lemma json_ind (P : json -> Prop) :
  (forall n, P (JNum n)) ->
  (forall s, P (JStr s)) ->
  (forall b, P (JBool b)) ->
  (forall fs, Forall (fun kv => P (snd kv)) fs -> P (JObj fs)) ->
  forall j, P j.
Proof.
  intros HNum HStr HBool HObj. fix IH 1. intros [n|s|b|fs].
  - apply HNum.
  - apply HStr.
  - apply HBool.
  - apply HObj. induction fs as [|kv fs IHfs]; constructor.
    + apply IH.
    + exact IHfs.
Qed.

Lemma json_eqb_eq : forall a b, json_eqb a b = true <-> a = b.
Proof.
  induction a as [n|s|x|fs IH] using json_ind; intros b; destruct b as [m|t|y|gs];
    cbn [json_eqb]; try (split; [discriminate | congruence]).
  - rewrite Z.eqb_eq. split; congruence.
  - rewrite String.eqb_eq. split; congruence.
  - rewrite Bool.eqb_true_iff. split; congruence.
  - revert gs. induction IH as [|[k v] fs' Hv _ IHfs]; intros gs.
    + destruct gs; split; congruence.
    + destruct gs as [|[k' v'] gs']; [split; congruence|].
      rewrite !andb_true_iff, String.eqb_eq. cbn [snd] in Hv.
      rewrite (Hv v'), (IHfs gs'). split.
      * intros [[-> ->] H]. congruence.
      * intros H. injection H as -> -> ->. auto.
Qed.

Lemma areStylesEqual_eq (a b : TextStyle) : areStylesEqual a b = true <-> a = b.
Proof.
  unfold areStylesEqual. rewrite json_eqb_eq. split; congruence.
Qed.

Lemma areStylesEqual_refl (a : TextStyle) : areStylesEqual a a = true.
Proof. apply areStylesEqual_eq. reflexivity. Qed.

Lemma areStylesEqual_neq (a b : TextStyle) : areStylesEqual a b = false <-> a <> b.
Proof.
  rewrite <- areStylesEqual_eq. destruct (areStylesEqual a b); split; congruence.
Qed.

Lemma hasKey_assign (o : TextStyle) (kv : string * json) (k : string) :
  hasKey k (assign o kv) = hasKey k o || String.eqb (fst kv) k.
Proof.
  unfold assign. destruct (hasKey (fst kv) o) eqn:Hk.
  - assert (Hm : hasKey k (map (fun kv' => if String.eqb (fst kv') (fst kv)
                                          then (fst kv', snd kv) else kv') o)
                 = hasKey k o).
    { unfold hasKey. clear Hk. induction o as [|x o IH]; [reflexivity|].
      cbn [map existsb]. rewrite IH. f_equal.
      destruct (String.eqb (fst x) (fst kv)); reflexivity. }
    rewrite Hm. destruct (String.eqb (fst kv) k) eqn:E.
    + apply String.eqb_eq in E. subst k. rewrite Hk. reflexivity.
    + rewrite orb_false_r. reflexivity.
  - unfold hasKey. rewrite existsb_app. cbn [existsb]. rewrite orb_false_r.
    reflexivity.
Qed.

Lemma hasKey_spread (patch o : TextStyle) (k : string) :
  hasKey k o = true \/ (exists kv, In kv patch /\ fst kv = k) ->
  hasKey k (spread o patch) = true.
Proof.
  revert o. induction patch as [|kv patch IH]; intros o H.
  - destruct H as [H | [kv [[] _]]]. exact H.
  - cbn [spread fold_left]. apply IH.
    destruct H as [H | [kv' [[<- | Hin] Hk]]].
    + left. rewrite hasKey_assign, H. reflexivity.
    + left. rewrite hasKey_assign, Hk, String.eqb_refl. apply orb_true_r.
    + right. exists kv'. auto.
Qed.

Lemma spread_present (patch o : TextStyle) :
  (forall kv, In kv patch -> hasKey (fst kv) o = true) ->
  spread o patch = map (override patch) o.
Proof.
  revert o. induction patch as [|kv patch IH]; intros o H.
  - cbn [spread fold_left]. rewrite <- (map_id o) at 1. reflexivity.
  - cbn [spread fold_left]. fold (spread (assign o kv) patch).
    rewrite IH.
    + unfold assign. rewrite (H kv) by (left; reflexivity).
      rewrite map_map. apply map_ext. intros x.
      unfold override. cbn [lastValue].
      destruct (String.eqb (fst x) (fst kv)) eqn:E; cbn [fst snd];
        destruct (lastValue patch (fst x)); reflexivity.
    + intros kv' Hin. rewrite hasKey_assign, (H kv') by (right; exact Hin).
      reflexivity.
Qed.

Lemma assign_value (o : TextStyle) (kv x : string * json) :
  In x (assign o kv) -> fst x = fst kv -> snd x = snd kv.
Proof.
  unfold assign. destruct (hasKey (fst kv) o) eqn:Hk; intros Hin Hx.
  - apply in_map_iff in Hin. destruct Hin as [y [Hy _]].
    destruct (String.eqb (fst y) (fst kv)) eqn:E.
    + subst x. reflexivity.
    + subst x. apply String.eqb_neq in E. contradiction.
  - apply in_app_or in Hin. destruct Hin as [Hin | [<- | []]]; [|reflexivity].
    exfalso. unfold hasKey in Hk.
    assert (existsb (fun kv0 => String.eqb (fst kv0) (fst kv)) o = true).
    { apply existsb_exists. exists x. split; [exact Hin|].
      rewrite Hx. apply String.eqb_refl. }
    congruence.
Qed.

Lemma assign_other (o : TextStyle) (kv x : string * json) :
  In x (assign o kv) -> fst x <> fst kv -> In x o.
Proof.
  unfold assign. destruct (hasKey (fst kv) o); intros Hin Hx.
  - apply in_map_iff in Hin. destruct Hin as [y [Hy Hin]].
    destruct (String.eqb (fst y) (fst kv)) eqn:E.
    + subst x. apply String.eqb_eq in E. contradiction.
    + subst x. exact Hin.
  - apply in_app_or in Hin. destruct Hin as [Hin | [<- | []]]; [exact Hin|].
    contradiction.
Qed.

Lemma spread_untouched (patch o : TextStyle) (x : string * json) :
  lastValue patch (fst x) = None -> In x (spread o patch) -> In x o.
Proof.
  revert o. induction patch as [|kv patch IH]; intros o Hl Hin; [exact Hin|].
  cbn [lastValue] in Hl. destruct (lastValue patch (fst x)) eqn:Hp; [discriminate|].
  destruct (String.eqb (fst x) (fst kv)) eqn:E; [discriminate|].
  apply String.eqb_neq in E.
  apply (assign_other o kv); [|exact E]. apply IH; [reflexivity | exact Hin].
Qed.

Lemma spread_values (patch o : TextStyle) (x : string * json) (w : json) :
  In x (spread o patch) -> lastValue patch (fst x) = Some w -> snd x = w.
Proof.
  revert o. induction patch as [|kv patch IH]; intros o Hin Hl; [discriminate|].
  cbn [lastValue] in Hl. cbn [spread fold_left] in Hin.
  fold (spread (assign o kv) patch) in Hin.
  destruct (lastValue patch (fst x)) eqn:Hp.
  - injection Hl as <-. exact (IH _ Hin eq_refl).
  - destruct (String.eqb (fst x) (fst kv)) eqn:E; [|discriminate].
    injection Hl as <-. apply String.eqb_eq in E.
    apply (assign_value o kv); [|exact E].
    apply (spread_untouched patch); assumption.
Qed.

(** Spreading the same patch a second time changes nothing. *)
Lemma spread_idempotent (o patch : TextStyle) :
  spread (spread o patch) patch = spread o patch.
Proof.
  rewrite (spread_present patch (spread o patch)).
  - rewrite <- (map_id (spread o patch)) at 2. apply map_ext_in.
    intros x Hin. unfold override.
    destruct (lastValue patch (fst x)) eqn:Hl; [|reflexivity].
    rewrite <- (spread_values patch o x j Hin Hl). destruct x; reflexivity.
  - intros kv Hin. apply hasKey_spread. right. exists kv. auto.
Qed.

(** ** The run ledger *)

Lemma sumLengths_cons (r : Run) (rs : list Run) :
  sumLengths (r :: rs) = length r + sumLengths rs.
Proof. reflexivity. Qed.

Lemma sumLengths_app (rs rs' : list Run) :
  sumLengths (rs ++ rs') = sumLengths rs + sumLengths rs'.
Proof.
  induction rs as [|r rs IH]; [reflexivity|].
  cbn [app]. rewrite !sumLengths_cons, IH. lia.
Qed.

Lemma totalRunLength_sum (rs : list Run) : totalRunLength rs = sumLengths rs.
Proof.
  unfold totalRunLength.
  assert (H : forall a, fold_left (fun sum run => sum + length run) rs a
                        = a + sumLengths rs).
  { unfold sumLengths.
    induction rs as [|r rs IH]; intros a; cbn [fold_left fold_right].
    - lia.
    - rewrite IH. lia. }
  rewrite H. lia.
Qed.

Lemma positive_nonNegative (rs : list Run) : positiveRuns rs -> nonNegativeRuns rs.
Proof. apply Forall_impl. intros r. cbn. lia. Qed.

Section RunLedger.
Context {U : Unicode}.

Lemma mergeAdjacentRuns_cons (r : Run) (rs : list Run) :
  mergeAdjacentRuns (r :: rs) = mergeLoop r rs.
Proof. destruct rs; reflexivity. Qed.

Lemma mergeLoop_head (lastRun : Run) (rest : list Run) :
  exists n rs', mergeLoop lastRun rest = withLength lastRun n :: rs'.
Proof.
  revert lastRun. induction rest as [|r rest IH]; intros lastRun; cbn [mergeLoop].
  - exists (length lastRun), []. destruct lastRun; reflexivity.
  - destruct (areStylesEqual (style lastRun) (style r)).
    + destruct (IH (withLength lastRun (length lastRun + length r))) as [n [rs' H]].
      exists n, rs'. exact H.
    + exists (length lastRun), (mergeLoop r rest). destruct lastRun; reflexivity.
Qed.

Lemma mergeLoop_noAdjacentEqual (rest : list Run) :
  forall lastRun, noAdjacentEqual (mergeLoop lastRun rest).
Proof.
  induction rest as [|r rest IH]; intros lastRun; cbn [mergeLoop].
  - exact I.
  - destruct (areStylesEqual (style lastRun) (style r)) eqn:E.
    + apply IH.
    + destruct (mergeLoop_head r rest) as [n [rs' H]].
      specialize (IH r). rewrite H in *. cbn [noAdjacentEqual]. split.
      * exact E.
      * exact IH.
Qed.

(** The result of the merge has no two neighbours with equal styles. *)
Lemma mergeAdjacentRuns_noAdjacentEqual (rs : list Run) :
  noAdjacentEqual (mergeAdjacentRuns rs).
Proof.
  destruct rs as [|r rs]; [exact I|].
  rewrite mergeAdjacentRuns_cons. apply mergeLoop_noAdjacentEqual.
Qed.

Lemma mergeLoop_fixed (rest : list Run) :
  forall lastRun, noAdjacentEqual (lastRun :: rest) ->
                  mergeLoop lastRun rest = lastRun :: rest.
Proof.
  induction rest as [|r rest IH]; intros lastRun H; cbn [mergeLoop].
  - reflexivity.
  - cbn [noAdjacentEqual] in H. destruct H as [E H]. rewrite E.
    rewrite IH by exact H. reflexivity.
Qed.

Lemma mergeAdjacentRuns_fixed (rs : list Run) :
  noAdjacentEqual rs -> mergeAdjacentRuns rs = rs.
Proof.
  destruct rs as [|r rs]; [reflexivity|]. intros H.
  rewrite mergeAdjacentRuns_cons. apply mergeLoop_fixed. exact H.
Qed.

Lemma mergeAdjacentRuns_idempotent (rs : list Run) :
  mergeAdjacentRuns (mergeAdjacentRuns rs) = mergeAdjacentRuns rs.
Proof. apply mergeAdjacentRuns_fixed, mergeAdjacentRuns_noAdjacentEqual. Qed.

Lemma mergeLoop_positive (rest : list Run) :
  forall lastRun, 0 < length lastRun -> positiveRuns rest ->
                  positiveRuns (mergeLoop lastRun rest).
Proof.
  induction rest as [|r rest IH]; intros lastRun Hl Hr; cbn [mergeLoop].
  - constructor; [exact Hl | constructor].
  - inversion Hr as [|? ? Hr0 Hr']; subst.
    destruct (areStylesEqual (style lastRun) (style r)).
    + apply IH; [cbn; lia | exact Hr'].
    + constructor; [exact Hl | apply IH; assumption].
Qed.

Lemma mergeAdjacentRuns_positive (rs : list Run) :
  positiveRuns rs -> positiveRuns (mergeAdjacentRuns rs).
Proof.
  destruct rs as [|r rs]; [trivial|]. intros H. rewrite mergeAdjacentRuns_cons.
  inversion H; subst. apply mergeLoop_positive; assumption.
Qed.

Lemma mergeLoop_sum (rest : list Run) :
  forall lastRun, sumLengths (mergeLoop lastRun rest)
                  = length lastRun + sumLengths rest.
Proof.
  induction rest as [|r rest IH]; intros lastRun; cbn [mergeLoop].
  - reflexivity.
  - destruct (areStylesEqual (style lastRun) (style r)).
    + rewrite IH, sumLengths_cons. cbn [withLength length]. lia.
    + rewrite !sumLengths_cons, IH. reflexivity.
Qed.

Lemma mergeAdjacentRuns_sum (rs : list Run) :
  sumLengths (mergeAdjacentRuns rs) = sumLengths rs.
Proof.
  destruct rs as [|r rs]; [reflexivity|].
  rewrite mergeAdjacentRuns_cons. apply mergeLoop_sum.
Qed.

Lemma expand_cons (r : Run) (rs : list Run) :
  expand (r :: rs) = repeat (style r) (Z.to_nat (length r)) ++ expand rs.
Proof. reflexivity. Qed.

Lemma expand_app (rs rs' : list Run) : expand (rs ++ rs') = expand rs ++ expand rs'.
Proof. apply flat_map_app. Qed.

Lemma rleLoop_repeat (s s' : TextStyle) (n : nat) :
  areStylesEqual s s' = true ->
  forall m l, rleLoop s m (repeat s' n ++ l) = rleLoop s (m + Z.of_nat n) l.
Proof.
  intros E. induction n as [|n IH]; intros m l.
  - cbn [repeat app]. f_equal. lia.
  - cbn [repeat app rleLoop]. rewrite E, IH. f_equal. lia.
Qed.

Lemma mergeLoop_rle (rest : list Run) :
  positiveRuns rest ->
  forall lastRun,
    mergeLoop lastRun rest = rleLoop (style lastRun) (length lastRun) (expand rest).
Proof.
  induction rest as [|r rest IH]; intros Hp lastRun.
  - destruct lastRun; reflexivity.
  - inversion Hp as [|? ? Hr Hp']; subst. cbn [mergeLoop]. rewrite expand_cons.
    destruct (areStylesEqual (style lastRun) (style r)) eqn:E.
    + rewrite (rleLoop_repeat _ _ _ E), IH by exact Hp'.
      cbn [withLength length style]. f_equal. lia.
    + destruct (Z.to_nat (length r)) as [|n] eqn:En; [lia|].
      cbn [repeat app rleLoop]. rewrite E.
      rewrite (rleLoop_repeat _ _ _ (areStylesEqual_refl (style r))).
      rewrite IH by exact Hp'. destruct lastRun as [ll ls]. cbn [length style].
      f_equal. f_equal. lia.
Qed.

Lemma mergeAdjacentRuns_rle (rs : list Run) :
  positiveRuns rs -> mergeAdjacentRuns rs = rle (expand rs).
Proof.
  destruct rs as [|r rs]; [reflexivity|]. intros Hp.
  inversion Hp as [|? ? Hr Hp']; subst.
  rewrite mergeAdjacentRuns_cons, mergeLoop_rle by exact Hp'.
  rewrite expand_cons. destruct (Z.to_nat (length r)) as [|n] eqn:En; [lia|].
  cbn [repeat app rle].
  rewrite (rleLoop_repeat _ _ _ (areStylesEqual_refl (style r))). f_equal. lia.
Qed.

Lemma expand_mergeLoop (rest : list Run) :
  nonNegativeRuns rest ->
  forall lastRun, 0 <= length lastRun ->
    expand (mergeLoop lastRun rest) = expand (lastRun :: rest).
Proof.
  induction rest as [|r rest IH]; intros Hp lastRun Hl; [reflexivity|].
  inversion Hp as [|? ? Hr Hp']; subst. cbn [mergeLoop].
  destruct (areStylesEqual (style lastRun) (style r)) eqn:E.
  - rewrite IH by (try exact Hp'; cbn; lia).
    rewrite !expand_cons. cbn [withLength length style].
    apply areStylesEqual_eq in E. rewrite <- E, app_assoc, <- repeat_app.
    f_equal. f_equal. lia.
  - rewrite expand_cons, IH by assumption. reflexivity.
Qed.

Lemma expand_mergeAdjacentRuns (rs : list Run) :
  nonNegativeRuns rs -> expand (mergeAdjacentRuns rs) = expand rs.
Proof.
  destruct rs as [|r rs]; [reflexivity|]. intros Hp.
  inversion Hp; subst. rewrite mergeAdjacentRuns_cons.
  apply expand_mergeLoop; assumption.
Qed.
End RunLedger.

(** ** Styling a range of one paragraph *)

Section Styling.
Context {U : Unicode}.
Variables (startOffset endOffset : Z) (patch : TextStyle).

Lemma patchFrom_app (l l' : list TextStyle) :
  forall o, patchFrom startOffset endOffset patch o (l ++ l') = patchFrom startOffset endOffset patch o l ++ patchFrom startOffset endOffset patch (o + zlength l) l'.
Proof.
  unfold zlength. induction l as [|s l IH]; intros o.
  - cbn [app patchFrom List.length]. f_equal. lia.
  - cbn [app patchFrom List.length]. rewrite IH. do 3 f_equal. lia.
Qed.

Lemma patchFrom_outside (l : list TextStyle) :
  forall o, zlength l = 0 \/ o + zlength l <= startOffset \/ endOffset <= o ->
            patchFrom startOffset endOffset patch o l = l.
Proof.
  unfold zlength. induction l as [|s l IH]; intros o H; [reflexivity|].
  cbn [patchFrom List.length] in *. rewrite IH by lia.
  destruct ((startOffset <=? o) && (o <? endOffset)) eqn:E; [|reflexivity].
  apply andb_true_iff in E. lia.
Qed.

Lemma patchFrom_inside (s : TextStyle) (n : nat) :
  forall o, startOffset <= o -> o + Z.of_nat n <= endOffset ->
            patchFrom startOffset endOffset patch o (repeat s n) = repeat (spread s patch) n.
Proof.
  induction n as [|n IH]; intros o H1 H2; [reflexivity|].
  cbn [repeat patchFrom]. rewrite IH by lia.
  destruct ((startOffset <=? o) && (o <? endOffset)) eqn:E; [reflexivity|].
  apply andb_false_iff in E. lia.
Qed.

Lemma patchFrom_idempotent (l : list TextStyle) :
  forall o, patchFrom startOffset endOffset patch o (patchFrom startOffset endOffset patch o l) = patchFrom startOffset endOffset patch o l.
Proof.
  induction l as [|s l IH]; intros o; [reflexivity|].
  cbn [patchFrom]. rewrite IH.
  destruct ((startOffset <=? o) && (o <? endOffset));
    [rewrite spread_idempotent|]; reflexivity.
Qed.

Lemma zlength_repeat {A} (x : A) (n : nat) : zlength (repeat x n) = Z.of_nat n.
Proof. unfold zlength. rewrite repeat_length. reflexivity. Qed.

(** The pieces that the loop emits for one run cover the run. *)
Lemma patchFrom_run (s : TextStyle) (n o : Z) :
  0 <= n -> startOffset <= endOffset ->
  o + n > startOffset -> o < endOffset ->
  patchFrom startOffset endOffset patch o (repeat s (Z.to_nat n))
  = repeat s (Z.to_nat (startOffset - o))
    ++ repeat (spread s patch)
         (Z.to_nat (Z.min (o + n) endOffset - Z.max o startOffset))
    ++ repeat s (Z.to_nat (o + n - endOffset)).
Proof.
  intros Hn Hse H1 H2.
  replace (Z.to_nat n)
    with (Z.to_nat (startOffset - o)
          + (Z.to_nat (Z.min (o + n) endOffset - Z.max o startOffset)
             + Z.to_nat (o + n - endOffset)))%nat by lia.
  rewrite !repeat_app, !patchFrom_app, !zlength_repeat.
  rewrite (patchFrom_outside (repeat s (Z.to_nat (startOffset - o))))
    by (rewrite zlength_repeat; lia).
  rewrite patchFrom_inside by lia.
  rewrite (patchFrom_outside (repeat s (Z.to_nat (o + n - endOffset))))
    by (rewrite zlength_repeat; lia).
  reflexivity.
Qed.

Lemma expand_styleLoop (rs : list Run) :
  nonNegativeRuns rs -> startOffset <= endOffset ->
  forall o, expand (styleLoop rs o startOffset endOffset patch)
            = patchFrom startOffset endOffset patch o (expand rs).
Proof.
  intros Hp Hse. induction Hp as [|r rs Hr _ IH]; intros o; [reflexivity|].
  cbn [styleLoop]. rewrite expand_app, IH, expand_cons, patchFrom_app.
  rewrite zlength_repeat, Z2Nat.id by exact Hr. f_equal.
  destruct ((o + length r <=? startOffset) || (o >=? endOffset)) eqn:E.
  - cbn [expand flat_map]. rewrite app_nil_r. symmetry.
    apply patchFrom_outside. rewrite zlength_repeat.
    apply orb_true_iff in E. lia.
  - apply orb_false_iff in E. rewrite patchFrom_run by lia.
    rewrite !expand_app. f_equal; [|f_equal].
    + destruct (o <? startOffset) eqn:E1.
      * cbn. rewrite app_nil_r. reflexivity.
      * replace (Z.to_nat (startOffset - o)) with 0%nat by lia. reflexivity.
    + cbn. rewrite app_nil_r. reflexivity.
    + destruct (o + length r >? endOffset) eqn:E2.
      * cbn. rewrite app_nil_r. reflexivity.
      * replace (Z.to_nat (o + length r - endOffset)) with 0%nat by lia.
        reflexivity.
Qed.

Lemma styleLoop_positive (rs : list Run) :
  positiveRuns rs -> startOffset < endOffset ->
  forall o, positiveRuns (styleLoop rs o startOffset endOffset patch).
Proof.
  intros Hp Hse. induction Hp as [|r rs Hr _ IH]; intros o; [constructor|].
  cbn [styleLoop]. apply Forall_app. split; [|apply IH].
  destruct ((o + length r <=? startOffset) || (o >=? endOffset)) eqn:E.
  - constructor; [exact Hr | constructor].
  - apply orb_false_iff in E. apply Forall_app. split; [|apply Forall_app; split].
    + destruct (o <? startOffset) eqn:E1; constructor; [cbn; lia | constructor].
    + constructor; [cbn; lia | constructor].
    + destruct (o + length r >? endOffset) eqn:E2; constructor;
        [cbn; lia | constructor].
Qed.

(** Outside the range the loop copies the runs. *)
Lemma styleLoop_unchanged (rs : list Run) :
  nonNegativeRuns rs ->
  forall o, endOffset <= o \/ o + sumLengths rs <= startOffset ->
            styleLoop rs o startOffset endOffset patch = rs.
Proof.
  intros Hp. induction Hp as [|r rs Hr Hp IH]; intros o H; [reflexivity|].
  rewrite sumLengths_cons in H. cbn [styleLoop].
  assert (Hs : 0 <= sumLengths rs).
  { clear -Hp. induction Hp as [|x l Hx _ IHl]; [cbn; lia|].
    rewrite sumLengths_cons. lia. }
  rewrite IH by lia.
  destruct ((o + length r <=? startOffset) || (o >=? endOffset)) eqn:E;
    [reflexivity|].
  apply orb_false_iff in E. lia.
Qed.
End Styling.

Section StylingTwice.
Context {U : Unicode}.
Variables (startOffset endOffset : Z) (patch : TextStyle).

(** Styling a non-empty range twice gives the runs of styling it once. *)
Lemma styledRuns_idempotent (rs : list Run) :
  positiveRuns rs -> startOffset < endOffset ->
  styledRuns startOffset endOffset patch (styledRuns startOffset endOffset patch rs)
  = styledRuns startOffset endOffset patch rs.
Proof.
  intros Hp Hse. unfold styledRuns.
  set (ys := styleLoop rs 0 startOffset endOffset patch).
  assert (Hys : positiveRuns ys) by (apply styleLoop_positive; assumption).
  assert (Hzs : positiveRuns (mergeAdjacentRuns ys))
    by (apply mergeAdjacentRuns_positive; exact Hys).
  rewrite (mergeAdjacentRuns_rle (styleLoop (mergeAdjacentRuns ys) _ _ _ _))
    by (apply styleLoop_positive; assumption).
  rewrite expand_styleLoop by (try apply positive_nonNegative; try lia; exact Hzs).
  rewrite expand_mergeAdjacentRuns by (apply positive_nonNegative; exact Hys).
  rewrite (mergeAdjacentRuns_rle ys) by exact Hys.
  f_equal. unfold ys.
  rewrite expand_styleLoop by (try apply positive_nonNegative; try lia; exact Hp).
  apply patchFrom_idempotent.
Qed.

(** So does styling an empty range that no run straddles. *)
Lemma styledRuns_idempotent_outside (rs : list Run) :
  nonNegativeRuns rs -> endOffset <= 0 \/ sumLengths rs <= startOffset ->
  styledRuns startOffset endOffset patch (styledRuns startOffset endOffset patch rs)
  = styledRuns startOffset endOffset patch rs.
Proof.
  intros Hp H. unfold styledRuns.
  rewrite (styleLoop_unchanged startOffset endOffset patch rs Hp 0) by lia.
  rewrite styleLoop_unchanged.
  - apply mergeAdjacentRuns_idempotent.
  - destruct rs as [|r rs]; [constructor|]. rewrite mergeAdjacentRuns_cons.
    inversion Hp as [|? ? Hr Hrs]; subst. clear -Hr Hrs. revert r Hr.
    induction Hrs as [|x l Hx _ IH]; intros r Hr; cbn [mergeLoop].
    + constructor; [exact Hr | constructor].
    + destruct (areStylesEqual (style r) (style x)).
      * apply IH. cbn. lia.
      * constructor; [exact Hr | apply IH; exact Hx].
  - rewrite mergeAdjacentRuns_sum. lia.
Qed.
End StylingTwice.

(** ** Arrays *)

Lemma js_get_nth {A} (l : list A) (i : Z) :
  0 <= i -> js_get l i = nth_error l (Z.to_nat i).
Proof. intros H. unfold js_get. destruct (i <? 0) eqn:E; [lia | reflexivity]. Qed.

Lemma js_get_Some_range {A} (l : list A) (i : Z) (x : A) :
  js_get l i = Some x -> 0 <= i < zlength l.
Proof.
  unfold js_get, zlength. destruct (i <? 0) eqn:E; [discriminate|]. intros H.
  assert (Hn : nth_error l (Z.to_nat i) <> None) by congruence.
  apply nth_error_Some in Hn. lia.
Qed.

Lemma js_get_in_range {A} (l : list A) (i : Z) :
  0 <= i < zlength l -> exists x, js_get l i = Some x.
Proof.
  unfold zlength. intros H. rewrite js_get_nth by lia.
  destruct (nth_error l (Z.to_nat i)) eqn:E; [eauto|].
  apply nth_error_None in E. lia.
Qed.

Lemma js_get_None {A} (l : list A) (i : Z) :
  i < 0 \/ zlength l <= i -> js_get l i = None.
Proof.
  unfold js_get, zlength. intros H. destruct (i <? 0) eqn:E; [reflexivity|].
  apply nth_error_None. lia.
Qed.

Lemma nth_error_set_nth {A} (l : list A) (x : A) :
  forall n m, nth_error (set_nth l n x) m
              = if Nat.eqb m n
                then match nth_error l n with Some _ => Some x | None => None end
                else nth_error l m.
Proof.
  induction l as [|y l IH]; intros n m.
  - destruct n, m; cbn; try reflexivity. destruct (Nat.eqb m n); reflexivity.
  - destruct n as [|n], m as [|m]; try reflexivity. cbn [set_nth nth_error].
    rewrite IH. reflexivity.
Qed.

Lemma length_set_nth {A} (l : list A) (x : A) :
  forall n, List.length (set_nth l n x) = List.length l.
Proof.
  induction l as [|y l IH]; intros n; [destruct n; reflexivity|].
  destruct n; cbn [set_nth List.length]; [reflexivity | rewrite IH; reflexivity].
Qed.

Lemma zlength_js_set {A} (l : list A) (i : Z) (x : A) :
  zlength (js_set l i x) = zlength l.
Proof.
  unfold js_set, zlength. destruct (i <? 0); [reflexivity|].
  rewrite length_set_nth. reflexivity.
Qed.

Lemma js_get_set {A} (l : list A) (i j : Z) (x : A) :
  js_get (js_set l i x) j
  = if j =? i
    then match js_get l i with Some _ => Some x | None => None end
    else js_get l j.
Proof.
  unfold js_get, js_set.
  destruct (j =? i) eqn:Eji.
  - apply Z.eqb_eq in Eji. subst j. destruct (i <? 0); [reflexivity|].
    rewrite nth_error_set_nth, Nat.eqb_refl. reflexivity.
  - apply Z.eqb_neq in Eji. destruct (j <? 0) eqn:Ej; [reflexivity|].
    destruct (i <? 0) eqn:Ei; [reflexivity|].
    rewrite nth_error_set_nth.
    destruct (Nat.eqb (Z.to_nat j) (Z.to_nat i)) eqn:E; [|reflexivity].
    apply Nat.eqb_eq in E. lia.
Qed.

Lemma js_get_ext {A} (l l' : list A) :
  (forall j, js_get l j = js_get l' j) -> l = l'.
Proof.
  intros H. apply nth_error_ext. intros n. specialize (H (Z.of_nat n)).
  rewrite !js_get_nth, Nat2Z.id in H by lia. exact H.
Qed.

Lemma js_get_length {A B} (l : list A) (l' : list B) :
  (forall j, js_get l' j = None <-> js_get l j = None) -> zlength l' = zlength l.
Proof.
  intros H. unfold zlength.
  assert (Hn : forall n, nth_error l' n = None <-> nth_error l n = None).
  { intros n. specialize (H (Z.of_nat n)).
    rewrite !js_get_nth, Nat2Z.id in H by lia. exact H. }
  destruct (Nat.lt_trichotomy (List.length l') (List.length l)) as [Hlt | [Heq | Hgt]].
  - assert (E : nth_error l' (List.length l') = None) by (apply nth_error_None; lia).
    apply Hn, nth_error_None in E. lia.
  - lia.
  - assert (E : nth_error l (List.length l) = None) by (apply nth_error_None; lia).
    apply Hn, nth_error_None in E. lia.
Qed.

Lemma js_get_map {A B} (f : A -> B) (l : list A) (j : Z) :
  js_get (map f l) j = option_map f (js_get l j).
Proof. unfold js_get. destruct (j <? 0); [reflexivity | apply nth_error_map]. Qed.

Lemma js_get_In {A} (l : list A) (j : Z) (x : A) : js_get l j = Some x -> In x l.
Proof.
  unfold js_get. destruct (j <? 0); [discriminate | apply nth_error_In].
Qed.

(** ** Methods *)

Lemma bind_inr {A B} (m : M A) (f : A -> M B) (d d' : Document) (a : A) :
  m d = (inr a, d') -> bind m f d = f a d'.
Proof. intros H. unfold bind. rewrite H. reflexivity. Qed.

Lemma bind_inl {A B} (m : M A) (f : A -> M B) (d d' : Document) (e : Error) :
  m d = (inl e, d') -> bind m f d = (inl e, d').
Proof. intros H. unfold bind. rewrite H. reflexivity. Qed.

Lemma getParagraph_ok (d : Document) (i : Z) (p : Paragraph) :
  js_get (paragraphs d) i = Some p -> getParagraph i d = (inr p, d).
Proof. intros H. unfold getParagraph, bind, getParagraphs. rewrite H. reflexivity. Qed.

Lemma setParagraph_effect (d : Document) (i : Z) (p : Paragraph) :
  setParagraph i p d = (inr tt, {| paragraphs := js_set (paragraphs d) i p |}).
Proof. reflexivity. Qed.

(** ** Positions *)

Section Positions.
Context {U : Unicode}.

Lemma validatePosition_ok (d : Document) (pos : Position) :
  validPosition d pos -> validatePosition pos d = (inr tt, d).
Proof.
  intros [p [Hp Ho]]. pose proof (js_get_Some_range _ _ _ Hp) as Hr.
  unfold validatePosition, bind, getParagraphs, getParagraph, bind, getParagraphs.
  destruct ((paragraphIndex pos <? 0) || (paragraphIndex pos >=? zlength (paragraphs d)))
    eqn:E; [apply orb_true_iff in E; lia|].
  rewrite Hp. unfold ret.
  destruct ((offset pos <? 0) || (offset pos >? getGraphemeCount (text p))) eqn:E2;
    [apply orb_true_iff in E2; lia | reflexivity].
Qed.

Lemma validatePosition_fails (d : Document) (pos : Position) :
  ~ validPosition d pos ->
  exists e, validatePosition pos d = (inl e, d) /\ PositionOutOfRange e.
Proof.
  intros Hn.
  unfold validatePosition, bind, getParagraphs, getParagraph, bind, getParagraphs.
  destruct ((paragraphIndex pos <? 0) || (paragraphIndex pos >=? zlength (paragraphs d)))
    eqn:E.
  - eexists. split; [reflexivity | exact I].
  - apply orb_false_iff in E.
    destruct (js_get_in_range (paragraphs d) (paragraphIndex pos)) as [p Hp]; [lia|].
    rewrite Hp. unfold ret.
    destruct ((offset pos <? 0) || (offset pos >? getGraphemeCount (text p))) eqn:E2.
    + eexists. split; [reflexivity | exact I].
    + exfalso. apply Hn. exists p. apply orb_false_iff in E2. split; [exact Hp | lia].
Qed.

Lemma validPosition_dec (d : Document) (pos : Position) :
  validPosition d pos \/ ~ validPosition d pos.
Proof.
  unfold validPosition.
  destruct (js_get (paragraphs d) (paragraphIndex pos)) as [p|] eqn:Hp.
  - destruct (Z_le_dec 0 (offset pos));
      [destruct (Z_le_dec (offset pos) (getGraphemeCount (text p)))|].
    + left. exists p. auto.
    + right. intros [p' [Hp' Ho]]. injection Hp' as <-. lia.
    + right. intros [p' [Hp' Ho]]. lia.
  - right. intros [p' [Hp' _]]. discriminate.
Qed.

Lemma validateRange_ok (d : Document) (start end_ : Position) :
  validRange d start end_ -> validateRange start end_ d = (inr tt, d).
Proof.
  intros [Hs [He Ho]]. unfold validateRange, bind.
  rewrite (validatePosition_ok d start Hs), (validatePosition_ok d end_ He), Ho.
  reflexivity.
Qed.

Lemma validateRange_fails (d : Document) (start end_ : Position) :
  ~ validRange d start end_ ->
  exists e, validateRange start end_ d = (inl e, d)
            /\ (PositionOutOfRange e
                <-> ~ (validPosition d start /\ validPosition d end_)).
Proof.
  intros Hn. unfold validateRange, bind.
  destruct (validPosition_dec d start) as [Hs | Hs].
  - rewrite (validatePosition_ok d start Hs).
    destruct (validPosition_dec d end_) as [He | He].
    + rewrite (validatePosition_ok d end_ He).
      destruct (startAfterEnd start end_) eqn:Ho.
      * exists InvalidRange. split; [reflexivity|]. cbn. tauto.
      * exfalso. apply Hn. repeat split; assumption.
    + destruct (validatePosition_fails d end_ He) as [e [-> Hpe]].
      exists e. split; [reflexivity | tauto].
  - destruct (validatePosition_fails d start Hs) as [e [-> Hpe]].
    exists e. split; [reflexivity | tauto].
Qed.

Lemma validRange_dec (d : Document) (start end_ : Position) :
  validRange d start end_ \/ ~ validRange d start end_.
Proof.
  unfold validRange.
  destruct (validPosition_dec d start), (validPosition_dec d end_),
    (startAfterEnd start end_); try tauto.
  right. intros [_ [_ Hf]]. discriminate.
Qed.
End Positions.

(** ** What [applyStyle] does to each paragraph *)

Section ApplyStyle.
Context {U : Unicode}.
Variable patch : TextStyle.

Lemma applyStyleToSingleParagraph_effect (d : Document) (i s e : Z) (p : Paragraph) :
  js_get (paragraphs d) i = Some p ->
  applyStyleToSingleParagraph i s e patch d
  = (inr tt, {| paragraphs := js_set (paragraphs d) i (restyleRange patch s e p) |}).
Proof.
  intros Hp.
  unfold applyStyleToSingleParagraph, bind, getParagraph, bind, getParagraphs.
  rewrite Hp. reflexivity.
Qed.

Lemma forLoop_restyleWhole (n : nat) :
  forall i0 d,
    0 <= i0 -> i0 + Z.of_nat n <= zlength (paragraphs d) ->
    exists d',
      forLoop n i0
        (fun i => paragraph <- getParagraph i ;;
                  applyStyleToSingleParagraph i 0
                    (getGraphemeCount (text paragraph)) patch) d
      = (inr tt, d')
      /\ forall j, js_get (paragraphs d') j
                   = if (i0 <=? j) && (j <? i0 + Z.of_nat n)
                     then option_map (restyleWhole patch) (js_get (paragraphs d) j)
                     else js_get (paragraphs d) j.
Proof.
  induction n as [|n IH]; intros i0 d H0 Hn.
  - exists d. split; [reflexivity|]. intros j.
    destruct ((i0 <=? j) && (j <? i0 + Z.of_nat 0)) eqn:E; [|reflexivity].
    zbool.
  - destruct (js_get_in_range (paragraphs d) i0) as [p Hp]; [lia|].
    cbn [forLoop].
    assert (Hbody : (paragraph <- getParagraph i0 ;;
                     applyStyleToSingleParagraph i0 0
                       (getGraphemeCount (text paragraph)) patch) d
                    = (inr tt, {| paragraphs :=
                                   js_set (paragraphs d) i0 (restyleWhole patch p) |})).
    { rewrite (bind_inr _ _ _ _ _ (getParagraph_ok d i0 p Hp)).
      apply applyStyleToSingleParagraph_effect. exact Hp. }
    rewrite (bind_inr _ _ _ _ _ Hbody).
    set (d1 := {| paragraphs := js_set (paragraphs d) i0 _ |}).
    destruct (IH (i0 + 1) d1) as [d' [Hd' Hj]]; [lia | |].
    { unfold d1. cbn [paragraphs]. rewrite zlength_js_set. lia. }
    exists d'. split; [exact Hd'|]. intros j. rewrite Hj.
    unfold d1. cbn [paragraphs]. rewrite js_get_set, Hp.
    destruct (j =? i0) eqn:Ej.
    + apply Z.eqb_eq in Ej. subst j. rewrite Hp.
      destruct ((i0 + 1 <=? i0) && (i0 <? i0 + 1 + Z.of_nat n)) eqn:E1;
        [zbool|].
      destruct ((i0 <=? i0) && (i0 <? i0 + Z.of_nat (S n))) eqn:E2;
        [reflexivity | zbool].
    + apply Z.eqb_neq in Ej.
      destruct ((i0 + 1 <=? j) && (j <? i0 + 1 + Z.of_nat n)) eqn:E1;
        destruct ((i0 <=? j) && (j <? i0 + Z.of_nat (S n))) eqn:E2;
        try reflexivity;
        zbool.
Qed.

(** On a valid range [applyStyle] returns, and the paragraph at every index
    is the styled one. *)
Lemma applyStyle_valid (d : Document) (start end_ : Position) :
  validRange d start end_ ->
  exists d',
    applyStyle start end_ patch d = (inr tt, d')
    /\ forall j, js_get (paragraphs d') j
                 = option_map (styledParagraph patch start end_ j)
                     (js_get (paragraphs d) j).
Proof.
  intros Hv. pose proof Hv as [[ps [Hps Hso]] [[pe [Hpe Heo]] Hord]].
  pose proof (js_get_Some_range _ _ _ Hps) as Hrs.
  pose proof (js_get_Some_range _ _ _ Hpe) as Hre.
  unfold applyStyle. rewrite (bind_inr _ _ _ _ _ (validateRange_ok d start end_ Hv)).
  unfold styledParagraph.
  destruct (paragraphIndex start =? paragraphIndex end_) eqn:Esame.
  - rewrite (applyStyleToSingleParagraph_effect d _ _ _ ps Hps).
    eexists. split; [reflexivity|]. intros j. cbn [paragraphs].
    rewrite js_get_set, Hps.
    destruct (j =? paragraphIndex start) eqn:Ej.
    + apply Z.eqb_eq in Ej. subst j. rewrite Hps. reflexivity.
    + destruct (js_get (paragraphs d) j); reflexivity.
  - apply Z.eqb_neq in Esame.
    assert (Hlt : paragraphIndex start < paragraphIndex end_).
    { unfold startAfterEnd in Hord. zbool. }
    unfold applyStyleAcrossParagraphs.
    rewrite (bind_inr _ _ _ _ _ (getParagraph_ok d _ ps Hps)).
    rewrite (bind_inr _ _ _ _ _
               (applyStyleToSingleParagraph_effect d _ _ _ ps Hps)).
    set (d1 := {| paragraphs := js_set (paragraphs d) (paragraphIndex start) _ |}).
    unfold forRange.
    destruct (forLoop_restyleWhole
                (Z.to_nat (paragraphIndex end_ - (paragraphIndex start + 1)))
                (paragraphIndex start + 1) d1) as [d2 [Hd2 Hj2]]; [lia | |].
    { unfold d1. cbn [paragraphs]. rewrite zlength_js_set. lia. }
    rewrite (bind_inr _ _ _ _ _ Hd2).
    assert (Hpe2 : js_get (paragraphs d2) (paragraphIndex end_) = Some pe).
    { rewrite Hj2.
      destruct ((paragraphIndex start + 1 <=? paragraphIndex end_)
                && (paragraphIndex end_ <? _)) eqn:E;
        [zbool|].
      unfold d1. cbn [paragraphs]. rewrite js_get_set.
      destruct (paragraphIndex end_ =? paragraphIndex start) eqn:E2;
        [apply Z.eqb_eq in E2; lia | exact Hpe]. }
    rewrite (applyStyleToSingleParagraph_effect d2 _ _ _ pe Hpe2).
    eexists. split; [reflexivity|]. intros j. cbn [paragraphs].
    rewrite js_get_set, Hpe2, Hj2. unfold d1. cbn [paragraphs].
    rewrite js_get_set, Hps.
    destruct (j =? paragraphIndex start) eqn:Ejs.
    + apply Z.eqb_eq in Ejs. subst j.
      destruct (paragraphIndex start =? paragraphIndex end_) eqn:E1;
        [apply Z.eqb_eq in E1; lia|].
      destruct ((paragraphIndex start + 1 <=? paragraphIndex start) && _) eqn:E2;
        [zbool|].
      rewrite Hps. reflexivity.
    + apply Z.eqb_neq in Ejs.
      destruct (j =? paragraphIndex end_) eqn:Eje.
      * apply Z.eqb_eq in Eje. subst j. rewrite Hpe. cbn [option_map].
        destruct ((paragraphIndex start <? paragraphIndex end_)
                  && (paragraphIndex end_ <? paragraphIndex end_)) eqn:E3;
          [zbool | reflexivity].
      * apply Z.eqb_neq in Eje.
        destruct ((paragraphIndex start + 1 <=? j) && _) eqn:E2;
          destruct ((paragraphIndex start <? j) && (j <? paragraphIndex end_)) eqn:E3;
          try (destruct (js_get (paragraphs d) j); reflexivity);
          zbool.
Qed.

(** On anything else it throws and leaves the document alone. *)
Lemma applyStyle_invalid (d : Document) (start end_ : Position) :
  ~ validRange d start end_ ->
  exists e, applyStyle start end_ patch d = (inl e, d).
Proof.
  intros Hn. destruct (validateRange_fails d start end_ Hn) as [e [He _]].
  exists e. unfold applyStyle, bind. rewrite He. reflexivity.
Qed.

Lemma styledParagraph_text (start end_ : Position) (i : Z) (p : Paragraph) :
  text (styledParagraph patch start end_ i p) = text p.
Proof.
  unfold styledParagraph, restyleWhole, restyleRange.
  repeat match goal with |- context [if ?b then _ else _] => destruct b end;
    reflexivity.
Qed.
End ApplyStyle.

(** ** C10, C5, C7: the effect of [applyStyle] *)

Section ApplyStyleClaims.
Context {U : Unicode}.

Lemma applyStyle_outcome (d : Document) (start end_ : Position) (patch : TextStyle) :
  (validRange d start end_
   /\ exists d', applyStyle start end_ patch d = (inr tt, d')
                 /\ forall j, js_get (paragraphs d') j
                              = option_map (styledParagraph patch start end_ j)
                                  (js_get (paragraphs d) j))
  \/ (~ validRange d start end_
      /\ exists e, applyStyle start end_ patch d = (inl e, d)).
Proof.
  destruct (validRange_dec d start end_) as [Hv | Hn].
  - left. split; [exact Hv | apply applyStyle_valid; exact Hv].
  - right. split; [exact Hn | apply applyStyle_invalid; exact Hn].
Qed.

(** C10. [applyStyle] changes runs only, and only in the paragraphs from
    [start.paragraphIndex] to [end.paragraphIndex]: the number of
    paragraphs, the text and the layout hint of every paragraph stay as
    they were, and a paragraph outside that range of indices is the same
    paragraph as before. *)
Theorem applyStyle_frame (d : Document) (start end_ : Position) (patch : TextStyle) :
  let d' := snd (applyStyle start end_ patch d) in
  zlength (paragraphs d') = zlength (paragraphs d)
  /\ map text (paragraphs d') = map text (paragraphs d)
  /\ map yOffset (paragraphs d') = map yOffset (paragraphs d)
  /\ forall i, i < paragraphIndex start \/ paragraphIndex end_ < i ->
               js_get (paragraphs d') i = js_get (paragraphs d) i.
Proof.
  destruct (applyStyle_outcome d start end_ patch)
    as [[Hv [d1 [Hd1 Hj]]] | [_ [e He]]].
  - rewrite Hd1. cbn [snd]. repeat split.
    + apply js_get_length. intros j. rewrite Hj.
      destruct (js_get (paragraphs d) j); cbn; split; congruence.
    + apply js_get_ext. intros j. rewrite !js_get_map, Hj.
      destruct (js_get (paragraphs d) j) as [p|]; [|reflexivity].
      cbn [option_map]. rewrite styledParagraph_text. reflexivity.
    + apply js_get_ext. intros j. rewrite !js_get_map, Hj.
      destruct (js_get (paragraphs d) j) as [p|]; [|reflexivity].
      cbn [option_map]. f_equal. unfold styledParagraph, restyleWhole, restyleRange.
      repeat match goal with |- context [if ?b then _ else _] => destruct b end;
        reflexivity.
    + intros i Hi. rewrite Hj.
      destruct (js_get (paragraphs d) i) as [p|]; [|reflexivity].
      cbn [option_map]. f_equal.
      destruct Hv as [_ [_ Hord]]. unfold startAfterEnd in Hord.
      unfold styledParagraph.
      destruct (paragraphIndex start =? paragraphIndex end_) eqn:E0;
        destruct (i =? paragraphIndex start) eqn:E1;
        destruct ((paragraphIndex start <? i) && (i <? paragraphIndex end_)) eqn:E2;
        destruct (i =? paragraphIndex end_) eqn:E3; try reflexivity; zbool.
  - rewrite He. cbn [snd]. repeat split; reflexivity.
Qed.






(** What [noAdjacentEqual] says of two neighbours: their styles differ as
    lists of properties, in a field, in a value or in the order. *)
Lemma noAdjacentEqual_neighbours (rs : list Run) :
  noAdjacentEqual rs <->
  forall before r r' after, rs = before ++ r :: r' :: after -> style r <> style r'.
Proof.
  split.
  - intros H before. revert rs H.
    induction before as [|x before IH]; intros rs H r r' after ->.
    + cbn [app noAdjacentEqual] in H. destruct H as [H _]. intros E.
      apply areStylesEqual_eq in E. congruence.
    + refine (IH (before ++ r :: r' :: after) _ r r' after eq_refl).
      cbn [app] in H. destruct (before ++ r :: r' :: after) eqn:E.
      * destruct before; discriminate E.
      * exact (proj2 H).
  - induction rs as [|r rs IH]; intros H; [exact I|].
    destruct rs as [|r' rs]; [exact I|]. split.
    + destruct (areStylesEqual (style r) (style r')) eqn:E; [|reflexivity].
      apply areStylesEqual_eq in E. exfalso.
      exact (H [] r r' rs eq_refl E).
    + apply IH. intros before x x' after E.
      apply (H (r :: before) x x' after). rewrite E. reflexivity.
Qed.

Lemma validRange_same_texts (d d' : Document) (start end_ : Position) :
  (forall j, option_map text (js_get (paragraphs d') j)
             = option_map text (js_get (paragraphs d) j)) ->
  validRange d start end_ -> validRange d' start end_.
Proof.
  intros Ht [Hs [He Hord]].
  assert (Hpos : forall pos, validPosition d pos -> validPosition d' pos).
  { intros pos [p [Hp Ho]]. specialize (Ht (paragraphIndex pos)).
    rewrite Hp in Ht. cbn [option_map] in Ht.
    destruct (js_get (paragraphs d') (paragraphIndex pos)) as [p'|] eqn:Hp';
      [|discriminate].
    cbn [option_map] in Ht. injection Ht as Ht. exists p'. rewrite Ht.
    split; [exact Hp' | exact Ho]. }
  repeat split; auto.
Qed.

Lemma restyleRange_twice (patch : TextStyle) (s e : Z) (p : Paragraph) :
  positiveRuns (runs p) ->
  s < e \/ e <= 0 \/ sumLengths (runs p) <= s ->
  restyleRange patch s e (restyleRange patch s e p) = restyleRange patch s e p.
Proof.
  intros Hp H. unfold restyleRange, withRuns. cbn [runs text yOffset]. f_equal.
  destruct (Z_lt_dec s e) as [Hlt | Hge].
  - apply styledRuns_idempotent; assumption.
  - apply styledRuns_idempotent_outside; [apply positive_nonNegative; exact Hp | lia].
Qed.

(** Idempotence where no empty range can fall inside a run.  On a document
    that keeps I1 and I2 (in every paragraph the runs are non-empty and
    their lengths add up to the grapheme count), for every range whose start
    differs from its end and every patch, calling [applyStyle] a second time
    with the same arguments leaves the document as the first call left
    it. *)
Theorem applyStyle_idempotent (d : Document) (start end_ : Position)
    (patch : TextStyle) :
  ledgerInvariants d ->
  start <> end_ ->
  snd (applyStyle start end_ patch (snd (applyStyle start end_ patch d)))
  = snd (applyStyle start end_ patch d).
Proof.
  intros Hinv Hne.
  destruct (applyStyle_outcome d start end_ patch)
    as [[Hv [d1 [Hd1 Hj1]]] | [_ [e He]]].
  - rewrite Hd1. cbn [snd].
    assert (Hv1 : validRange d1 start end_).
    { apply (validRange_same_texts d); [|exact Hv]. intros j. rewrite Hj1.
      destruct (js_get (paragraphs d) j); [|reflexivity].
      cbn [option_map]. rewrite styledParagraph_text. reflexivity. }
    destruct (applyStyle_valid patch d1 start end_ Hv1) as [d2 [Hd2 Hj2]].
    rewrite Hd2. cbn [snd].
    destruct d1 as [ps1], d2 as [ps2]. cbn [paragraphs] in *. f_equal.
    apply js_get_ext. intros j. rewrite Hj2, Hj1.
    destruct (js_get (paragraphs d) j) as [p|] eqn:Hp; [|reflexivity].
    cbn [option_map]. f_equal.
    assert (Hl : ledgerInvariant p).
    { unfold ledgerInvariants in Hinv. rewrite Forall_forall in Hinv.
      apply Hinv. exact (js_get_In _ _ _ Hp). }
    destruct Hl as [Hpos Hsum].
    destruct Hv as [[ps [Hps Hso]] [[pe [Hpe Heo]] Hord]].
    unfold startAfterEnd in Hord.
    unfold styledParagraph, restyleWhole.
    destruct (paragraphIndex start =? paragraphIndex end_) eqn:E0.
    + destruct (j =? paragraphIndex start) eqn:E1; [|reflexivity].
      apply restyleRange_twice; [exact Hpos|]. left.
      assert (offset start <> offset end_).
      { intros Ho. apply Hne. destruct start, end_. cbn in *. f_equal; lia. }
      lia.
    + destruct (j =? paragraphIndex start) eqn:E1.
      * assert (p = ps) by (assert (j = paragraphIndex start) by lia; congruence).
        subst ps. unfold restyleRange at 2. cbn [text withRuns].
        apply restyleRange_twice; [exact Hpos | lia].
      * destruct ((paragraphIndex start <? j) && (j <? paragraphIndex end_)) eqn:E2.
        -- unfold restyleRange at 2. cbn [text withRuns].
           apply restyleRange_twice; [exact Hpos | lia].
        -- destruct (j =? paragraphIndex end_) eqn:E3; [|reflexivity].
           apply restyleRange_twice; [exact Hpos | lia].
  - rewrite He. cbn [snd]. rewrite He. reflexivity.
Qed.
End ApplyStyleClaims.

Lemma applyStyle_frame_example :
  js_get (paragraphs (snd (applyStyle (at_ 0 1) (at_ 0 2) (fontSize 20) twoParagraphs))) 1
  = js_get (paragraphs twoParagraphs) 1.
Proof.
  apply (applyStyle_frame twoParagraphs (at_ 0 1) (at_ 0 2) (fontSize 20)).
  right. cbn. lia.
Defined.



(** Styles that hold the same fields in different orders do not count as
    equal.  A patch of two fields, over a run that has the one and a run
    that has the other, leaves two neighbours with the same fields and the
    same values: the first lists [fontSize] first, the second
    [fontWeight]. *)
Lemma applyStyle_reordered_fields_stay_apart :
  let d' := snd (applyStyle (at_ 0 1) (at_ 0 3) boldLarge mixedFields) in
  map runs (paragraphs d')
  = [[run 1 (fontSize 16);
      run 1 [("fontSize"%string, JNum 20); ("fontWeight"%string, JNum 700)];
      run 1 [("fontWeight"%string, JNum 700); ("fontSize"%string, JNum 20)];
      run 1 bold]]
  /\ maximallyMerged d'.
Proof.
  split; [reflexivity|]. vm_compute. repeat constructor.
Qed.

(** C7, where the code departs from it.  The claim: a second [applyStyle]
    with the same arguments leaves the run structure that the first call
    left.  On the document that [insertText] leaves after typing "b" at the
    end of "a" in the style of its run, styling the empty range at offset 1
    first merges the two runs, and the second call then splits the merged
    run around a styled run of length 0. *)
Lemma applyStyle_twice_differs :
  let once := snd (applyStyle (at_ 0 1) (at_ 0 1) (fontSize 20) typedAtEnd) in
  let twice := snd (applyStyle (at_ 0 1) (at_ 0 1) (fontSize 20) once) in
  validRange typedAtEnd (at_ 0 1) (at_ 0 1)
  /\ map runs (paragraphs typedAtEnd) = [[run 1 (fontSize 16); run 1 (fontSize 16)]]
  /\ map runs (paragraphs once) = [[run 2 (fontSize 16)]]
  /\ map runs (paragraphs twice)
     = [[run 1 (fontSize 16); run 0 (fontSize 20); run 1 (fontSize 16)]]
  /\ twice <> once.
Proof.
  repeat split; try reflexivity;
    try (eexists; split; [reflexivity | vm_compute; split; discriminate]).
  discriminate.
Qed.

Lemma applyStyle_idempotent_example :
  snd (applyStyle (at_ 0 1) (at_ 1 1) (fontSize 20)
         (snd (applyStyle (at_ 0 1) (at_ 1 1) (fontSize 20) twoParagraphs)))
  = snd (applyStyle (at_ 0 1) (at_ 1 1) (fontSize 20) twoParagraphs).
Proof.
  apply (applyStyle_idempotent twoParagraphs (at_ 0 1) (at_ 1 1) (fontSize 20)).
  - repeat constructor; cbn; lia.
  - discriminate.
Defined.

(** ** C6: the run that holds an offset *)

Lemma sumLengths_nonNegative (rs : list Run) :
  nonNegativeRuns rs -> 0 <= sumLengths rs.
Proof.
  induction 1 as [|r rs Hr _ IH]; [cbn; lia|]. rewrite sumLengths_cons. lia.
Qed.

Lemma sumLengths_firstn_mono (rs : list Run) :
  nonNegativeRuns rs ->
  forall n m, (n <= m)%nat ->
              sumLengths (firstn n rs) <= sumLengths (firstn m rs).
Proof.
  induction 1 as [|r rs Hr Hrs IH]; intros n m Hnm.
  - rewrite !firstn_nil. lia.
  - destruct n as [|n], m as [|m]; cbn [firstn]; rewrite ?sumLengths_cons.
    + lia.
    + pose proof (IH 0%nat m ltac:(lia)) as H0. rewrite firstn_0 in H0.
      change (sumLengths []) with 0 in *. lia.
    + lia.
    + specialize (IH n m). lia.
Qed.

Section FindRun.
Context {U : Unicode}.

Lemma findRunLoop_spec (rs : list Run) :
  nonNegativeRuns rs ->
  forall i0 c off,
    c <= off ->
    (c + sumLengths rs <= off -> findRunLoop rs i0 c off = (-1, 0))
    /\ (off < c + sumLengths rs ->
        exists k, (k < List.length rs)%nat
                  /\ findRunLoop rs i0 c off
                     = (i0 + Z.of_nat k, off - (c + sumLengths (firstn k rs)))
                  /\ c + sumLengths (firstn k rs) <= off
                     < c + sumLengths (firstn (S k) rs)).
Proof.
  induction 1 as [|r rs Hr Hrs IH]; intros i0 c off Hc.
  - split; [reflexivity | cbn; lia].
  - rewrite sumLengths_cons. cbn [findRunLoop].
    destruct (c + length r >? off) eqn:E.
    + split; [pose proof (sumLengths_nonNegative rs Hrs); lia|]. intros _.
      exists 0%nat. cbn [firstn List.length]. rewrite sumLengths_cons.
      repeat split; try (cbn; lia). f_equal; cbn; lia.
    + destruct (IH (i0 + 1) (c + length r) off) as [IH1 IH2]; [lia|]. split.
      * intros Hle. apply IH1. lia.
      * intros Hlt. destruct IH2 as [k [Hk [Hf Hb]]]; [lia|].
        exists (S k). rewrite !firstn_cons, !sumLengths_cons. cbn [List.length].
        repeat split; try lia. rewrite Hf. f_equal; lia.
Qed.

Lemma findRunLoop_index (rs : list Run) :
  forall i0 c off i o,
    findRunLoop rs i0 c off = (i, o) ->
    i = -1 \/ exists k run, i = i0 + Z.of_nat k /\ nth_error rs k = Some run.
Proof.
  induction rs as [|r rs IH]; intros i0 c off i o H; cbn [findRunLoop] in H.
  - left. congruence.
  - destruct (c + length r >? off).
    + right. exists 0%nat, r. split; [injection H as <- _; lia | reflexivity].
    + destruct (IH _ _ _ _ _ H) as [Hm | [k [run [Hk Hrun]]]]; [left; exact Hm|].
      right. exists (S k), run. split; [lia | exact Hrun].
Qed.

(** The run index that [findRunAtOffset] returns is -1 or the index of a run
    of the paragraph: the callers that read [paragraph.runs[runIndex]] after
    the test against -1 always find a run. *)
Lemma findRunAtOffset_index (p : Paragraph) (off i o : Z) :
  findRunAtOffset p off = (i, o) ->
  i = -1 \/ exists run, js_get (runs p) i = Some run.
Proof.
  intros H. destruct (findRunLoop_index _ _ _ _ _ _ H) as [Hm | [k [run [Hk Hrun]]]];
    [left; exact Hm|].
  right. exists run. rewrite js_get_nth by lia.
  replace (Z.to_nat i) with k by lia. exact Hrun.
Qed.

(** C6. In a paragraph whose run lengths are not negative and add up to the
    grapheme count of its text, for an offset in [0, graphemeCount]:
    at the end of the paragraph [findRunAtOffset] returns the pair (-1, 0);
    before it, the index of the only run [i] with
    [cumulative i <= offset < cumulative (i + 1)], and the offset inside
    that run. *)
Theorem findRunAtOffset_boundary (p : Paragraph) (off : Z) :
  nonNegativeRuns (runs p) ->
  sumLengths (runs p) = getGraphemeCount (text p) ->
  0 <= off <= getGraphemeCount (text p) ->
  (off = getGraphemeCount (text p) -> findRunAtOffset p off = (-1, 0))
  /\ (off < getGraphemeCount (text p) ->
      exists i,
        findRunAtOffset p off = (i, off - cumulative (runs p) i)
        /\ 0 <= i < zlength (runs p)
        /\ cumulative (runs p) i <= off < cumulative (runs p) (i + 1)
        /\ forall j, 0 <= j < zlength (runs p) ->
                     cumulative (runs p) j <= off < cumulative (runs p) (j + 1) ->
                     j = i).
Proof.
  intros Hnn Hsum Hoff. unfold findRunAtOffset.
  destruct (findRunLoop_spec (runs p) Hnn 0 0 off) as [Hend Hin]; [lia|]. split.
  - intros ->. apply Hend. lia.
  - intros Hlt. destruct Hin as [k [Hk [Hf Hb]]]; [lia|].
    exists (Z.of_nat k). unfold cumulative, zlength.
    rewrite Nat2Z.id. replace (Z.to_nat (Z.of_nat k + 1)) with (S k) by lia.
    repeat split; try lia.
    + rewrite Hf. f_equal; lia.
    + intros j Hj Hcj.
      destruct (Z.lt_trichotomy j (Z.of_nat k)) as [Hjk | [Hjk | Hjk]]; [|exact Hjk|].
      * pose proof (sumLengths_firstn_mono (runs p) Hnn
                      (Z.to_nat (j + 1)) k ltac:(lia)). lia.
      * pose proof (sumLengths_firstn_mono (runs p) Hnn
                      (S k) (Z.to_nat j) ltac:(lia)). lia.
Qed.
End FindRun.

Lemma findRunAtOffset_boundary_example :
  findRunAtOffset (paragraph (latin "ab") [run 1 (fontSize 16); run 1 (fontSize 14)]) 2
  = (-1, 0).
Proof.
  apply (findRunAtOffset_boundary
           (paragraph (latin "ab") [run 1 (fontSize 16); run 1 (fontSize 14)]) 2).
  - repeat constructor; cbn; lia.
  - reflexivity.
  - cbn; lia.
  - reflexivity.
Defined.

(** ** C8: an emoji inserted in the middle of a run *)

Section EmojiInsertion.
Context {U : Unicode}.

(** C8.  The paragraph "First paragraph" has one run of length 15.  A
    two-code-unit emoji that is one grapheme cluster, inserted at grapheme
    offset 5 in a style that differs from the style of the run, leaves
    exactly three runs, of lengths 5, 1 and 10.  The hypotheses on the
    platform say what the Unicode rules give for these strings: the emoji is
    in NFC and is one cluster, and the texts before and after the insertion
    have 15 and 16 clusters. *)
Theorem insertText_emoji_splits_run (runStyle emojiStyle : TextStyle) :
  areStylesEqual runStyle emojiStyle = false ->
  normalizeNFC palette = palette ->
  getGraphemeCount palette = 1 ->
  getGraphemeCount (latin "First paragraph") = 15 ->
  getGraphemeCount (latin "First" ++ palette ++ latin " paragraph") = 16 ->
  insertText (at_ 0 5) palette emojiStyle
    {| paragraphs := [paragraph (latin "First paragraph") [run 15 runStyle]] |}
  = (inr tt,
     {| paragraphs :=
          [paragraph (latin "First" ++ palette ++ latin " paragraph")
             [run 5 runStyle; run 1 emojiStyle; run 10 runStyle]] |}).
Proof.
  intros Hstyle Hnfc Hone H15 H16.
  set (d := {| paragraphs := [paragraph (latin "First paragraph") [run 15 runStyle]] |}).
  assert (Hv : validPosition d (at_ 0 5)).
  { eexists. split; [reflexivity|]. cbn [text paragraph at_ offset].
    rewrite H15. lia. }
  unfold insertText. rewrite (bind_inr _ _ _ _ _ (validatePosition_ok d _ Hv)).
  rewrite Hnfc. change (includesNewline palette) with false. cbv iota.
  rewrite (bind_inr _ _ _ _ _ (getParagraph_ok d 0 _ eq_refl)).
  rewrite Hone.
  cbn [at_ offset paragraphIndex text paragraph withText runs yOffset].
  change (js_slice (latin "First paragraph") 0 (Some 5)) with (latin "First").
  change (js_slice (latin "First paragraph") 5 None) with (latin " paragraph").
  unfold findRunAtOffset.
  cbn [runs paragraph withText findRunLoop run length style Z.add Z.gtb Z.compare
         Pos.compare Pos.compare_cont Z.sub Z.opp Z.pos_sub Pos.pred_double
         Z.eqb insertTextIntoRun js_get Z.ltb Z.to_nat nth_error].
  rewrite Hstyle.
  cbn [runs paragraph withText withRuns text yOffset Z.gtb Z.ltb Z.compare
         Pos.compare Pos.compare_cont app].
  rewrite setParagraph_effect. unfold updateRunLengths.
  cbn [text runs withRuns withText paragraph yOffset]. rewrite H16. reflexivity.
Qed.
End EmojiInsertion.

Lemma insertText_emoji_splits_run_example :
  insertText (at_ 0 5) palette (fontSize 20) testDoc
  = (inr tt,
     {| paragraphs :=
          [paragraph (latin "First" ++ palette ++ latin " paragraph")
             [run 5 (fontSize 16); run 1 (fontSize 20); run 10 (fontSize 16)]] |}).
Proof.
  apply (insertText_emoji_splits_run (fontSize 16) (fontSize 20)); reflexivity.
Defined.

(** ** C9: slicing by grapheme indices *)

Lemma relativeIndex_range (len k : Z) :
  0 <= len -> 0 <= relativeIndex len k <= len.
Proof. intros H. unfold relativeIndex. destruct (k <? 0) eqn:E; lia. Qed.

Lemma zlength_nonneg {A} (l : list A) : 0 <= zlength l.
Proof. unfold zlength. lia. Qed.

Lemma concat_firstn_skipn {A} (l : list (list A)) (a b : nat) :
  (a <= b)%nat ->
  concat (firstn a l) ++ concat (firstn (b - a) (skipn a l)) ++ concat (skipn b l)
  = concat l.
Proof.
  intros Hab. rewrite <- !concat_app.
  replace (skipn b l) with (skipn (b - a) (skipn a l))
    by (rewrite skipn_skipn; f_equal; lia).
  rewrite firstn_skipn, firstn_skipn. reflexivity.
Qed.

Lemma concat_nil_sublist {A} (l : list (list A)) (n m : nat) :
  concat l = [] -> concat (firstn n (skipn m l)) = [].
Proof.
  intros H. rewrite <- (firstn_skipn m l), concat_app in H.
  apply app_eq_nil in H. destruct H as [_ H].
  rewrite <- (firstn_skipn n (skipn m l)), concat_app in H.
  apply app_eq_nil in H. tauto.
Qed.

Section Slicing.
Context {U : Unicode}.

(** C9, as the code has it.  [sliceTextByGraphemes] (and
    [sliceParagraphText]) never fails on a paragraph that exists.  A
    negative [start] or [end] counts back from the number of clusters and
    stops at 0, an index beyond the count stands for the count, and the
    result is empty when the start so obtained is not before the end; in
    particular non-negative indices are clamped to [0, count].  The result is
    the concatenation of the clusters between the two bounds: it is cut out
    of the text at cluster boundaries. *)
Theorem sliceTextByGraphemes_clamps (ps : list Paragraph) (index start : Z)
    (end_ : option Z) (p : Paragraph) :
  js_get ps index = Some p ->
  let clusters := segment (text p) in
  let count := getGraphemeCount (text p) in
  let a := sliceFrom count start in
  let b := sliceTo count end_ in
  let result := sliceTextByGraphemes ps index start end_ in
  result = concat (firstn (Z.to_nat (b - a)) (skipn (Z.to_nat a) clusters))
  /\ Part001.sliceParagraphText ps index start end_ = inr result
  /\ 0 <= a <= count /\ 0 <= b <= count
  /\ (0 <= start -> a = Z.min start count)
  /\ (forall e, end_ = Some e -> 0 <= e -> b = Z.min e count)
  /\ (b <= a -> result = [])
  /\ (a <= b ->
      text p = concat (firstn (Z.to_nat a) clusters) ++ result
               ++ concat (skipn (Z.to_nat b) clusters)).
Proof.
  intros Hp clusters count a b result.
  assert (Hres : result
                 = concat (firstn (Z.to_nat (b - a)) (skipn (Z.to_nat a) clusters))).
  { unfold result, sliceTextByGraphemes. rewrite Hp.
    destruct (text p) as [|c t] eqn:Ht.
    - symmetry. apply concat_nil_sublist. unfold clusters.
      apply segment_join.
    - unfold js_slice, a, b, sliceFrom, sliceTo, count, getGraphemeCount, clusters.
      destruct end_; reflexivity. }
  pose proof (zlength_nonneg clusters) as Hc.
  assert (Ha : 0 <= a <= count) by (apply relativeIndex_range; exact Hc).
  assert (Hb : 0 <= b <= count).
  { unfold b, sliceTo. destruct end_; [apply relativeIndex_range; exact Hc|].
    unfold count, getGraphemeCount. fold clusters. lia. }
  repeat split; try lia.
  - exact Hres.
  - unfold Part001.sliceParagraphText. rewrite Hp. f_equal. rewrite Hres.
    unfold js_slice, a, b, sliceFrom, sliceTo, count, getGraphemeCount, clusters.
    destruct end_; reflexivity.
  - intros Hs. unfold a, sliceFrom, relativeIndex.
    destruct (start <? 0) eqn:E; lia.
  - intros e -> He. unfold b, sliceTo, relativeIndex.
    destruct (e <? 0) eqn:E; lia.
  - intros Hba. rewrite Hres. replace (Z.to_nat (b - a)) with 0%nat by lia.
    reflexivity.
  - intros Hab. rewrite Hres. replace (Z.to_nat (b - a))
      with (Z.to_nat b - Z.to_nat a)%nat by lia.
    rewrite <- (segment_join (text p)) at 1. symmetry.
    apply concat_firstn_skipn. lia.
Qed.
End Slicing.

Lemma sliceTextByGraphemes_clamps_example :
  sliceTextByGraphemes (paragraphs spaced) 0 1 (Some 10) = latin " b".
Proof.
  destruct (sliceTextByGraphemes_clamps (paragraphs spaced) 0 1 (Some 10)
              (paragraph (latin "a b") [run 3 (fontSize 16)]) eq_refl)
    as [H _].
  rewrite H. reflexivity.
Defined.

(** The claim C9 as stated fails: with a negative start the method returns
    the last cluster, and with the start after the end the empty string; no
    call throws [InvalidRange] (the result type has no error). *)
Lemma sliceTextByGraphemes_negative_start :
  sliceTextByGraphemes (paragraphs spaced) 0 (-1) None = latin "b"
  /\ Part001.sliceParagraphText (paragraphs spaced) 0 (-1) None = inr (latin "b")
  /\ sliceTextByGraphemes (paragraphs spaced) 0 2 (Some 1) = []
  /\ Part001.sliceParagraphText (paragraphs spaced) 0 2 (Some 1) = inr [].
Proof. repeat split; reflexivity. Qed.

(** ** C3: the text that [copyText] extracts *)

Lemma zlength_map {A B} (f : A -> B) (l : list A) : zlength (map f l) = zlength l.
Proof. unfold zlength. rewrite length_map. reflexivity. Qed.

Lemma js_slice_map {A B} (f : A -> B) (l : list A) (a : Z) (b : option Z) :
  js_slice (map f l) a b = map f (js_slice l a b).
Proof.
  unfold js_slice. rewrite zlength_map, skipn_map, firstn_map. reflexivity.
Qed.

Lemma concat_singletons {A} (l : list A) : concat (map (fun c => [c]) l) = l.
Proof. induction l as [|x l IH]; [reflexivity|]. cbn. rewrite IH. reflexivity. Qed.

Lemma js_slice_to_length {A} (l : list A) (a : Z) :
  js_slice l a (Some (zlength l)) = js_slice l a None.
Proof.
  unfold js_slice, relativeIndex. pose proof (zlength_nonneg l).
  destruct (zlength l <? 0) eqn:E; [lia|]. rewrite Z.min_id. reflexivity.
Qed.

Section Copy.
Context {U : Unicode}.

Lemma singleUnit_count (t : jsstring) :
  singleUnitClusters t -> getGraphemeCount t = zlength t.
Proof. unfold getGraphemeCount. intros ->. apply zlength_map. Qed.

Lemma singleUnit_slice (ps : list Paragraph) (index a : Z) (b : option Z)
    (p : Paragraph) :
  js_get ps index = Some p -> singleUnitClusters (text p) ->
  sliceTextByGraphemes ps index a b = js_slice (text p) a b.
Proof.
  intros Hp Hs. unfold sliceTextByGraphemes. rewrite Hp.
  destruct (text p) as [|c t] eqn:Ht.
  - unfold js_slice. rewrite skipn_nil, firstn_nil. reflexivity.
  - rewrite Hs, js_slice_map. apply concat_singletons.
Qed.

Lemma extractTextRange_text (p : Paragraph) (s e : Z) :
  Clipboard.text (extractTextRange p s e) = trim (js_slice (text p) s (Some e)).
Proof.
  unfold extractTextRange.
  destruct (findRunAtOffset p s) as [startRunIndex o1].
  destruct (findRunAtOffset p e) as [endRunIndex o2].
  destruct (startRunIndex =? -1); reflexivity.
Qed.

Lemma extractParagraphContent_text (p : Paragraph) (s e : Z) :
  Clipboard.text (Part001.extractParagraphContent p s e)
  = trim (js_slice (text p) s (Some e)).
Proof.
  unfold Part001.extractParagraphContent.
  destruct (Part001.affectedRuns (runs p) 0 0 (-1) s e) as [startRunIndex endRunIndex].
  destruct (startRunIndex =? -1); reflexivity.
Qed.

Lemma copyText_valid (d : Document) (start end_ : Position) :
  validRange d start end_ ->
  exists clip,
    copyText start end_ d = (inr clip, d)
    /\ map Clipboard.text clip
       = if paragraphIndex start =? paragraphIndex end_
         then match js_get (paragraphs d) (paragraphIndex start) with
              | Some p => [trim (js_slice (text p) (offset start) (Some (offset end_)))]
              | None => []
              end
         else match js_get (paragraphs d) (paragraphIndex start),
                    js_get (paragraphs d) (paragraphIndex end_) with
              | Some p, Some q =>
                  trim (js_slice (text p) (offset start)
                          (Some (getGraphemeCount (text p))))
                  :: map text (js_slice (paragraphs d) (paragraphIndex start + 1)
                                 (Some (paragraphIndex end_)))
                  ++ [trim (js_slice (text q) 0 (Some (offset end_)))]
              | _, _ => []
              end.
Proof.
  intros Hv. pose proof Hv as [[p [Hp Hso]] [[q [Hq Heo]] Hord]].
  unfold copyText. rewrite (bind_inr _ _ _ _ _ (validateRange_ok d start end_ Hv)).
  destruct (paragraphIndex start =? paragraphIndex end_) eqn:E.
  - rewrite (bind_inr _ _ _ _ _ (getParagraph_ok d _ p Hp)).
    eexists. split; [reflexivity|]. rewrite Hp. cbn [map].
    rewrite extractTextRange_text. reflexivity.
  - rewrite (bind_inr _ _ _ _ _ (getParagraph_ok d _ p Hp)).
    unfold bind at 1. unfold getParagraphs.
    rewrite (bind_inr _ _ _ _ _ (getParagraph_ok d _ q Hq)).
    eexists. split; [reflexivity|]. rewrite Hp, Hq.
    cbn [map]. rewrite map_app, map_map. cbn [map].
    rewrite !extractTextRange_text. reflexivity.
Qed.

(** C3, as the code has it.  On a valid range over paragraphs whose grapheme
    clusters are single code units, the text of the first and of the last
    clipboard paragraph (of the only one, when the range lies in one
    paragraph) is the grapheme-range slice of the source paragraph with the
    white space at both ends trimmed away; a paragraph strictly between the
    two is copied whole.  The extraction of the second source,
    [extractParagraphContent], yields the same text as [extractTextRange]. *)
Theorem copyText_trims (d : Document) (start end_ : Position) :
  validRange d start end_ ->
  (forall p, js_get (paragraphs d) (paragraphIndex start) = Some p
             \/ js_get (paragraphs d) (paragraphIndex end_) = Some p ->
             singleUnitClusters (text p)) ->
  exists clip,
    copyText start end_ d = (inr clip, d)
    /\ map Clipboard.text clip = copiedTexts d start end_
    /\ forall p s e,
         Clipboard.text (Part001.extractParagraphContent p s e)
         = Clipboard.text (extractTextRange p s e).
Proof.
  intros Hv Hsingle. pose proof Hv as [[p [Hp Hso]] [[q [Hq Heo]] Hord]].
  destruct (copyText_valid d start end_ Hv) as [clip [Hclip Htexts]].
  exists clip. split; [exact Hclip|].
  split; [|intros p0 s e; rewrite extractTextRange_text;
           apply extractParagraphContent_text].
  rewrite Htexts. unfold copiedTexts.
  rewrite Hp, Hq.
  assert (Hsp : singleUnitClusters (text p)) by (apply Hsingle; left; exact Hp).
  assert (Hsq : singleUnitClusters (text q)) by (apply Hsingle; right; exact Hq).
  destruct (paragraphIndex start =? paragraphIndex end_) eqn:E.
  - rewrite (singleUnit_slice _ _ _ _ p Hp Hsp). reflexivity.
  - rewrite (singleUnit_slice _ _ _ _ p Hp Hsp), (singleUnit_slice _ _ _ _ q Hq Hsq).
    rewrite (singleUnit_count _ Hsp), js_slice_to_length. reflexivity.
Qed.
End Copy.

Lemma copyText_trims_example :
  exists clip,
    copyText (at_ 0 1) (at_ 1 1) twoParagraphs = (inr clip, twoParagraphs)
    /\ map Clipboard.text clip = [latin "b"; latin "c"]
    /\ forall p s e,
         Clipboard.text (Part001.extractParagraphContent p s e)
         = Clipboard.text (extractTextRange p s e).
Proof.
  assert (Hv : validRange twoParagraphs (at_ 0 1) (at_ 1 1))
    by (repeat split; try (eexists; split; [reflexivity | cbn; lia])).
  assert (Hs : forall p,
             js_get (paragraphs twoParagraphs) (paragraphIndex (at_ 0 1)) = Some p
             \/ js_get (paragraphs twoParagraphs) (paragraphIndex (at_ 1 1)) = Some p ->
             singleUnitClusters (text p))
    by (intros p [H | H]; injection H as <-; reflexivity).
  exact (copyText_trims twoParagraphs (at_ 0 1) (at_ 1 1) Hv Hs).
Defined.

(** The claim C3 as stated fails: the copy of the range [1, 3) of "a b" is
    "b", not the slice " b" of the paragraph; both sources of the extraction
    call [trim]. *)
Lemma copyText_drops_leading_space :
  fst (copyText (at_ 0 1) (at_ 0 3) spaced)
  = inr [{| Clipboard.text := latin "b"; Clipboard.runs := [run 2 (fontSize 16)] |}]
  /\ Clipboard.text
       (Part001.extractParagraphContent
          (paragraph (latin "a b") [run 3 (fontSize 16)]) 1 3)
     = latin "b"
  /\ sliceTextByGraphemes (paragraphs spaced) 0 1 (Some 3) = latin " b"
  /\ latin "b" <> latin " b".
Proof. repeat split; try reflexivity. discriminate. Qed.

(** ** C2: validation comes first *)

Section Validation.
Context {U : Unicode}.

Lemma validPosition_bounds (d : Document) (pos : Position) :
  validPosition d pos
  <-> 0 <= paragraphIndex pos < zlength (paragraphs d)
      /\ forall p, js_get (paragraphs d) (paragraphIndex pos) = Some p ->
                   0 <= offset pos <= getGraphemeCount (text p).
Proof.
  split.
  - intros [p [Hp Ho]]. split; [exact (js_get_Some_range _ _ _ Hp)|].
    intros p' Hp'. assert (p' = p) by congruence. subst p'. exact Ho.
  - intros [Hr Ho]. destruct (js_get_in_range _ _ Hr) as [p Hp].
    exists p. split; [exact Hp | exact (Ho p Hp)].
Qed.

Lemma insertText_valid (d : Document) (pos : Position) (txt : jsstring)
    (sty : TextStyle) :
  validPosition d pos -> exists d', insertText pos txt sty d = (inr tt, d').
Proof.
  intros Hv. pose proof Hv as [p [Hp Ho]].
  unfold insertText. rewrite (bind_inr _ _ _ _ _ (validatePosition_ok d pos Hv)).
  destruct (includesNewline (normalizeNFC txt)).
  - unfold insertTextWithNewlines. unfold bind at 1. unfold getParagraphs at 1.
    rewrite (bind_inr _ _ _ _ _ (getParagraph_ok d _ p Hp)).
    eexists. reflexivity.
  - rewrite (bind_inr _ _ _ _ _ (getParagraph_ok d _ p Hp)).
    destruct (findRunAtOffset _ _) as [runIndex offsetInRun].
    eexists. apply setParagraph_effect.
Qed.

Lemma deleteText_valid (d : Document) (start end_ : Position) :
  validRange d start end_ -> exists d', deleteText start end_ d = (inr tt, d').
Proof.
  intros Hv. pose proof Hv as [[p [Hp Hso]] [[q [Hq Heo]] Hord]].
  unfold deleteText. rewrite (bind_inr _ _ _ _ _ (validateRange_ok d start end_ Hv)).
  destruct (paragraphIndex start =? paragraphIndex end_).
  - unfold deleteWithinParagraph.
    rewrite (bind_inr _ _ _ _ _ (getParagraph_ok d _ p Hp)).
    eexists. apply setParagraph_effect.
  - unfold deleteAcrossParagraphs. unfold bind at 1. unfold getParagraphs at 1.
    rewrite (bind_inr _ _ _ _ _ (getParagraph_ok d _ p Hp)).
    rewrite (bind_inr _ _ _ _ _ (getParagraph_ok d _ q Hq)).
    eexists. reflexivity.
Qed.

Lemma validated_range {A} (body : Position -> Position -> M A) :
  (forall d start end_, validRange d start end_ ->
                        exists x d', body start end_ d = (inr x, d')) ->
  validatesRange (fun start end_ => validateRange start end_ ;; body start end_).
Proof.
  intros Hbody d start end_. repeat split.
  - intros Hn.
    destruct (validateRange_fails d start end_) as [e [He Hpe]].
    { intros [Hs [He _]]. tauto. }
    exists e. split; [apply bind_inl; exact He | tauto].
  - intros Hs He Hord.
    destruct (validateRange_fails d start end_) as [e [Hfail Hpe]].
    { intros [_ [_ H]]. congruence. }
    rewrite (bind_inl _ _ _ _ _ Hfail). f_equal. f_equal.
    unfold validateRange in Hfail.
    rewrite (bind_inr _ _ _ _ _ (validatePosition_ok d start Hs)) in Hfail.
    rewrite (bind_inr _ _ _ _ _ (validatePosition_ok d end_ He)) in Hfail.
    rewrite Hord in Hfail. unfold throw in Hfail. congruence.
  - intros e d' Hfail. destruct (validRange_dec d start end_) as [Hv | Hn].
    + destruct (Hbody d start end_ Hv) as [x [d1 Hx]].
      rewrite (bind_inr _ _ _ _ _ (validateRange_ok d start end_ Hv)) in Hfail.
      congruence.
    + destruct (validateRange_fails d start end_ Hn) as [e' [He' _]].
      rewrite (bind_inl _ _ _ _ _ He') in Hfail. congruence.
Qed.

(** X23.  The four public methods of [DocumentModel.ts] validate their
    positions before they write: [insertText] fails on a paragraph index
    outside [0, paragraphCount) or an offset outside [0, graphemeCount];
    [deleteText], [applyStyle] and [copyText] fail on such a position and,
    when both positions are in range, on a start after the end; and when any
    of them fails the document is the one it was called on. *)
Theorem methods_validate_first :
  (forall txt sty, validatesPosition (fun pos => insertText pos txt sty))
  /\ validatesRange deleteText
  /\ (forall patch, validatesRange (fun start end_ => applyStyle start end_ patch))
  /\ validatesRange copyText.
Proof.
  split; [|split; [|split]].
  - intros txt sty d pos. split.
    + intros Hn. destruct (validatePosition_fails d pos Hn) as [e [He Hpe]].
      exists e. split; [|exact Hpe]. unfold insertText. apply bind_inl. exact He.
    + intros e d' Hfail. destruct (validPosition_dec d pos) as [Hv | Hn].
      * destruct (insertText_valid d pos txt sty Hv) as [d1 Hd1]. congruence.
      * destruct (validatePosition_fails d pos Hn) as [e' [He' _]].
        unfold insertText in Hfail. rewrite (bind_inl _ _ _ _ _ He') in Hfail.
        congruence.
  - apply (validated_range
             (fun start end_ =>
                if paragraphIndex start =? paragraphIndex end_
                then deleteWithinParagraph (paragraphIndex start) (offset start)
                       (offset end_)
                else deleteAcrossParagraphs start end_)).
    intros d s e Hv. destruct (deleteText_valid d s e Hv) as [d1 Hd1].
    exists tt, d1. unfold deleteText in Hd1.
    rewrite (bind_inr _ _ _ _ _ (validateRange_ok d s e Hv)) in Hd1. exact Hd1.
  - intros patch.
    apply (validated_range
             (fun start end_ =>
                if paragraphIndex start =? paragraphIndex end_
                then applyStyleToSingleParagraph (paragraphIndex start)
                       (offset start) (offset end_) patch
                else applyStyleAcrossParagraphs start end_ patch)).
    intros d s e Hv. destruct (applyStyle_valid patch d s e Hv) as [d1 [Hd1 _]].
    exists tt, d1. unfold applyStyle in Hd1.
    rewrite (bind_inr _ _ _ _ _ (validateRange_ok d s e Hv)) in Hd1. exact Hd1.
  - apply (validated_range
             (fun start end_ =>
                if paragraphIndex start =? paragraphIndex end_
                then (paragraph <- getParagraph (paragraphIndex start) ;;
                      ret [extractTextRange paragraph (offset start) (offset end_)])
                else (firstParagraph <- getParagraph (paragraphIndex start) ;;
                      ps <- getParagraphs ;;
                      lastParagraph <- getParagraph (paragraphIndex end_) ;;
                      ret (extractTextRange firstParagraph (offset start)
                             (getGraphemeCount (text firstParagraph))
                           :: map wholeParagraph
                                (js_slice ps (paragraphIndex start + 1)
                                   (Some (paragraphIndex end_)))
                           ++ [extractTextRange lastParagraph 0 (offset end_)])))).
    intros d s e Hv. destruct (copyText_valid d s e Hv) as [clip [Hclip _]].
    exists clip, d. unfold copyText in Hclip.
    rewrite (bind_inr _ _ _ _ _ (validateRange_ok d s e Hv)) in Hclip. exact Hclip.
Qed.
End Validation.

Lemma deleteText_inverted_range_example :
  deleteText (at_ 1 0) (at_ 0 0) twoParagraphs = (inl InvalidRange, twoParagraphs).
Proof.
  apply (proj1 (proj2 methods_validate_first) twoParagraphs (at_ 1 0) (at_ 0 0)).
  - eexists. split; [reflexivity | cbn; lia].
  - eexists. split; [reflexivity | cbn; lia].
  - reflexivity.
Defined.

(** C2, where the code departs from it.  The claim: every public operation
    fails on a position out of range before it writes.  [pasteText] reads
    the paragraph at the index and slices its text at the offset without a
    check of either.  On the document of the insertion tests, whose
    paragraph has 15 grapheme clusters, a paste at the offset 99 returns
    normally: the pasted text stands at the end of the paragraph and the
    pasted run behind its run.  The other four methods start with
    [validatePosition], and so does the [pasteText] that [DocumentModel.ts]
    keeps in a comment. *)
Lemma pasteText_skips_validation :
  ~ validPosition testDoc (at_ 0 99)
  /\ Part001.pasteText (at_ 0 99) [pastedEntry] testDoc
     = (inr tt,
        {| paragraphs :=
             [paragraph (latin "First paragraphXY")
                [run 15 (fontSize 16); run 2 (fontSize 20)]] |}).
Proof.
  split; [|reflexivity].
  intros [p [Hp [_ Ho]]]. cbn in Hp. injection Hp as <-.
  vm_compute in Ho. apply Ho. reflexivity.
Qed.

(** ** C1: the ledger after a mutation *)

(** C1, where the code departs from it.  The claim: after every public
    operation, in every paragraph, the run lengths add up to the grapheme
    count of the text and no run has length 0.  On the input of the
    repository's test "should handle multi-paragraph text insertion" the
    method returns early for a text with line breaks and never brings the
    runs of the edited paragraph back in line with its text, which
    [updateRunLengths] does on the other path: the first paragraph ends with
    11 grapheme clusters and runs of total length 15.  A line break typed at
    the end of a paragraph creates a paragraph with an empty text and a run
    of length 0. *)
Lemma insertText_with_newlines_breaks_ledger :
  let txt := latin " split" ++ [newline] ++ latin "New paragraph" ++ [newline]
             ++ latin "Third" in
  let d' := snd (insertText (at_ 0 5) txt (fontSize 16) testDoc) in
  let d'' := snd (insertText (at_ 0 15) [newline] (fontSize 16) testDoc) in
  ledgerInvariants testDoc
  /\ map text (paragraphs d')
     = [latin "First split"; latin "New paragraph"; latin "Third paragraph"]
  /\ map runs (paragraphs d')
     = [[run 5 (fontSize 16); run 10 (fontSize 16)];
        [run 13 (fontSize 16)]; [run 15 (fontSize 16)]]
  /\ ~ ledgerInvariants d'
  /\ map text (paragraphs d'') = [latin "First paragraph"; []]
  /\ map runs (paragraphs d'') = [[run 15 (fontSize 16)]; [run 0 (fontSize 16)]]
  /\ ~ ledgerInvariants d''.
Proof.
  repeat split; try reflexivity.
  - repeat constructor.
  - intros H. inversion H as [|? ? [_ Hsum] _]; subst. discriminate Hsum.
  - intros H. inversion H as [|? ? _ H']; subst.
    inversion H' as [|? ? [Hpos _] _]; subst.
    inversion Hpos as [|? ? Hlen _]; subst. discriminate Hlen.
Qed.

(** ** C4: copy, delete, paste *)

Lemma zlength_app {A} (l l' : list A) : zlength (l ++ l') = zlength l + zlength l'.
Proof. unfold zlength. rewrite length_app. lia. Qed.

Lemma zlength_cons {A} (x : A) (l : list A) : zlength (x :: l) = 1 + zlength l.
Proof. unfold zlength. cbn [List.length]. lia. Qed.

Lemma zlength_nil {A} : zlength (@nil A) = 0.
Proof. reflexivity. Qed.

Ltac zlen :=
  repeat first [rewrite zlength_app | rewrite zlength_cons | rewrite zlength_nil];
  lia.

(** An array seen as a prefix, a middle part and a suffix. *)
Lemma js_slice_parts {A} (P M S : list A) :
  js_slice (P ++ M ++ S) (zlength P) (Some (zlength P + zlength M)) = M.
Proof.
  unfold js_slice, relativeIndex. rewrite !zlength_app.
  pose proof (zlength_nonneg P). pose proof (zlength_nonneg M).
  pose proof (zlength_nonneg S).
  destruct (zlength P <? 0) eqn:E1; [lia|].
  destruct (zlength P + zlength M <? 0) eqn:E2; [lia|].
  rewrite !Z.min_l by lia.
  replace (Z.to_nat (zlength P)) with (List.length P) by (unfold zlength; lia).
  replace (Z.to_nat (zlength P + zlength M - zlength P)) with (List.length M)
    by (unfold zlength; lia).
  rewrite skipn_app, skipn_all, Nat.sub_diag. cbn [skipn app].
  rewrite firstn_app, firstn_all, Nat.sub_diag. cbn [firstn]. apply app_nil_r.
Qed.

Lemma js_slice_suffix {A} (P S : list A) : js_slice (P ++ S) (zlength P) None = S.
Proof.
  rewrite <- js_slice_to_length, zlength_app.
  rewrite <- (app_nil_r S) at 1. apply js_slice_parts.
Qed.

Lemma js_slice_prefix {A} (P S : list A) :
  js_slice (P ++ S) 0 (Some (zlength P)) = P.
Proof.
  change (P ++ S) with ([] ++ P ++ S). apply (js_slice_parts [] P S).
Qed.

Lemma js_splice_parts {A} (P M S items : list A) :
  js_splice (P ++ M ++ S) (zlength P) (Some (zlength M)) items = P ++ items ++ S.
Proof.
  unfold js_splice, relativeIndex. rewrite !zlength_app.
  pose proof (zlength_nonneg P). pose proof (zlength_nonneg M).
  pose proof (zlength_nonneg S).
  destruct (zlength P <? 0) eqn:E1; [lia|].
  rewrite (Z.min_l (zlength P)) by lia.
  replace (Z.min (Z.max (zlength M) 0) (zlength P + (zlength M + zlength S) - zlength P))
    with (zlength M) by lia.
  replace (Z.to_nat (zlength P)) with (List.length P) by (unfold zlength; lia).
  replace (Z.to_nat (zlength P + zlength M)) with (List.length P + List.length M)%nat
    by (unfold zlength; lia).
  rewrite firstn_app, firstn_all, Nat.sub_diag. cbn [firstn]. rewrite app_nil_r.
  rewrite skipn_app, skipn_all2 by lia.
  replace (List.length P + List.length M - List.length P)%nat with (List.length M) by lia.
  rewrite skipn_app, skipn_all, Nat.sub_diag. reflexivity.
Qed.

Lemma js_get_middle {A} (P S : list A) (x : A) :
  js_get (P ++ x :: S) (zlength P) = Some x.
Proof.
  rewrite js_get_nth by apply zlength_nonneg.
  replace (Z.to_nat (zlength P)) with (List.length P) by (unfold zlength; lia).
  rewrite nth_error_app2, Nat.sub_diag by lia. reflexivity.
Qed.

Lemma js_set_middle {A} (P S : list A) (x y : A) :
  js_set (P ++ x :: S) (zlength P) y = P ++ y :: S.
Proof.
  unfold js_set. pose proof (zlength_nonneg P).
  destruct (zlength P <? 0) eqn:E; [lia|].
  replace (Z.to_nat (zlength P)) with (List.length P) by (unfold zlength; lia).
  clear. induction P as [|z P IH]; [reflexivity|].
  cbn [app List.length set_nth]. rewrite IH. reflexivity.
Qed.

Lemma js_get_split {A} (l : list A) (i : Z) (x : A) :
  js_get l i = Some x -> exists P S, l = P ++ x :: S /\ zlength P = i.
Proof.
  intros H. pose proof (js_get_Some_range _ _ _ H) as Hr.
  rewrite js_get_nth in H by lia. apply nth_error_split in H.
  destruct H as [P [S [Hl Hlen]]]. exists P, S. split; [exact Hl|].
  unfold zlength. lia.
Qed.

Lemma js_get_split2 {A} (l : list A) (i j : Z) (x y : A) :
  js_get l i = Some x -> js_get l j = Some y -> i < j ->
  exists P B S, l = P ++ x :: B ++ y :: S /\ zlength P = i /\ zlength B = j - i - 1.
Proof.
  intros Hi Hj Hij. destruct (js_get_split l i x Hi) as [P [R [Hl HP]]].
  subst l. pose proof (js_get_Some_range _ _ _ Hj) as Hr.
  rewrite js_get_nth in Hj by lia.
  rewrite nth_error_app2 in Hj by (unfold zlength in HP; lia).
  destruct (Z.to_nat j - List.length P)%nat as [|n] eqn:En;
    [unfold zlength in HP; lia|].
  cbn [nth_error] in Hj. apply nth_error_split in Hj.
  destruct Hj as [B [S [HR HB]]]. exists P, B, S. subst R.
  repeat split; [exact HP|]. unfold zlength in *. lia.
Qed.

Lemma list_split3 {A} (l : list A) (a b : Z) :
  0 <= a <= b -> b <= zlength l ->
  exists P M S, l = P ++ M ++ S /\ zlength P = a /\ zlength M = b - a.
Proof.
  intros Hab Hb. unfold zlength in *.
  exists (firstn (Z.to_nat a) l),
         (firstn (Z.to_nat (b - a)) (skipn (Z.to_nat a) l)),
         (skipn (Z.to_nat (b - a)) (skipn (Z.to_nat a) l)).
  repeat split.
  - rewrite firstn_skipn, firstn_skipn. reflexivity.
  - rewrite length_firstn. lia.
  - rewrite length_firstn, length_skipn. lia.
Qed.

Ltac case_all :=
  repeat match goal with
         | |- context [match ?x with _ => _ end] => destruct x
         end.

Section RoundTrip.
Context {U : Unicode}.

Lemma text_updateRunsAfterDeletion (p : Paragraph) (a n : Z) :
  text (updateRunsAfterDeletion p a n) = text p.
Proof. unfold updateRunsAfterDeletion. case_all; reflexivity. Qed.

Lemma text_updateRunsAfterMultiParagraphDeletion (p q : Paragraph) (a b : Z) :
  text (updateRunsAfterMultiParagraphDeletion p a q b) = text p.
Proof. unfold updateRunsAfterMultiParagraphDeletion. case_all; reflexivity. Qed.

Lemma text_insertRunsAtOffset (p : Paragraph) (o : Z) (rs : list Run) :
  text (Part001.insertRunsAtOffset p o rs) = text p.
Proof. unfold Part001.insertRunsAtOffset. case_all; reflexivity. Qed.

Lemma text_updateRunsForSplit (p : Paragraph) (o : Z) :
  text (Part001.updateRunsForSplit p o) = text p.
Proof. unfold Part001.updateRunsForSplit. case_all; reflexivity. Qed.

Lemma singleUnit_segment_slice (t : jsstring) (a : Z) (b : option Z) :
  singleUnitClusters t -> concat (js_slice (segment t) a b) = js_slice t a b.
Proof. intros ->. rewrite js_slice_map. apply concat_singletons. Qed.

Lemma roundTrip_same_paragraph (A C : list Paragraph) (p : Paragraph)
    (P M S : jsstring) (start end_ : Position) :
  text p = P ++ M ++ S ->
  singleUnitClusters (text p) ->
  trim M = M ->
  paragraphIndex start = zlength A -> paragraphIndex end_ = zlength A ->
  offset start = zlength P -> offset end_ = zlength P + zlength M ->
  exists d2,
    copyDeletePaste start end_ {| paragraphs := A ++ p :: C |} = (inr tt, d2)
    /\ map text (paragraphs d2) = map text (A ++ p :: C).
Proof.
  intros Ht Hsingle Htrim Hsp Hep Hso Heo.
  set (d := {| paragraphs := A ++ p :: C |}).
  assert (Hp : js_get (paragraphs d) (paragraphIndex start) = Some p)
    by (rewrite Hsp; apply js_get_middle).
  assert (Hg : getGraphemeCount (text p) = zlength P + zlength M + zlength S)
    by (rewrite (singleUnit_count _ Hsingle), Ht, !zlength_app; lia).
  pose proof (zlength_nonneg P). pose proof (zlength_nonneg M).
  pose proof (zlength_nonneg S).
  assert (Hv : validRange d start end_).
  { repeat split.
    - exists p. split; [exact Hp | lia].
    - exists p. split; [rewrite Hep, <- Hsp; exact Hp | lia].
    - unfold startAfterEnd. lia. }
  destruct (copyText_valid d start end_ Hv) as [clip [Hclip Htexts]].
  assert (Esame : (paragraphIndex start =? paragraphIndex end_) = true) by lia.
  rewrite Esame, Hp in Htexts.
  assert (HM : js_slice (text p) (offset start) (Some (offset end_)) = M)
    by (rewrite Ht, Hso, Heo; apply js_slice_parts).
  rewrite HM, Htrim in Htexts.
  destruct clip as [|entry [|? ?]]; try discriminate Htexts.
  cbn [map] in Htexts. injection Htexts as Hentry.
  assert (Hdel : exists p1,
             deleteText start end_ d = (inr tt, {| paragraphs := A ++ p1 :: C |})
             /\ text p1 = P ++ S).
  { unfold deleteText.
    rewrite (bind_inr _ _ _ _ _ (validateRange_ok d start end_ Hv)).
    rewrite Esame. unfold deleteWithinParagraph.
    rewrite (bind_inr _ _ _ _ _ (getParagraph_ok d _ p Hp)).
    rewrite setParagraph_effect. eexists. split.
    - unfold d. cbn [paragraphs]. rewrite Hsp, js_set_middle. reflexivity.
    - unfold updateRunLengths. cbn [text withRuns].
      rewrite text_updateRunsAfterDeletion. cbn [text withText].
      rewrite !(singleUnit_segment_slice _ _ _ Hsingle).
      replace (Z.max 0 (offset start)) with (zlength P) by lia.
      replace (Z.min (zlength (segment (text p))) (offset end_))
        with (zlength (P ++ M))
        by (fold (getGraphemeCount (text p)); rewrite zlength_app; lia).
      rewrite Ht, js_slice_prefix, app_assoc, js_slice_suffix. reflexivity. }
  destruct Hdel as [p1 [Hdel Hp1]].
  unfold copyDeletePaste. rewrite (bind_inr _ _ _ _ _ Hclip).
  rewrite (bind_inr _ _ _ _ _ Hdel).
  unfold Part001.pasteText.
  assert (Hget : getParagraph (zlength A) {| paragraphs := A ++ p1 :: C |}
                 = (inr p1, {| paragraphs := A ++ p1 :: C |}))
    by (apply getParagraph_ok; apply js_get_middle).
  rewrite <- Hsp in Hget. rewrite (bind_inr _ _ _ _ _ Hget).
  rewrite setParagraph_effect. eexists. split; [reflexivity|].
  cbn [paragraphs]. rewrite Hsp, js_set_middle, !map_app. cbn [map].
  rewrite text_insertRunsAtOffset. cbn [text withText].
  rewrite Hp1, Hso, js_slice_prefix, js_slice_suffix, Hentry, Ht. reflexivity.
Qed.

Lemma roundTrip_across_paragraphs (A B C : list Paragraph) (p q : Paragraph)
    (P Sp Q Sq : jsstring) (start end_ : Position) :
  text p = P ++ Sp -> text q = Q ++ Sq ->
  singleUnitClusters (text p) -> singleUnitClusters (text q) ->
  trim Sp = Sp -> trim Q = Q ->
  paragraphIndex start = zlength A ->
  paragraphIndex end_ = zlength A + 1 + zlength B ->
  offset start = zlength P -> offset end_ = zlength Q ->
  exists d2,
    copyDeletePaste start end_ {| paragraphs := A ++ p :: B ++ q :: C |}
    = (inr tt, d2)
    /\ map text (paragraphs d2) = map text (A ++ p :: B ++ q :: C).
Proof.
  intros Htp Htq Hsp1 Hsq1 HtrimS HtrimQ Hsp Hep Hso Heo.
  set (ps := A ++ p :: B ++ q :: C). set (d := {| paragraphs := ps |}).
  pose proof (zlength_nonneg A). pose proof (zlength_nonneg B).
  pose proof (zlength_nonneg P). pose proof (zlength_nonneg Sp).
  pose proof (zlength_nonneg Q). pose proof (zlength_nonneg Sq).
  assert (Hps1 : ps = (A ++ [p]) ++ B ++ q :: C)
    by (unfold ps; rewrite <- app_assoc; reflexivity).
  assert (Hps2 : ps = (A ++ p :: B) ++ q :: C)
    by (unfold ps; rewrite <- app_assoc; reflexivity).
  assert (HlenAp : zlength (A ++ [p]) = zlength A + 1)
    by zlen.
  assert (HlenApB : zlength (A ++ p :: B) = zlength A + 1 + zlength B)
    by zlen.
  assert (Hp : js_get (paragraphs d) (paragraphIndex start) = Some p)
    by (rewrite Hsp; apply js_get_middle).
  assert (Hq : js_get (paragraphs d) (paragraphIndex end_) = Some q).
  { cbn [paragraphs d]. rewrite Hps2, Hep, <- HlenApB. apply js_get_middle. }
  assert (Hgp : getGraphemeCount (text p) = zlength (text p))
    by (apply singleUnit_count; exact Hsp1).
  assert (Hgq : getGraphemeCount (text q) = zlength (text q))
    by (apply singleUnit_count; exact Hsq1).
  assert (Hv : validRange d start end_).
  { repeat split.
    - exists p. split; [exact Hp | rewrite Hgp, Htp, zlength_app; lia].
    - exists q. split; [exact Hq | rewrite Hgq, Htq, zlength_app; lia].
    - unfold startAfterEnd. lia. }
  assert (Esame : (paragraphIndex start =? paragraphIndex end_) = false) by lia.
  (* the copy *)
  destruct (copyText_valid d start end_ Hv) as [clip [Hclip Htexts]].
  rewrite Esame, Hp, Hq in Htexts.
  rewrite Hgp, js_slice_to_length, Htp, Hso, js_slice_suffix, HtrimS in Htexts.
  rewrite Htq, Heo, js_slice_prefix, HtrimQ in Htexts.
  assert (HB : js_slice (paragraphs d) (paragraphIndex start + 1)
                 (Some (paragraphIndex end_)) = B).
  { cbn [paragraphs d]. rewrite Hps1, Hsp, Hep, <- HlenAp.
    apply (js_slice_parts (A ++ [p]) B (q :: C)). }
  rewrite HB in Htexts.
  apply map_eq_cons in Htexts. destruct Htexts as [e0 [rest [-> [He0 Hrest]]]].
  apply map_eq_app in Hrest. destruct Hrest as [mids [lasts [-> [Hmids Hlast]]]].
  destruct lasts as [|el [|? ?]]; try discriminate Hlast.
  cbn [map] in Hlast. injection Hlast as Hel.
  (* the deletion *)
  assert (Hdel : exists p1,
             deleteText start end_ d = (inr tt, {| paragraphs := A ++ p1 :: C |})
             /\ text p1 = P ++ Sq).
  { unfold deleteText.
    rewrite (bind_inr _ _ _ _ _ (validateRange_ok d start end_ Hv)).
    rewrite Esame. unfold deleteAcrossParagraphs.
    rewrite (bind_inr _ _ _ _ _ (eq_refl : getParagraphs d = (inr ps, d))).
    rewrite (bind_inr _ _ _ _ _ (getParagraph_ok d _ p Hp)).
    rewrite (bind_inr _ _ _ _ _ (getParagraph_ok d _ q Hq)).
    set (p' := withText p _).
    rewrite (bind_inr _ _ _ _ _
               (eq_refl : setParagraphs
                            (js_splice (js_set ps (paragraphIndex start) p')
                               (paragraphIndex start + 1)
                               (Some (paragraphIndex end_ - paragraphIndex start)) [])
                            d = (inr tt, {| paragraphs := _ |}))).
    rewrite setParagraph_effect. eexists. split.
    - cbn [paragraphs]. f_equal. unfold ps. rewrite Hsp, js_set_middle.
      replace (A ++ p' :: B ++ q :: C) with ((A ++ [p']) ++ (B ++ [q]) ++ C)
        by (rewrite <- !app_assoc; reflexivity).
      replace (zlength A + 1) with (zlength (A ++ [p']))
        by zlen.
      replace (paragraphIndex end_ - zlength A) with (zlength (B ++ [q]))
        by zlen.
      rewrite js_splice_parts. cbn [app]. rewrite <- app_assoc. cbn [app].
      rewrite js_set_middle. reflexivity.
    - unfold updateRunLengths. cbn [text withRuns].
      rewrite text_updateRunsAfterMultiParagraphDeletion. unfold p'.
      cbn [text withText].
      rewrite (singleUnit_slice _ _ _ _ p Hp Hsp1), (singleUnit_slice _ _ _ _ q Hq Hsq1).
      rewrite Htp, Htq, Hso, Heo, js_slice_prefix, js_slice_suffix. reflexivity. }
  destruct Hdel as [p1 [Hdel Hp1]].
  unfold copyDeletePaste. rewrite (bind_inr _ _ _ _ _ Hclip).
  rewrite (bind_inr _ _ _ _ _ Hdel).
  (* the paste *)
  set (d1 := {| paragraphs := A ++ p1 :: C |}).
  assert (Hget : getParagraph (paragraphIndex start) d1 = (inr p1, d1))
    by (apply getParagraph_ok; rewrite Hsp; apply js_get_middle).
  unfold Part001.pasteText.
  destruct (mids ++ [el]) as [|e1 rest'] eqn:Hrest;
    [apply app_eq_nil in Hrest; destruct Hrest; discriminate|].
  rewrite (bind_inr _ _ _ _ _ Hget).
  rewrite (bind_inr _ _ _ _ _ (setParagraph_effect d1 _ _)).
  set (cur := Part001.updateRunsForPaste _ _ _).
  rewrite (bind_inr _ _ _ _ _
             (eq_refl : getParagraphs {| paragraphs := js_set (paragraphs d1)
                                                       (paragraphIndex start) cur |}
                        = (inr _, _))).
  rewrite <- Hrest.
  eexists. split; [reflexivity|]. cbn [paragraphs d1].
  rewrite Hsp, js_set_middle.
  replace (A ++ cur :: C) with ((A ++ [cur]) ++ [] ++ C)
    by (rewrite <- app_assoc; reflexivity).
  replace (zlength A + 1) with (zlength (A ++ [cur]))
    by zlen.
  rewrite (js_splice_parts (A ++ [cur]) [] C).
  replace (zlength (e0 :: mids ++ [el]) - 1) with (zlength [e0] + zlength mids)
    by zlen.
  change (js_slice (e0 :: mids ++ [el]) 1 (Some (zlength [e0] + zlength mids)))
    with (js_slice ([e0] ++ mids ++ [el]) (zlength [e0])
            (Some (zlength [e0] + zlength mids))).
  rewrite (js_slice_parts [e0] mids [el]).
  rewrite app_comm_cons, last_last.
  unfold ps. rewrite !map_app. cbn [map app]. rewrite !map_app. cbn [map text].
  rewrite map_map. cbn [Part001.pastedParagraph text].
  rewrite <- !app_assoc. cbn [app]. f_equal. f_equal.
  - unfold cur, Part001.updateRunsForPaste.
    rewrite text_insertRunsAtOffset, text_updateRunsForSplit. cbn [text withText].
    rewrite Hp1, Hso, js_slice_prefix, He0, Htp. reflexivity.
  - change (fun x : Clipboard.Entry => Clipboard.text x) with Clipboard.text.
    rewrite Hmids. f_equal. f_equal.
    rewrite Hp1, Hso, js_slice_suffix, Hel, Htq. reflexivity.
Qed.

Lemma list_split2 {A} (l : list A) (a : Z) :
  0 <= a <= zlength l -> exists P S, l = P ++ S /\ zlength P = a.
Proof.
  intros Ha. unfold zlength in *.
  exists (firstn (Z.to_nat a) l), (skipn (Z.to_nat a) l). split.
  - rewrite firstn_skipn. reflexivity.
  - rewrite length_firstn. lia.
Qed.

(** C4, as the code has it.  On a valid range over paragraphs whose grapheme
    clusters are single code units, when the copied part of the first and of
    the last paragraph neither begins nor ends with white space, the calls
    [copyText(a, b)], [deleteText(a, b)] and [pasteText(a, clipboard)] all
    return and leave a document with the same paragraph texts as before.
    (Nothing is said of the runs after the round trip.) *)
Theorem copy_delete_paste_restores_text (d : Document) (start end_ : Position) :
  validRange d start end_ ->
  (forall p, js_get (paragraphs d) (paragraphIndex start) = Some p
             \/ js_get (paragraphs d) (paragraphIndex end_) = Some p ->
             singleUnitClusters (text p)) ->
  Forall (fun t => trim t = t) (copiedSlices d start end_) ->
  exists d2,
    copyDeletePaste start end_ d = (inr tt, d2)
    /\ map text (paragraphs d2) = map text (paragraphs d).
Proof.
  intros Hv Hsingle Hclean. pose proof Hv as [[p [Hp Hso]] [[q [Hq Heo]] Hord]].
  assert (Hsp : singleUnitClusters (text p)) by (apply Hsingle; left; exact Hp).
  assert (Hsq : singleUnitClusters (text q)) by (apply Hsingle; right; exact Hq).
  rewrite (singleUnit_count _ Hsp) in Hso. rewrite (singleUnit_count _ Hsq) in Heo.
  unfold copiedSlices in Hclean. unfold startAfterEnd in Hord.
  destruct d as [ps]. cbn [paragraphs] in *.
  destruct (paragraphIndex start =? paragraphIndex end_) eqn:Esame.
  - assert (q = p) by (assert (paragraphIndex end_ = paragraphIndex start) by lia;
                       congruence).
    subst q.
    destruct (js_get_split ps _ p Hp) as [A [C [-> HA]]].
    destruct (list_split3 (text p) (offset start) (offset end_))
      as [P [M [S [Ht [HP HM]]]]]; [lia | lia |].
    inversion Hclean as [|? ? HtrimM _]; subst.
    rewrite (singleUnit_slice _ _ _ _ p Hp Hsp) in HtrimM.
    assert (HMs : js_slice (text p) (offset start) (Some (offset end_)) = M).
    { rewrite Ht, <- HP.
      replace (offset end_) with (zlength P + zlength M) by lia.
      apply js_slice_parts. }
    rewrite HMs in HtrimM.
    apply (roundTrip_same_paragraph A C p P M S); auto; lia.
  - assert (Hlt : paragraphIndex start < paragraphIndex end_) by lia.
    destruct (js_get_split2 ps _ _ p q Hp Hq Hlt) as [A [B [C [-> [HA HB]]]]].
    destruct (list_split2 (text p) (offset start)) as [P [Sp [Htp HP]]]; [lia|].
    destruct (list_split2 (text q) (offset end_)) as [Q [Sq [Htq HQ]]]; [lia|].
    inversion Hclean as [|? ? HtrimS Hclean']; subst.
    inversion Hclean' as [|? ? HtrimQ _]; subst.
    rewrite (singleUnit_slice _ _ _ _ p Hp Hsp) in HtrimS.
    rewrite (singleUnit_slice _ _ _ _ q Hq Hsq) in HtrimQ.
    rewrite Htp, <- HP, js_slice_suffix in HtrimS.
    rewrite Htq, <- HQ, js_slice_prefix in HtrimQ.
    apply (roundTrip_across_paragraphs A B C p q P Sp Q Sq); auto; lia.
Qed.
End RoundTrip.

Lemma copy_delete_paste_restores_text_example :
  exists d2,
    copyDeletePaste (at_ 0 1) (at_ 1 1) twoParagraphs = (inr tt, d2)
    /\ map text (paragraphs d2) = map text (paragraphs twoParagraphs).
Proof.
  assert (Hv : validRange twoParagraphs (at_ 0 1) (at_ 1 1))
    by (repeat split; try (eexists; split; [reflexivity | cbn; lia])).
  assert (Hs : forall p,
             js_get (paragraphs twoParagraphs) (paragraphIndex (at_ 0 1)) = Some p
             \/ js_get (paragraphs twoParagraphs) (paragraphIndex (at_ 1 1)) = Some p ->
             singleUnitClusters (text p))
    by (intros p [H | H]; injection H as <-; reflexivity).
  assert (Hc : Forall (fun t => trim t = t)
                 (copiedSlices twoParagraphs (at_ 0 1) (at_ 1 1)))
    by (repeat constructor).
  exact (copy_delete_paste_restores_text twoParagraphs (at_ 0 1) (at_ 1 1) Hv Hs Hc).
Defined.

(** The claim C4 as stated fails: the copy of the range [1, 3) of "a b" is
    trimmed to "b", and the paragraph reads "ab" after the round trip. *)
Lemma copy_delete_paste_loses_space :
  let d2 := snd (copyDeletePaste (at_ 0 1) (at_ 0 3) spaced) in
  validRange spaced (at_ 0 1) (at_ 0 3)
  /\ fst (copyDeletePaste (at_ 0 1) (at_ 0 3) spaced) = inr tt
  /\ map text (paragraphs spaced) = [latin "a b"]
  /\ map text (paragraphs d2) = [latin "ab"]
  /\ map text (paragraphs d2) <> map text (paragraphs spaced).
Proof.
  repeat split; try reflexivity;
    try (eexists; split; [reflexivity | cbn; lia]).
  discriminate.
Qed.

(** * Further properties of the operations *)

(** ** The run ledger, grapheme by grapheme *)

(** Lengths of arrays given by their parts. *)
Ltac zlist :=
  unfold zlength in *; cbn [List.length] in *;
  repeat (rewrite !length_app in *; cbn [List.length] in * );
  lia.

Lemma nonNegativeRuns_app (rs rs' : list Run) :
  nonNegativeRuns (rs ++ rs') <-> nonNegativeRuns rs /\ nonNegativeRuns rs'.
Proof. apply Forall_app. Qed.

Lemma zlength_expand (rs : list Run) :
  nonNegativeRuns rs -> zlength (expand rs) = sumLengths rs.
Proof.
  induction 1 as [|r rs Hr _ IH]; [reflexivity|].
  rewrite expand_cons, zlength_app, zlength_repeat, sumLengths_cons, IH. lia.
Qed.

Lemma mergeLoop_nonNegative (rest : list Run) :
  forall lastRun, 0 <= length lastRun -> nonNegativeRuns rest ->
                  nonNegativeRuns (mergeLoop lastRun rest).
Proof.
  induction rest as [|r rest IH]; intros lastRun Hl Hrest; cbn [mergeLoop].
  - constructor; [exact Hl | constructor].
  - inversion Hrest as [|? ? Hr Hrest']; subst.
    destruct (areStylesEqual (style lastRun) (style r)).
    + apply IH; [cbn; lia | exact Hrest'].
    + constructor; [exact Hl | apply IH; assumption].
Qed.

Lemma mergeAdjacentRuns_nonNegative (rs : list Run) :
  nonNegativeRuns rs -> nonNegativeRuns (mergeAdjacentRuns rs).
Proof.
  destruct rs as [|r [|r' rs]]; intros H; try exact H.
  rewrite mergeAdjacentRuns_cons.
  inversion H; subst. apply mergeLoop_nonNegative; assumption.
Qed.

Lemma nth_error_repeat_lt {A} (x : A) (n k : nat) :
  (k < n)%nat -> nth_error (repeat x n) k = Some x.
Proof.
  revert k; induction n as [|n IH]; intros [|k] H; cbn; try lia; [reflexivity|].
  apply IH. lia.
Qed.

(** The run that [findRunAtOffset] finds carries the style that the
    grapheme at [offset] has in the expansion of the runs. *)
Lemma findRunLoop_expand (rs : list Run) :
  nonNegativeRuns rs ->
  forall i0 c off,
    0 <= i0 -> c <= off ->
    (let '(i, _) := findRunLoop rs i0 c off in
     if i =? -1 then None else option_map style (nth_error rs (Z.to_nat (i - i0))))
    = nth_error (expand rs) (Z.to_nat (off - c)).
Proof.
  induction 1 as [|r rs Hr Hrs IH]; intros i0 c off Hi Hc; cbn [findRunLoop].
  - cbn. destruct (Z.to_nat (off - c)); reflexivity.
  - rewrite expand_cons.
    destruct (c + length r >? off) eqn:E.
    + replace (i0 =? -1) with false by lia.
      replace (Z.to_nat (i0 - i0)) with 0%nat by lia. cbn [nth_error option_map].
      rewrite nth_error_app1 by (rewrite repeat_length; lia).
      symmetry. apply nth_error_repeat_lt. lia.
    + rewrite nth_error_app2 by (rewrite repeat_length; lia).
      rewrite repeat_length.
      replace (Z.to_nat (off - c) - Z.to_nat (length r))%nat
        with (Z.to_nat (off - (c + length r))) by lia.
      rewrite <- (IH (i0 + 1) (c + length r) off) by lia.
      destruct (findRunLoop rs (i0 + 1) (c + length r) off) as [i o] eqn:F.
      destruct (i =? -1) eqn:Ei; [reflexivity|].
      apply findRunLoop_index in F. destruct F as [F | (k & run & F & _)]; [lia|].
      replace (Z.to_nat (i - i0)) with (S (Z.to_nat (i - (i0 + 1)))) by lia.
      reflexivity.
Qed.

Lemma findRunAtOffset_expand (rs : list Run) (off : Z) :
  nonNegativeRuns rs -> 0 <= off ->
  option_map style (js_get rs (fst (findRunLoop rs 0 0 off)))
  = nth_error (expand rs) (Z.to_nat off).
Proof.
  intros Hrs Hoff.
  pose proof (findRunLoop_expand rs Hrs 0 0 off ltac:(lia) Hoff) as H.
  destruct (findRunLoop rs 0 0 off) as [i o] eqn:F. cbn [fst].
  rewrite !Z.sub_0_r in H. rewrite <- H.
  apply findRunLoop_index in F. destruct F as [-> | (k & run & -> & _)].
  - reflexivity.
  - replace (0 + Z.of_nat k =? -1) with false by lia.
    rewrite js_get_nth by lia. reflexivity.
Qed.

(** *** [updateRunLengths] *)

Lemma filter_positiveRuns (rs : list Run) :
  positiveRuns (filter (fun r => length r >? 0) rs).
Proof.
  induction rs as [|r rs IH]; cbn; [constructor|].
  destruct (length r >? 0) eqn:E; [constructor; [lia | exact IH] | exact IH].
Qed.

Lemma expand_filter (rs : list Run) :
  expand (filter (fun r => length r >? 0) rs) = expand rs.
Proof.
  induction rs as [|r rs IH]; [reflexivity|].
  cbn [filter]. destruct (length r >? 0) eqn:E.
  - rewrite !expand_cons, IH. reflexivity.
  - rewrite expand_cons, IH. replace (Z.to_nat (length r)) with 0%nat by lia.
    reflexivity.
Qed.

Lemma sumLengths_filter (rs : list Run) :
  nonNegativeRuns rs ->
  sumLengths (filter (fun r => length r >? 0) rs) = sumLengths rs.
Proof.
  induction 1 as [|r rs Hr _ IH]; [reflexivity|].
  cbn [filter]. destruct (length r >? 0) eqn:E.
  - rewrite !sumLengths_cons, IH. reflexivity.
  - rewrite sumLengths_cons, IH. lia.
Qed.

Lemma filter_positive_fixed (rs : list Run) :
  positiveRuns rs -> filter (fun r => length r >? 0) rs = rs.
Proof.
  induction 1 as [|r rs Hr _ IH]; [reflexivity|].
  cbn [filter]. replace (length r >? 0) with true by lia. rewrite IH. reflexivity.
Qed.

Lemma withLength_same (r : Run) : withLength r (length r) = r.
Proof. destruct r; reflexivity. Qed.

Lemma clampRuns_nonNegative (rs : list Run) :
  nonNegativeRuns rs ->
  forall c g, c <= g -> nonNegativeRuns (clampRuns rs c g).
Proof.
  induction 1 as [|r rs Hr _ IH]; intros c g Hc; cbn [clampRuns]; constructor.
  - cbn. lia.
  - apply IH. lia.
Qed.

Lemma clampRuns_sum (rs : list Run) :
  nonNegativeRuns rs ->
  forall c g, c <= g ->
              sumLengths (clampRuns rs c g) = Z.min (c + sumLengths rs) g - c.
Proof.
  induction 1 as [|r rs Hr Hrs IH]; intros c g Hc; cbn [clampRuns].
  - cbn. lia.
  - rewrite !sumLengths_cons, IH by lia. cbn [length withLength].
    pose proof (sumLengths_nonNegative rs Hrs). lia.
Qed.

Lemma firstn_repeat {A} (x : A) (n k : nat) :
  firstn k (repeat x n) = repeat x (Nat.min k n).
Proof.
  revert k; induction n as [|n IH]; intros [|k]; cbn; try reflexivity.
  rewrite IH. reflexivity.
Qed.

Lemma clampRuns_expand (rs : list Run) :
  nonNegativeRuns rs ->
  forall c g, c <= g ->
              expand (clampRuns rs c g) = firstn (Z.to_nat (g - c)) (expand rs).
Proof.
  induction 1 as [|r rs Hr Hrs IH]; intros c g Hc; cbn [clampRuns].
  - rewrite firstn_nil. reflexivity.
  - rewrite !expand_cons, IH by lia. cbn [length style withLength].
    rewrite firstn_app, firstn_repeat, repeat_length. f_equal.
    + f_equal. lia.
    + f_equal. lia.
Qed.

Lemma clampRuns_fixed (rs : list Run) :
  nonNegativeRuns rs ->
  forall c g, c + sumLengths rs <= g -> clampRuns rs c g = rs.
Proof.
  induction 1 as [|r rs Hr Hrs IH]; intros c g Hc; cbn [clampRuns]; [reflexivity|].
  rewrite sumLengths_cons in Hc. pose proof (sumLengths_nonNegative rs Hrs).
  replace (Z.min (c + length r) g) with (c + length r) by lia.
  rewrite IH by lia. replace (c + length r - c) with (length r) by lia.
  rewrite withLength_same. reflexivity.
Qed.

Section UpdateRunLengths.
Context {U : Unicode}.

Lemma getGraphemeCount_nonneg (t : jsstring) : 0 <= getGraphemeCount t.
Proof. apply zlength_nonneg. Qed.

Lemma updateRunLengths_fixed (p : Paragraph) :
  ledgerInvariant p -> updateRunLengths p = p.
Proof.
  intros [Hpos Hsum]. unfold updateRunLengths.
  rewrite clampRuns_fixed by (try apply positive_nonNegative; try lia; assumption).
  rewrite filter_positive_fixed by assumption. destruct p; reflexivity.
Qed.

Lemma updateRunLengths_effect (p : Paragraph) :
  nonNegativeRuns (runs p) ->
  let count := getGraphemeCount (text p) in
  let p' := updateRunLengths p in
  positiveRuns (runs p')
  /\ sumLengths (runs p') = Z.min (sumLengths (runs p)) count
  /\ expand (runs p') = firstn (Z.to_nat count) (expand (runs p)).
Proof.
  intros Hnn count p'. pose proof (getGraphemeCount_nonneg (text p)) as Hc.
  split; [apply filter_positiveRuns|]. split.
  - unfold p', updateRunLengths. cbn [runs withRuns].
    rewrite sumLengths_filter by (apply clampRuns_nonNegative; assumption).
    rewrite clampRuns_sum by assumption. fold count. lia.
  - unfold p', updateRunLengths. cbn [runs withRuns].
    rewrite expand_filter, clampRuns_expand by assumption.
    fold count. rewrite Z.sub_0_r. reflexivity.
Qed.

Lemma updateRunLengths_positive (p : Paragraph) :
  positiveRuns (runs (updateRunLengths p)).
Proof. apply filter_positiveRuns. Qed.

(** When the runs cover at least the text, [updateRunLengths] gives runs
    that cover exactly the text. *)
Lemma updateRunLengths_ledger (p : Paragraph) :
  nonNegativeRuns (runs p) ->
  getGraphemeCount (text p) <= sumLengths (runs p) ->
  ledgerInvariant (updateRunLengths p).
Proof.
  intros Hnn Hc. destruct (updateRunLengths_effect p Hnn) as (Hpos & Hsum & _).
  split; [assumption|]. rewrite Hsum. cbn [text updateRunLengths withRuns]. lia.
Qed.

(** X1.  [updateRunLengths]: the runs are cut down to the number of grapheme
    clusters of the text and the empty ones go away.  The text stays; each
    grapheme that is left keeps its style; runs that covered at least the
    text now cover exactly the text, and a paragraph whose runs were in
    order is not touched. *)
Theorem updateRunLengths_truncates (p : Paragraph) :
  nonNegativeRuns (runs p) ->
  let count := getGraphemeCount (text p) in
  let p' := updateRunLengths p in
  text p' = text p /\ yOffset p' = yOffset p
  /\ positiveRuns (runs p')
  /\ sumLengths (runs p') = Z.min (sumLengths (runs p)) count
  /\ expand (runs p') = firstn (Z.to_nat count) (expand (runs p))
  /\ (count <= sumLengths (runs p) -> ledgerInvariant p')
  /\ (ledgerInvariant p -> p' = p).
Proof.
  intros Hnn count p'.
  destruct (updateRunLengths_effect p Hnn) as (Hpos & Hsum & Hexp).
  split; [reflexivity|]. split; [reflexivity|].
  split; [exact Hpos|]. split; [exact Hsum|]. split; [exact Hexp|]. split.
  - intros Hc. apply (updateRunLengths_ledger p Hnn Hc).
  - apply updateRunLengths_fixed.
Qed.
End UpdateRunLengths.

(** *** The run that holds an offset, as a place in the array *)

Lemma findRunLoop_split (rs : list Run) (off : Z) :
  nonNegativeRuns rs -> 0 <= off < sumLengths rs ->
  exists P r S,
    rs = P ++ r :: S
    /\ findRunLoop rs 0 0 off = (zlength P, off - sumLengths P)
    /\ sumLengths P <= off < sumLengths P + length r.
Proof.
  intros Hnn Hoff.
  destruct (findRunLoop_spec rs Hnn 0 0 off ltac:(lia)) as [_ H].
  destruct (H ltac:(lia)) as (k & Hk & Hf & Hb).
  destruct (nth_error rs k) as [r|] eqn:Hr;
    [| apply nth_error_None in Hr; lia].
  destruct (nth_error_split rs k Hr) as (P & S & -> & Hlen).
  exists P, r, S. split; [reflexivity|].
  assert (HP : firstn k (P ++ r :: S) = P).
  { rewrite <- Hlen. rewrite firstn_app, Nat.sub_diag, firstn_all. cbn.
    apply app_nil_r. }
  assert (HP' : firstn (Datatypes.S k) (P ++ r :: S) = P ++ [r]).
  { rewrite <- Hlen. rewrite firstn_app, firstn_all2 by lia.
    replace (Datatypes.S (List.length P) - List.length P)%nat with 1%nat by lia.
    reflexivity. }
  rewrite HP in Hf, Hb. rewrite HP' in Hb.
  rewrite sumLengths_app, sumLengths_cons in Hb. cbn in Hb.
  split.
  - rewrite Hf. unfold zlength. rewrite Hlen. f_equal; lia.
  - lia.
Qed.

Lemma findRunLoop_beyond (rs : list Run) (off : Z) :
  nonNegativeRuns rs -> sumLengths rs <= off ->
  findRunLoop rs 0 0 off = (-1, 0).
Proof.
  intros Hnn Hoff. pose proof (sumLengths_nonNegative rs Hnn) as Hs.
  destruct (findRunLoop_spec rs Hnn 0 0 off ltac:(lia)) as [H _].
  apply H. lia.
Qed.

Lemma app_cons_inj {A} (P P' : list A) (x x' : A) (S S' : list A) :
  P ++ x :: S = P' ++ x' :: S' -> zlength P = zlength P' ->
  P = P' /\ x = x' /\ S = S'.
Proof.
  revert P'; induction P as [|y P IH]; intros [|y' P'] H Hl;
    try (unfold zlength in Hl; cbn in Hl; lia).
  - injection H as -> ->. auto.
  - injection H as -> H. destruct (IH P' H) as (-> & -> & ->); [zlist | auto].
Qed.

(** *** Splitting the runs at an offset *)

Lemma seekRun_findRunLoop (rs : list Run) (off : Z) :
  forall i0 c,
    0 <= i0 ->
    let '(i, a) := findRunLoop rs i0 c off in
    if i =? -1 then fst (Part001.seekRun rs i0 c off) = i0 + zlength rs
    else Part001.seekRun rs i0 c off = (i, off - a).
Proof.
  induction rs as [|r rs IH]; intros i0 c Hi; cbn [findRunLoop Part001.seekRun].
  - cbn. unfold zlength. cbn. lia.
  - destruct (c + length r >? off) eqn:E.
    + replace (i0 =? -1) with false by lia.
      replace (c + length r <=? off) with false by lia. f_equal. lia.
    + replace (c + length r <=? off) with true by lia.
      specialize (IH (i0 + 1) (c + length r) ltac:(lia)).
      destruct (findRunLoop rs (i0 + 1) (c + length r) off) as [i a].
      destruct (i =? -1); [rewrite IH, zlength_cons; lia | exact IH].
Qed.

Lemma updateRunsForSplit_splitRunsAtOffset (p : Paragraph) (offset : Z) :
  Part001.updateRunsForSplit p offset = splitRunsAtOffset p offset.
Proof.
  unfold Part001.updateRunsForSplit, splitRunsAtOffset, findRunAtOffset.
  pose proof (seekRun_findRunLoop (runs p) offset 0 0 ltac:(lia)) as H.
  destruct (findRunLoop (runs p) 0 0 offset) as [i a].
  destruct (i =? -1) eqn:Ei.
  - destruct (Part001.seekRun (runs p) 0 0 offset) as [i' c']. cbn [fst] in H.
    rewrite (js_get_None (runs p) i') by lia. reflexivity.
  - rewrite H. cbn [negb andb].
    replace (offset - (offset - a)) with a by lia.
    destruct (js_get (runs p) i) as [run|]; [| destruct (a >? 0); reflexivity].
    destruct (a >? 0), (a <? length run); reflexivity.
Qed.

Lemma splitRunsAtOffset_cases (p : Paragraph) (offset : Z) :
  splitRunsAtOffset p offset = p
  \/ exists P run S a,
       runs p = P ++ run :: S /\ 0 < a < length run
       /\ findRunAtOffset p offset = (zlength P, a)
       /\ splitRunsAtOffset p offset
          = withRuns p (P ++ [ {| length := a; style := style run |};
                               {| length := length run - a; style := style run |} ]
                          ++ S).
Proof.
  unfold splitRunsAtOffset.
  destruct (findRunAtOffset p offset) as [i a] eqn:F.
  destruct (negb (i =? -1) && (a >? 0)) eqn:E; [| left; reflexivity].
  destruct (js_get (runs p) i) as [run|] eqn:G; [| left; reflexivity].
  destruct (a <? length run) eqn:E'; [| left; reflexivity].
  right. destruct (js_get_split _ _ _ G) as (P & S & HP & Hi).
  exists P, run, S, a. repeat split; try assumption; try zbool.
  - rewrite Hi. reflexivity.
  - rewrite HP, <- Hi.
    change (P ++ run :: S) with (P ++ [run] ++ S).
    change 1 with (zlength [run]).
    rewrite js_splice_parts. reflexivity.
Qed.

Lemma repeat_split {A} (x : A) (a n : Z) :
  0 <= a <= n ->
  repeat x (Z.to_nat a) ++ repeat x (Z.to_nat (n - a)) = repeat x (Z.to_nat n).
Proof.
  intros H. rewrite <- repeat_app. f_equal. lia.
Qed.

Lemma cumulative_prefix (P S : list Run) :
  cumulative (P ++ S) (zlength P) = sumLengths P.
Proof.
  unfold cumulative, zlength. rewrite Nat2Z.id, firstn_app, Nat.sub_diag, firstn_all.
  cbn. rewrite app_nil_r. reflexivity.
Qed.

Lemma splitRunsAtOffset_keeps (p : Paragraph) (offset : Z) :
  let p' := splitRunsAtOffset p offset in
  text p' = text p /\ yOffset p' = yOffset p
  /\ sumLengths (runs p') = sumLengths (runs p)
  /\ expand (runs p') = expand (runs p)
  /\ (nonNegativeRuns (runs p) -> nonNegativeRuns (runs p')).
Proof.
  intros p'. subst p'.
  destruct (splitRunsAtOffset_cases p offset)
    as [-> | (P & run & S & a & HP & Ha & _ & ->)]; [tauto|].
  cbn [text yOffset runs withRuns]. rewrite HP.
  split; [reflexivity|]. split; [reflexivity|]. split; [| split].
  - rewrite !sumLengths_app, !sumLengths_cons. cbn. lia.
  - rewrite !expand_app, !expand_cons. cbn [expand flat_map length style app].
    rewrite app_nil_r. f_equal. f_equal. apply repeat_split. lia.
  - intros Hnn. apply Forall_app in Hnn. destruct Hnn as [HPn HS].
    inversion HS; subst. apply Forall_app. split; [assumption|].
    repeat constructor; cbn; try lia; assumption.
Qed.

(** X2.  [splitRunsAtOffset] and the older [updateRunsForSplit] are the same
    function.  The split changes no text, no total and the style of no
    grapheme, and afterwards [offset] is a boundary between two runs. *)
Theorem splitRunsAtOffset_splits (p : Paragraph) (offset : Z) :
  let p' := splitRunsAtOffset p offset in
  Part001.updateRunsForSplit p offset = p'
  /\ text p' = text p /\ yOffset p' = yOffset p
  /\ sumLengths (runs p') = sumLengths (runs p)
  /\ expand (runs p') = expand (runs p)
  /\ (positiveRuns (runs p) -> positiveRuns (runs p'))
  /\ (nonNegativeRuns (runs p) -> 0 <= offset <= sumLengths (runs p) ->
      exists k, 0 <= k <= zlength (runs p') /\ cumulative (runs p') k = offset).
Proof.
  intros p'. split; [apply updateRunsForSplit_splitRunsAtOffset|].
  destruct (splitRunsAtOffset_cases p offset)
    as [Hsame | (P & run & S & a & HP & Ha & Hf & Hsplit)]; subst p'.
  - rewrite Hsame. repeat split; try tauto.
    intros Hnn Hoff.
    destruct (Z.eq_dec offset (sumLengths (runs p))) as [-> | Hne].
    + exists (zlength (runs p)). split; [pose proof (zlength_nonneg (runs p)); lia|].
      rewrite <- (app_nil_r (runs p)) at 1. rewrite cumulative_prefix. reflexivity.
    + destruct (findRunLoop_split (runs p) offset Hnn ltac:(lia))
        as (P & r & S & HP & Hf & Hb).
      assert (Ha : offset - sumLengths P = 0).
      { destruct (Z.eq_dec (offset - sumLengths P) 0) as [|Hpos]; [assumption|].
        exfalso. unfold splitRunsAtOffset, findRunAtOffset in Hsame.
        rewrite Hf in Hsame. pose proof (zlength_nonneg P).
        replace (negb (zlength P =? -1) && (offset - sumLengths P >? 0))
          with true in Hsame by lia.
        rewrite HP, js_get_middle in Hsame.
        replace (offset - sumLengths P <? length r) with true in Hsame by lia.
        rewrite <- HP in Hsame.
        apply (f_equal (fun q => zlength (runs q))) in Hsame.
        cbn [runs withRuns] in Hsame. revert Hsame.
        rewrite HP. change (P ++ r :: S) with (P ++ [r] ++ S).
        change 1 with (zlength [r]). rewrite js_splice_parts. zlen. }
      exists (zlength P). rewrite HP.
      split; [pose proof (zlength_nonneg P); pose proof (zlength_nonneg S); zlen|].
      rewrite cumulative_prefix. lia.
  - rewrite Hsplit. cbn [text yOffset runs withRuns]. rewrite HP.
    repeat split.
    + rewrite !sumLengths_app, !sumLengths_cons. cbn. lia.
    + rewrite !expand_app, !expand_cons. cbn [expand flat_map length style app].
      rewrite app_nil_r. f_equal. f_equal.
      apply repeat_split. lia.
    + intros Hpos. apply Forall_app in Hpos.
      destruct Hpos as [HPp HS]. inversion HS; subst.
      apply Forall_app. split; [assumption|].
      repeat constructor; cbn; try lia; assumption.
    + intros Hnn Hoff. exists (zlength P + 1). split.
      * zlist.
      * unfold findRunAtOffset in Hf.
        assert (Hin : 0 <= offset < sumLengths (P ++ run :: S) \/
                      offset = sumLengths (P ++ run :: S)) by lia.
        destruct Hin as [Hin | Hin].
        -- destruct (findRunLoop_split _ offset Hnn Hin) as (P' & r' & S' & HP' & Hf' & Hb').
           rewrite HP in Hf. rewrite Hf in Hf'. injection Hf' as HzP Hoffa.
           destruct (app_cons_inj _ _ _ _ _ _ HP' HzP) as (<- & <- & <-).
           change (P ++ [{| length := a; style := style run |};
                         {| length := length run - a; style := style run |}] ++ S)
             with (P ++ [{| length := a; style := style run |}]
                     ++ ({| length := length run - a; style := style run |} :: S)).
           rewrite app_assoc.
           replace (zlength P + 1)
             with (zlength (P ++ [{| length := a; style := style run |}])) by zlen.
           rewrite cumulative_prefix, sumLengths_app. cbn. lia.
        -- rewrite HP in Hf. rewrite findRunLoop_beyond in Hf by (try assumption; lia).
           pose proof (zlength_nonneg P). injection Hf as Hf _. lia.
Qed.

(** A merge never adds a run. *)
Lemma mergeLoop_length (rest : list Run) :
  forall lastRun, zlength (mergeLoop lastRun rest) <= zlength (lastRun :: rest).
Proof.
  induction rest as [|r rest IH]; intros lastRun; cbn [mergeLoop].
  - lia.
  - destruct (areStylesEqual (style lastRun) (style r)).
    + specialize (IH (withLength lastRun (length lastRun + length r))).
      rewrite !zlength_cons in *. lia.
    + specialize (IH r). rewrite !zlength_cons in *. lia.
Qed.

(** X3.  [mergeAdjacentRuns]: the total of the lengths stays, no two neighbours
    of the result have equal styles, a second merge changes nothing, the
    array does not grow, and every grapheme keeps its style. *)
Theorem mergeAdjacentRuns_keeps_ledger (rs : list Run) :
  totalRunLength (mergeAdjacentRuns rs) = totalRunLength rs
  /\ noAdjacentEqual (mergeAdjacentRuns rs)
  /\ mergeAdjacentRuns (mergeAdjacentRuns rs) = mergeAdjacentRuns rs
  /\ zlength (mergeAdjacentRuns rs) <= zlength rs
  /\ (nonNegativeRuns rs -> expand (mergeAdjacentRuns rs) = expand rs)
  /\ (positiveRuns rs -> positiveRuns (mergeAdjacentRuns rs)).
Proof.
  split; [|split; [|split; [|split; [|split]]]].
  - rewrite !totalRunLength_sum. apply mergeAdjacentRuns_sum.
  - apply mergeAdjacentRuns_noAdjacentEqual.
  - apply mergeAdjacentRuns_idempotent.
  - destruct rs as [|r0 rest]; [apply Z.le_refl|].
    rewrite mergeAdjacentRuns_cons. apply mergeLoop_length.
  - apply expand_mergeAdjacentRuns.
  - apply mergeAdjacentRuns_positive.
Qed.

(** X4.  The run that [findRunAtOffset] returns for an offset is the run of the
    grapheme at that offset: its style is the style at that place of the
    expansion of the runs; the answer is "no run" exactly when the offset is
    at or beyond the total of the lengths. *)
Theorem findRunAtOffset_style (p : Paragraph) (offset : Z) :
  nonNegativeRuns (runs p) -> 0 <= offset ->
  option_map style (js_get (runs p) (fst (findRunAtOffset p offset)))
  = nth_error (expand (runs p)) (Z.to_nat offset)
  /\ (fst (findRunAtOffset p offset) = -1 <-> sumLengths (runs p) <= offset).
Proof.
  intros Hnn Hoff. split; [apply findRunAtOffset_expand; assumption|].
  unfold findRunAtOffset. split.
  - intros Hnone. destruct (Z_lt_dec offset (sumLengths (runs p))) as [Hlt | Hge]; [| lia].
    destruct (findRunLoop_split (runs p) offset Hnn ltac:(lia)) as (P & r & S & _ & Hf & _).
    rewrite Hf in Hnone. cbn [fst] in Hnone. pose proof (zlength_nonneg P). lia.
  - intros Hge. rewrite findRunLoop_beyond by assumption. reflexivity.
Qed.

Lemma updateRunLengths_truncates_example :
  let p := paragraph (latin "abc") [run 2 (fontSize 16); run 5 (fontSize 14)] in
  expand (runs (updateRunLengths p))
  = firstn (Z.to_nat (getGraphemeCount (text p))) (expand (runs p)).
Proof.
  apply (updateRunLengths_truncates
           (paragraph (latin "abc") [run 2 (fontSize 16); run 5 (fontSize 14)])).
  repeat constructor; cbn; lia.
Defined.

Lemma splitRunsAtOffset_splits_example :
  exists k, 0 <= k <= zlength (runs (splitRunsAtOffset twoRuns 1))
            /\ cumulative (runs (splitRunsAtOffset twoRuns 1)) k = 1.
Proof.
  apply (splitRunsAtOffset_splits twoRuns 1);
    [repeat constructor; cbn; lia | cbn; lia].
Defined.

Lemma mergeAdjacentRuns_keeps_ledger_example :
  expand (mergeAdjacentRuns [run 1 (fontSize 16); run 2 (fontSize 16); run 1 (fontSize 14)])
  = expand [run 1 (fontSize 16); run 2 (fontSize 16); run 1 (fontSize 14)].
Proof.
  apply (mergeAdjacentRuns_keeps_ledger
           [run 1 (fontSize 16); run 2 (fontSize 16); run 1 (fontSize 14)]).
  repeat constructor; cbn; lia.
Defined.

Lemma findRunAtOffset_style_example :
  option_map style (js_get (runs twoRuns) (fst (findRunAtOffset twoRuns 2)))
  = nth_error (expand (runs twoRuns)) (Z.to_nat 2)
  /\ (fst (findRunAtOffset twoRuns 2) = -1 <-> sumLengths (runs twoRuns) <= 2).
Proof.
  apply (findRunAtOffset_style twoRuns 2); [repeat constructor; cbn; lia | lia].
Defined.

(** ** Insertion *)

(** Totals of arrays of runs given by their parts. *)
Ltac sums :=
  repeat first [rewrite sumLengths_app | rewrite sumLengths_cons];
  change (sumLengths []) with 0; cbn [length withLength]; lia.

Lemma firstn_skipn_expand_split (P S : list Run) (r : Run) (off : Z) :
  nonNegativeRuns P ->
  sumLengths P <= off < sumLengths P + length r ->
  firstn (Z.to_nat off) (expand (P ++ r :: S))
  = expand P ++ repeat (style r) (Z.to_nat (off - sumLengths P))
  /\ skipn (Z.to_nat off) (expand (P ++ r :: S))
     = repeat (style r) (Z.to_nat (sumLengths P + length r - off)) ++ expand S.
Proof.
  intros HP Hoff. pose proof (sumLengths_nonNegative P HP) as Hs.
  pose proof (zlength_expand P HP) as Hl. unfold zlength in Hl.
  rewrite expand_app, expand_cons.
  replace (Z.to_nat off)
    with (List.length (expand P) + Z.to_nat (off - sumLengths P))%nat by lia.
  split.
  - rewrite firstn_app_2, firstn_app, firstn_repeat, repeat_length.
    replace (Z.to_nat (off - sumLengths P) - Z.to_nat (length r))%nat with 0%nat by lia.
    rewrite firstn_O, app_nil_r. do 2 f_equal. lia.
  - rewrite skipn_app, skipn_all2 by lia.
    replace (List.length (expand P) + Z.to_nat (off - sumLengths P)
             - List.length (expand P))%nat
      with (Z.to_nat (off - sumLengths P)) by lia.
    cbn [app]. rewrite skipn_app, repeat_length.
    replace (Z.to_nat (off - sumLengths P) - Z.to_nat (length r))%nat with 0%nat by lia.
    rewrite skipn_O. f_equal.
    rewrite <- (repeat_split (style r) (off - sumLengths P) (length r)) by lia.
    rewrite skipn_app, repeat_length, Nat.sub_diag, skipn_O.
    rewrite skipn_all2 by (rewrite repeat_length; lia).
    cbn [app]. f_equal. lia.
Qed.

Lemma js_splice_one {A} (P S items : list A) (x : A) :
  js_splice (P ++ x :: S) (zlength P) (Some 1) items = P ++ items ++ S.
Proof. apply (js_splice_parts P [x] S items). Qed.


Section Insertion.
Context {U : Unicode}.

Lemma insertText_single_effect (d : Document) (pos : Position) (txt : jsstring)
    (sty : TextStyle) (p : Paragraph) :
  js_get (paragraphs d) (paragraphIndex pos) = Some p ->
  0 <= offset pos <= getGraphemeCount (text p) ->
  includesNewline (normalizeNFC txt) = false ->
  let n := getGraphemeCount (normalizeNFC txt) in
  let p1 := withText p (js_slice (text p) 0 (Some (offset pos)) ++ normalizeNFC txt
                        ++ js_slice (text p) (offset pos) None) in
  let p2 := let '(runIndex, offsetInRun) := findRunAtOffset p1 (offset pos) in
            if runIndex =? -1
            then withRuns p1 (runs p1 ++ [{| length := n; style := sty |}])
            else insertTextIntoRun p1 runIndex offsetInRun n sty in
  insertText pos txt sty d
  = (inr tt, {| paragraphs := js_set (paragraphs d) (paragraphIndex pos)
                               (updateRunLengths p2) |}).
Proof.
  intros Hget Hoff Hnl n p1 p2. unfold insertText.
  rewrite (bind_inr _ _ _ _ _ (validatePosition_ok d pos (ex_intro _ p (conj Hget Hoff)))).
  rewrite Hnl.
  rewrite (bind_inr _ _ _ _ _ (getParagraph_ok d _ p Hget)).
  subst p2 p1 n. cbv zeta.
  destruct (findRunAtOffset _ (offset pos)) as [runIndex offsetInRun].
  apply setParagraph_effect.
Qed.

End Insertion.

Section InsertionTheorems.
Context {U : Unicode}.

(** X5.  [insertText] of a text without a line break, at a valid position:
    only the paragraph of the position changes; its text is the old text
    cut at the code-unit offset [offset] with the normalised text in
    between; it keeps its [yOffset], and none of its runs is empty. *)
Theorem insertText_single_line (d : Document) (pos : Position) (txt : jsstring)
    (sty : TextStyle) (p : Paragraph) :
  js_get (paragraphs d) (paragraphIndex pos) = Some p ->
  0 <= offset pos <= getGraphemeCount (text p) ->
  includesNewline (normalizeNFC txt) = false ->
  exists p',
    insertText pos txt sty d
    = (inr tt, {| paragraphs := js_set (paragraphs d) (paragraphIndex pos) p' |})
    /\ text p' = js_slice (text p) 0 (Some (offset pos)) ++ normalizeNFC txt
                 ++ js_slice (text p) (offset pos) None
    /\ yOffset p' = yOffset p
    /\ positiveRuns (runs p').
Proof.
  intros Hget Hoff Hnl.
  pose proof (insertText_single_effect d pos txt sty p Hget Hoff Hnl) as H.
  cbv zeta in H. eexists. split; [exact H|].
  split; [| split; [| apply updateRunLengths_positive]].
  - cbn [text updateRunLengths withRuns].
    destruct (findRunAtOffset _ (offset pos)) as [i a].
    destruct (i =? -1); [reflexivity|].
    unfold insertTextIntoRun. case_all; reflexivity.
  - cbn [yOffset updateRunLengths withRuns].
    destruct (findRunAtOffset _ (offset pos)) as [i a].
    destruct (i =? -1); [reflexivity|].
    unfold insertTextIntoRun. case_all; reflexivity.
Qed.

End InsertionTheorems.

Lemma insertText_single_line_example :
  exists p',
    insertText (at_ 0 5) (latin "XY") (fontSize 20) testDoc
    = (inr tt, {| paragraphs := js_set (paragraphs testDoc) 0 p' |})
    /\ text p' = latin "FirstXY paragraph"
    /\ yOffset p' = 0
    /\ positiveRuns (runs p').
Proof.
  assert (Hb : 0 <= offset (at_ 0 5)
               <= getGraphemeCount
                    (text (paragraph (latin "First paragraph") [run 15 (fontSize 16)])))
    by (vm_compute; split; discriminate).
  exact (insertText_single_line testDoc (at_ 0 5) (latin "XY") (fontSize 20)
           (paragraph (latin "First paragraph") [run 15 (fontSize 16)])
           eq_refl Hb eq_refl).
Defined.


(** *** Text with line breaks *)

Lemma splitNewline_nonempty (t : jsstring) : splitNewline t <> [].
Proof.
  destruct t as [|c t]; cbn; [discriminate|].
  destruct (N.eqb c newline); [discriminate|].
  destruct (splitNewline t); discriminate.
Qed.

Lemma joinNewline_cons (t s : jsstring) (rest : list jsstring) :
  joinNewline (t :: s :: rest) = t ++ newline :: joinNewline (s :: rest).
Proof. reflexivity. Qed.

Lemma joinNewline_splitNewline (t : jsstring) : joinNewline (splitNewline t) = t.
Proof.
  induction t as [|c t IH]; [reflexivity|].
  cbn [splitNewline]. pose proof (splitNewline_nonempty t) as Hne.
  destruct (splitNewline t) as [|s ss]; [contradiction|].
  destruct (N.eqb c newline) eqn:E.
  - apply N.eqb_eq in E. subst c. rewrite joinNewline_cons, IH. reflexivity.
  - destruct ss as [|s' ss].
    + cbn in *. rewrite IH. reflexivity.
    + rewrite joinNewline_cons in *. cbn [app]. rewrite IH. reflexivity.
Qed.

Lemma splitNewline_single (t : jsstring) :
  includesNewline t = false -> splitNewline t = [t].
Proof.
  unfold includesNewline. induction t as [|c t IH]; [reflexivity|].
  cbn [existsb splitNewline]. intros H. apply orb_false_iff in H.
  destruct H as [Hc Ht]. rewrite N.eqb_sym, Hc, (IH Ht). reflexivity.
Qed.

Lemma splitNewline_includes (t first last_ : jsstring) (middle : list jsstring) :
  splitNewline t = first :: middle ++ [last_] -> includesNewline t = true.
Proof.
  intros H. destruct (includesNewline t) eqn:E; [reflexivity|].
  rewrite (splitNewline_single t E) in H. injection H as _ H.
  destruct middle; discriminate.
Qed.

Lemma joinNewline_cons_snoc (t x : jsstring) (M : list jsstring) :
  joinNewline (t :: M ++ [x]) = t ++ newline :: joinNewline (M ++ [x]).
Proof. destruct M; reflexivity. Qed.

Lemma joinNewline_snoc_app (M : list jsstring) (l a : jsstring) :
  joinNewline (M ++ [(l ++ a : jsstring)]) = joinNewline (M ++ [l]) ++ a.
Proof.
  induction M as [|t M IH]; [reflexivity|].
  cbn [app]. rewrite !joinNewline_cons_snoc, IH.
  rewrite <- app_assoc. reflexivity.
Qed.

Lemma joinNewline_around (b f l a : jsstring) (M : list jsstring) :
  joinNewline ((b ++ f : jsstring) :: M ++ [(l ++ a : jsstring)])
  = b ++ joinNewline (f :: M ++ [l]) ++ a.
Proof.
  rewrite !joinNewline_cons_snoc, joinNewline_snoc_app.
  rewrite <- !app_assoc. reflexivity.
Qed.

Lemma js_slice_split {A} (l : list A) (k : Z) :
  js_slice l 0 (Some k) ++ js_slice l k None = l.
Proof.
  unfold js_slice. pose proof (zlength_nonneg l) as Hl.
  pose proof (relativeIndex_range (zlength l) k Hl) as Hr.
  replace (relativeIndex (zlength l) 0) with 0 by (unfold relativeIndex; cbn; lia).
  cbn [Z.to_nat skipn]. rewrite Z.sub_0_r.
  rewrite (firstn_all2 (n := Z.to_nat (zlength l - relativeIndex (zlength l) k))).
  - apply firstn_skipn.
  - rewrite length_skipn. unfold zlength in *. lia.
Qed.

Lemma js_splice_insert {A} (P S items : list A) :
  js_splice (P ++ S) (zlength P) (Some 0) items = P ++ items ++ S.
Proof. apply (js_splice_parts P [] S items). Qed.

Lemma js_slice_inner {A} (x y : A) (M : list A) :
  js_slice (x :: M ++ [y]) 1 (Some (zlength (x :: M ++ [y]) - 1)) = M.
Proof.
  replace (zlength (x :: M ++ [y]) - 1) with (zlength [x] + zlength M) by zlist.
  apply (js_slice_parts [x] M [y]).
Qed.

Lemma last_cons_snoc {A} (x y d : A) (M : list A) : last (x :: M ++ [y]) d = y.
Proof. apply (last_last (x :: M) y d). Qed.

Section NewlineInsertion.
Context {U : Unicode}.

Lemma sliceTextByGraphemes_split (ps : list Paragraph) (index k : Z) (p : Paragraph) :
  js_get ps index = Some p ->
  sliceTextByGraphemes ps index 0 (Some k) ++ sliceTextByGraphemes ps index k None
  = text p.
Proof.
  intros H. unfold sliceTextByGraphemes. rewrite H.
  destruct (text p) as [|c t] eqn:Ht; [reflexivity|].
  rewrite <- concat_app, js_slice_split. apply segment_join.
Qed.

(** X7.  [insertText] of a text with line breaks, at a valid position of the
    paragraph [p]: the paragraph keeps the clusters before the offset and
    takes the text before the first line break; one paragraph with a single
    run in the given style follows for every further line, the last of them
    ending with the clusters of [p] from the offset on; the paragraphs
    before and after are untouched.  The new texts, joined by line breaks,
    read as the old text with the inserted text at the offset.  The first
    paragraph keeps every run, whatever is left of its text. *)
Theorem insertText_with_newlines (d : Document) (pos : Position) (txt : jsstring)
    (sty : TextStyle) (A C : list Paragraph) (p : Paragraph)
    (first last_ : jsstring) (middle : list jsstring) :
  paragraphs d = A ++ p :: C ->
  paragraphIndex pos = zlength A ->
  0 <= offset pos <= getGraphemeCount (text p) ->
  splitNewline (normalizeNFC txt) = first :: middle ++ [last_] ->
  let before :=
    sliceTextByGraphemes (paragraphs d) (paragraphIndex pos) 0 (Some (offset pos)) in
  let after :=
    sliceTextByGraphemes (paragraphs d) (paragraphIndex pos) (offset pos) None in
  exists p0,
    insertText pos txt sty d
    = (inr tt,
       {| paragraphs :=
            A ++ p0 :: map (fun t => newParagraph t sty)
                         (middle ++ [(last_ ++ after : jsstring)]) ++ C |})
    /\ text p0 = before ++ first
    /\ yOffset p0 = yOffset p
    /\ expand (runs p0) = expand (runs p)
    /\ before ++ after = text p
    /\ joinNewline (text p0 :: middle ++ [(last_ ++ after : jsstring)])
       = before ++ normalizeNFC txt ++ after.
Proof.
  intros Hps Hidx Hoff Hsplit before after.
  assert (Hget : js_get (paragraphs d) (paragraphIndex pos) = Some p)
    by (rewrite Hps, Hidx; apply js_get_middle).
  pose (p0 := splitRunsAtOffset (withText p (before ++ first)) (offset pos)).
  destruct (splitRunsAtOffset_keeps (withText p (before ++ first)) (offset pos))
    as (Ht & Hy & _ & He & _).
  exists p0. split; [| split; [exact Ht | split; [exact Hy | split; [exact He | split]]]].
  - unfold insertText.
    rewrite (bind_inr _ _ _ _ _ (validatePosition_ok d pos (ex_intro _ p (conj Hget Hoff)))).
    rewrite (splitNewline_includes _ _ _ _ Hsplit).
    unfold insertTextWithNewlines.
    rewrite (bind_inr _ _ _ _ _ (eq_refl : getParagraphs d = (inr (paragraphs d), d))).
    rewrite (bind_inr _ _ _ _ _ (getParagraph_ok d _ p Hget)).
    rewrite Hsplit. cbn [hd].
    rewrite (bind_inr _ _ _ _ _ (setParagraph_effect d _ _)).
    unfold bind, getParagraphs, setParagraphs. cbn [paragraphs].
    rewrite js_slice_inner, last_cons_snoc.
    replace (zlength (first :: middle ++ [last_]) >? 1) with true
      by (pose proof (zlength_nonneg middle); zlist).
    fold before after p0. rewrite Hps, Hidx, js_set_middle.
    change (A ++ p0 :: C) with (A ++ [p0] ++ C). rewrite app_assoc.
    replace (zlength A + 1) with (zlength (A ++ [p0])) by zlist.
    rewrite js_splice_insert, <- app_assoc. cbn [app].
    rewrite map_app. reflexivity.
  - apply sliceTextByGraphemes_split. exact Hget.
  - fold p0 in Ht. rewrite Ht. cbn [text withText].
    rewrite joinNewline_around, <- Hsplit, joinNewline_splitNewline. reflexivity.
Qed.
End NewlineInsertion.

Lemma insertText_with_newlines_example :
  exists p0,
    insertText (at_ 0 5) threeLines (fontSize 16) testDoc
    = (inr tt,
       {| paragraphs :=
            [p0; newParagraph (latin "New paragraph") (fontSize 16);
             newParagraph (latin "Third paragraph") (fontSize 16)] |})
    /\ text p0 = latin "First split"
    /\ yOffset p0 = 0
    /\ expand (runs p0) = repeat (fontSize 16) 15
    /\ latin "First" ++ latin " paragraph" = latin "First paragraph"
    /\ joinNewline [text p0; latin "New paragraph"; latin "Third paragraph"]
       = latin "First" ++ threeLines ++ latin " paragraph".
Proof.
  assert (Hb : 0 <= offset (at_ 0 5) <= getGraphemeCount (text firstParagraph))
    by (vm_compute; split; discriminate).
  exact (insertText_with_newlines testDoc (at_ 0 5) threeLines (fontSize 16)
           [] [] firstParagraph (latin " split") (latin "Third")
           [latin "New paragraph"] eq_refl eq_refl Hb eq_refl).
Defined.

(** ** Deletion *)

Lemma Forall_firstn_keep {A} (P : A -> Prop) (l : list A) (n : nat) :
  Forall P l -> Forall P (firstn n l).
Proof.
  intros H. revert n. induction H as [|x l Hx _ IH]; intros [|n]; cbn;
    constructor; auto.
Qed.

Lemma Forall_skipn_keep {A} (P : A -> Prop) (l : list A) (n : nat) :
  Forall P l -> Forall P (skipn n l).
Proof.
  intros H. revert n. induction H as [|x l Hx Hl IH]; intros [|n]; cbn;
    try constructor; auto.
Qed.

Lemma Forall_js_splice {A} (P : A -> Prop) (l items : list A) (k : Z) (dc : option Z) :
  Forall P l -> Forall P items -> Forall P (js_splice l k dc items).
Proof.
  intros Hl Hi. unfold js_splice. apply Forall_app. split.
  - apply Forall_firstn_keep, Hl.
  - apply Forall_app. split; [exact Hi | apply Forall_skipn_keep, Hl].
Qed.

Lemma Forall_set_nth {A} (P : A -> Prop) (l : list A) (x : A) :
  Forall P l -> P x -> forall n, Forall P (set_nth l n x).
Proof.
  intros Hl Hx. induction Hl as [|y l Hy Hl IH]; intros n; [constructor|].
  destruct n as [|n]; cbn; constructor; auto.
Qed.

Lemma Forall_js_set {A} (P : A -> Prop) (l : list A) (k : Z) (x : A) :
  Forall P l -> P x -> Forall P (js_set l k x).
Proof.
  intros Hl Hx. unfold js_set. destruct (k <? 0); [exact Hl|].
  apply Forall_set_nth; assumption.
Qed.

Lemma js_set_same {A} (l : list A) (k : Z) (x : A) :
  js_get l k = Some x -> js_set l k x = l.
Proof.
  intros H. destruct (js_get_split _ _ _ H) as (P & S & -> & <-).
  apply js_set_middle.
Qed.

Lemma withText_same (p : Paragraph) : withText p (text p) = p.
Proof. destruct p; reflexivity. Qed.

Lemma withRuns_same (p : Paragraph) : withRuns p (runs p) = p.
Proof. destruct p; reflexivity. Qed.

Lemma updateRunsAfterDeletion_positive (p : Paragraph) (a n : Z) :
  positiveRuns (runs p) -> positiveRuns (runs (updateRunsAfterDeletion p a n)).
Proof.
  intros Hpos. unfold updateRunsAfterDeletion.
  destruct (findRunAtOffset p a) as [i o].
  destruct (findRunAtOffset p (a + n)) as [j o'].
  destruct (i =? -1); [exact Hpos|].
  destruct (js_get (runs p) i) as [firstRun|] eqn:G; [| exact Hpos].
  destruct (i =? j).
  - cbn [runs withRuns].
    destruct (length (withLength firstRun (length firstRun - n)) <=? 0) eqn:E.
    + destruct (js_get_split _ _ _ G) as (P & S & HP & <-).
      rewrite HP in *. rewrite js_set_middle, js_splice_one. cbn [app].
      apply Forall_app in Hpos. destruct Hpos as [HPp HS].
      inversion HS; subst. apply Forall_app. split; assumption.
    + apply Forall_js_set; [exact Hpos | lia].
  - cbn [runs withRuns].
    match goal with |- context [if ?c then _ else _] => destruct c eqn:E end.
    + apply Forall_js_splice; [| constructor].
      apply Forall_js_set; [exact Hpos | cbn; lia].
    + apply Forall_js_splice; [exact Hpos | constructor].
Qed.

Lemma relativeIndex_nonneg (len k : Z) :
  0 <= len -> 0 <= k -> relativeIndex len k = Z.min k len.
Proof. intros Hl Hk. unfold relativeIndex. replace (k <? 0) with false by lia. reflexivity. Qed.

Lemma js_slice_three {A} (l : list A) (s e : Z) :
  0 <= s <= e ->
  js_slice l 0 (Some s) ++ js_slice l s (Some e) ++ js_slice l e None = l.
Proof.
  intros H. unfold js_slice. pose proof (zlength_nonneg l) as Hl.
  rewrite !relativeIndex_nonneg by lia.
  replace (Z.min 0 (zlength l)) with 0 by lia. cbn [Z.to_nat skipn].
  rewrite Z.sub_0_r.
  set (a := Z.to_nat (Z.min s (zlength l))).
  set (b := Z.to_nat (Z.min e (zlength l))).
  replace (Z.to_nat (Z.min e (zlength l) - Z.min s (zlength l))) with (b - a)%nat by lia.
  rewrite (firstn_all2 (n := Z.to_nat (zlength l - Z.min e (zlength l))))
    by (rewrite length_skipn; unfold zlength in *; lia).
  rewrite <- (firstn_skipn a l) at 4. f_equal.
  rewrite <- (firstn_skipn (b - a) (skipn a l)) at 2. f_equal.
  rewrite skipn_skipn. f_equal. lia.
Qed.

Section Deletion.
Context {U : Unicode}.

Lemma sliceTextByGraphemes_concat (ps : list Paragraph) (index a : Z) (b : option Z)
    (p : Paragraph) :
  js_get ps index = Some p ->
  sliceTextByGraphemes ps index a b = concat (js_slice (segment (text p)) a b).
Proof.
  intros H. unfold sliceTextByGraphemes. rewrite H.
  destruct (text p) as [|c t] eqn:Ht; [| reflexivity].
  symmetry. unfold js_slice. apply concat_nil_sublist. apply segment_join.
Qed.

Lemma deleteText_within_effect (d : Document) (start end_ : Position) (p : Paragraph) :
  js_get (paragraphs d) (paragraphIndex start) = Some p ->
  paragraphIndex end_ = paragraphIndex start ->
  0 <= offset start <= offset end_ ->
  offset end_ <= getGraphemeCount (text p) ->
  let clusters := segment (text p) in
  let p1 := withText p (concat (js_slice clusters 0 (Some (offset start)))
                        ++ concat (js_slice clusters (offset end_) None)) in
  deleteText start end_ d
  = (inr tt,
     {| paragraphs :=
          js_set (paragraphs d) (paragraphIndex start)
            (updateRunLengths
               (updateRunsAfterDeletion p1 (offset start)
                  (offset end_ - offset start))) |}).
Proof.
  intros Hget Hidx Hs He clusters p1. unfold deleteText.
  assert (Hv : validRange d start end_).
  { split; [exists p; split; [assumption | lia]|].
    split; [exists p; rewrite Hidx; split; [assumption | lia]|].
    unfold startAfterEnd. rewrite Hidx. lia. }
  rewrite (bind_inr _ _ _ _ _ (validateRange_ok d start end_ Hv)).
  replace (paragraphIndex start =? paragraphIndex end_) with true by lia.
  unfold deleteWithinParagraph.
  rewrite (bind_inr _ _ _ _ _ (getParagraph_ok d _ p Hget)).
  fold clusters. unfold getGraphemeCount in He. fold clusters in He.
  replace (Z.max 0 (offset start)) with (offset start) by lia.
  replace (Z.min (zlength clusters) (offset end_)) with (offset end_) by lia.
  apply setParagraph_effect.
Qed.

(** X8.  [deleteText] inside one paragraph, on a valid range: only that paragraph
    changes; its text loses exactly the clusters of the range; it keeps its
    [yOffset]; none of its runs is empty, and they do not reach beyond the
    text when no run was empty before. *)
Theorem deleteText_within_paragraph (d : Document) (start end_ : Position)
    (p : Paragraph) :
  js_get (paragraphs d) (paragraphIndex start) = Some p ->
  paragraphIndex end_ = paragraphIndex start ->
  0 <= offset start <= offset end_ ->
  offset end_ <= getGraphemeCount (text p) ->
  let ps := paragraphs d in
  let i := paragraphIndex start in
  exists p',
    deleteText start end_ d = (inr tt, {| paragraphs := js_set ps i p' |})
    /\ text p = sliceTextByGraphemes ps i 0 (Some (offset start))
                ++ sliceTextByGraphemes ps i (offset start) (Some (offset end_))
                ++ sliceTextByGraphemes ps i (offset end_) None
    /\ text p' = sliceTextByGraphemes ps i 0 (Some (offset start))
                 ++ sliceTextByGraphemes ps i (offset end_) None
    /\ yOffset p' = yOffset p
    /\ positiveRuns (runs p')
    /\ (positiveRuns (runs p) ->
        sumLengths (runs p') <= getGraphemeCount (text p')).
Proof.
  intros Hget Hidx Hs He ps i.
  pose proof (deleteText_within_effect d start end_ p Hget Hidx Hs He) as H.
  cbv zeta in H. eexists. split; [exact H|].
  unfold ps, i. rewrite !(sliceTextByGraphemes_concat _ _ _ _ p Hget).
  split; [| split; [| split; [| split]]].
  - rewrite <- !concat_app, js_slice_three by assumption. symmetry. apply segment_join.
  - cbn [text updateRunLengths withRuns]. rewrite text_updateRunsAfterDeletion.
    reflexivity.
  - cbn [yOffset updateRunLengths withRuns].
    unfold updateRunsAfterDeletion. case_all; reflexivity.
  - apply updateRunLengths_positive.
  - intros Hpos.
    match goal with
    | |- context [updateRunLengths ?q] =>
        destruct (updateRunLengths_effect q) as (_ & Hsum & _)
    end.
    + apply positive_nonNegative, updateRunsAfterDeletion_positive. exact Hpos.
    + rewrite Hsum. cbn [text updateRunLengths withRuns]. lia.
Qed.

(** X9.  [deleteText] on an empty range changes nothing in a document whose
    paragraph has its runs in order. *)
Theorem deleteText_empty_range (d : Document) (pos : Position) (p : Paragraph) :
  js_get (paragraphs d) (paragraphIndex pos) = Some p ->
  0 <= offset pos <= getGraphemeCount (text p) ->
  ledgerInvariant p ->
  deleteText pos pos d = (inr tt, d).
Proof.
  intros Hget Hoff Hl.
  rewrite (deleteText_within_effect d pos pos p Hget eq_refl ltac:(lia) ltac:(lia)).
  rewrite <- concat_app, js_slice_split, segment_join, withText_same.
  assert (Hsame : updateRunsAfterDeletion p (offset pos) (offset pos - offset pos) = p).
  { unfold updateRunsAfterDeletion. rewrite Z.sub_diag, Z.add_0_r.
    destruct (findRunAtOffset p (offset pos)) as [k a].
    destruct (k =? -1); [reflexivity|].
    destruct (js_get (runs p) k) as [r|] eqn:G; [| reflexivity].
    rewrite Z.eqb_refl, Z.sub_0_r, withLength_same, (js_set_same _ _ _ G).
    destruct Hl as [Hpos _].
    assert (0 < length r).
    { apply js_get_In in G. unfold positiveRuns in Hpos.
      rewrite Forall_forall in Hpos. apply Hpos, G. }
    replace (length r <=? 0) with false by lia.
    apply withRuns_same. }
  rewrite Hsame, (updateRunLengths_fixed p Hl), (js_set_same _ _ _ Hget).
  destruct d; reflexivity.
Qed.
End Deletion.

Lemma runsFromOffset_positive (rs : list Run) :
  forall g e, positiveRuns (runsFromOffset rs g e).
Proof.
  induction rs as [|r rs IH]; intros g e; cbn [runsFromOffset]; [constructor|].
  apply Forall_app. split; [| apply IH].
  destruct (g + length r >? e); [| constructor].
  destruct (length r - Z.max (e - g) 0 >? 0) eqn:E; repeat constructor. cbn. lia.
Qed.

Section DeletionAcross.
Context {U : Unicode}.

Lemma updateRunsAfterMultiParagraphDeletion_nonNegative (p q : Paragraph) (s e : Z) :
  positiveRuns (runs p) ->
  nonNegativeRuns (runs (updateRunsAfterMultiParagraphDeletion p s q e)).
Proof.
  intros Hp. unfold updateRunsAfterMultiParagraphDeletion.
  destruct (findRunAtOffset p s) as [i a].
  set (trimmed := if negb (i =? -1) then _ else _).
  assert (Ht : positiveRuns trimmed).
  { unfold trimmed. destruct (negb (i =? -1)); [| constructor].
    destruct (js_get (runs p) i) as [r|]; [| exact Hp].
    destruct (a >? 0) eqn:E.
    - apply Forall_js_splice; [| constructor].
      apply Forall_js_set; [exact Hp | cbn; lia].
    - apply Forall_js_splice; [exact Hp | constructor]. }
  cbn [runs withRuns].
  set (merged := mergeAdjacentRuns _).
  assert (Hm : positiveRuns merged).
  { apply mergeAdjacentRuns_positive, Forall_app. split;
      [exact Ht | apply runsFromOffset_positive]. }
  destruct merged as [|r0 rest].
  - repeat constructor. cbn. apply getGraphemeCount_nonneg.
  - destruct (forallb _ _).
    + repeat constructor. cbn. apply getGraphemeCount_nonneg.
    + apply positive_nonNegative, Hm.
Qed.

Lemma deleteText_across_effect (d : Document) (start end_ : Position)
    (A B C : list Paragraph) (p q : Paragraph) :
  paragraphs d = A ++ p :: B ++ q :: C ->
  paragraphIndex start = zlength A ->
  paragraphIndex end_ = zlength A + 1 + zlength B ->
  0 <= offset start <= getGraphemeCount (text p) ->
  0 <= offset end_ <= getGraphemeCount (text q) ->
  let newText :=
    sliceTextByGraphemes (paragraphs d) (paragraphIndex start) 0 (Some (offset start))
    ++ sliceTextByGraphemes (paragraphs d) (paragraphIndex end_) (offset end_) None in
  deleteText start end_ d
  = (inr tt,
     {| paragraphs :=
          A ++ updateRunLengths
                 (updateRunsAfterMultiParagraphDeletion (withText p newText)
                    (offset start) q (offset end_)) :: C |}).
Proof.
  intros Hps Hsi Hei Hs He newText.
  pose proof (zlength_nonneg A). pose proof (zlength_nonneg B).
  assert (Hp : js_get (paragraphs d) (paragraphIndex start) = Some p)
    by (rewrite Hps, Hsi; apply js_get_middle).
  assert (Hq : js_get (paragraphs d) (paragraphIndex end_) = Some q).
  { rewrite Hps, Hei. replace (zlength A + 1 + zlength B) with (zlength (A ++ p :: B))
      by zlist.
    change (A ++ p :: B ++ q :: C) with (A ++ (p :: B) ++ q :: C).
    rewrite app_assoc. apply js_get_middle. }
  assert (Hv : validRange d start end_).
  { split; [exists p; split; assumption|].
    split; [exists q; split; assumption|].
    unfold startAfterEnd. lia. }
  unfold deleteText.
  rewrite (bind_inr _ _ _ _ _ (validateRange_ok d start end_ Hv)).
  replace (paragraphIndex start =? paragraphIndex end_) with false by lia.
  unfold deleteAcrossParagraphs.
  rewrite (bind_inr _ _ _ _ _ (eq_refl : getParagraphs d = (inr (paragraphs d), d))).
  rewrite (bind_inr _ _ _ _ _ (getParagraph_ok d _ p Hp)).
  rewrite (bind_inr _ _ _ _ _ (getParagraph_ok d _ q Hq)).
  fold newText. set (p' := withText p newText).
  rewrite (bind_inr _ _ _ _ _
             (eq_refl : setParagraphs
                          (js_splice (js_set (paragraphs d) (paragraphIndex start) p')
                             (paragraphIndex start + 1)
                             (Some (paragraphIndex end_ - paragraphIndex start)) [])
                          d = (inr tt, {| paragraphs := _ |}))).
  rewrite setParagraph_effect. cbn [paragraphs]. f_equal. f_equal.
  rewrite Hps, Hsi, js_set_middle.
  replace (A ++ p' :: B ++ q :: C) with ((A ++ [p']) ++ (B ++ [q]) ++ C)
    by (rewrite <- !app_assoc; reflexivity).
  replace (zlength A + 1) with (zlength (A ++ [p'])) by zlist.
  replace (paragraphIndex end_ - zlength A) with (zlength (B ++ [q])) by zlist.
  rewrite js_splice_parts. cbn [app]. rewrite <- app_assoc. cbn [app].
  apply js_set_middle.
Qed.

(** X10.  [deleteText] across paragraphs, on a valid range: the paragraphs from
    the one of [start] to the one of [end_] become a single paragraph, whose
    text is the clusters of the first before [start] followed by the
    clusters of the last from [end_] on, with the [yOffset] of the first;
    the paragraphs before and after are untouched.  None of its runs is
    empty, and they do not reach beyond the text when the first paragraph had
    no empty run. *)
Theorem deleteText_across_paragraphs (d : Document) (start end_ : Position)
    (A B C : list Paragraph) (p q : Paragraph) :
  paragraphs d = A ++ p :: B ++ q :: C ->
  paragraphIndex start = zlength A ->
  paragraphIndex end_ = zlength A + 1 + zlength B ->
  0 <= offset start <= getGraphemeCount (text p) ->
  0 <= offset end_ <= getGraphemeCount (text q) ->
  exists p',
    deleteText start end_ d = (inr tt, {| paragraphs := A ++ p' :: C |})
    /\ text p'
       = sliceTextByGraphemes (paragraphs d) (paragraphIndex start) 0
           (Some (offset start))
         ++ sliceTextByGraphemes (paragraphs d) (paragraphIndex end_)
              (offset end_) None
    /\ yOffset p' = yOffset p
    /\ positiveRuns (runs p')
    /\ (positiveRuns (runs p) ->
        sumLengths (runs p') <= getGraphemeCount (text p')).
Proof.
  intros Hps Hsi Hei Hs He.
  pose proof (deleteText_across_effect d start end_ A B C p q Hps Hsi Hei Hs He) as H.
  cbv zeta in H. eexists. split; [exact H|].
  split; [| split; [| split]].
  - cbn [text updateRunLengths withRuns].
    rewrite text_updateRunsAfterMultiParagraphDeletion. reflexivity.
  - cbn [yOffset updateRunLengths withRuns].
    unfold updateRunsAfterMultiParagraphDeletion.
    destruct (findRunAtOffset _ _). reflexivity.
  - apply updateRunLengths_positive.
  - intros Hpos.
    match goal with
    | |- context [updateRunLengths ?x] =>
        destruct (updateRunLengths_effect x) as (_ & Hsum & _)
    end.
    + apply updateRunsAfterMultiParagraphDeletion_nonNegative. exact Hpos.
    + rewrite Hsum. cbn [text updateRunLengths withRuns]. lia.
Qed.
End DeletionAcross.

Lemma deleteText_within_paragraph_example :
  exists p',
    deleteText (at_ 0 5) (at_ 0 15) testDoc
    = (inr tt, {| paragraphs := js_set (paragraphs testDoc) 0 p' |})
    /\ text firstParagraph = latin "First" ++ latin " paragraph" ++ []
    /\ text p' = latin "First" ++ []
    /\ yOffset p' = 0
    /\ positiveRuns (runs p')
    /\ (positiveRuns (runs firstParagraph) ->
        sumLengths (runs p') <= getGraphemeCount (text p')).
Proof.
  assert (Hb : 0 <= offset (at_ 0 5) <= offset (at_ 0 15)) by (cbn; lia).
  assert (Hc : offset (at_ 0 15) <= getGraphemeCount (text firstParagraph))
    by (vm_compute; discriminate).
  exact (deleteText_within_paragraph testDoc (at_ 0 5) (at_ 0 15) firstParagraph
           eq_refl eq_refl Hb Hc).
Defined.

Lemma deleteText_empty_range_example :
  deleteText (at_ 0 5) (at_ 0 5) testDoc = (inr tt, testDoc).
Proof.
  apply (deleteText_empty_range testDoc (at_ 0 5) firstParagraph);
    [reflexivity | vm_compute; split; discriminate
     | split; [repeat constructor | reflexivity]].
Defined.

Lemma deleteText_across_paragraphs_example :
  exists p',
    deleteText (at_ 0 1) (at_ 1 1) twoParagraphs = (inr tt, {| paragraphs := [p'] |})
    /\ text p' = latin "a" ++ latin "d"
    /\ yOffset p' = 0
    /\ positiveRuns (runs p')
    /\ (positiveRuns [run 2 (fontSize 16)] ->
        sumLengths (runs p') <= getGraphemeCount (text p')).
Proof.
  assert (Hs : 0 <= offset (at_ 0 1)
               <= getGraphemeCount (text (paragraph (latin "ab") [run 2 (fontSize 16)])))
    by (vm_compute; split; discriminate).
  assert (He : 0 <= offset (at_ 1 1)
               <= getGraphemeCount (text (paragraph (latin "cd") [run 2 (fontSize 14)])))
    by (vm_compute; split; discriminate).
  exact (deleteText_across_paragraphs twoParagraphs (at_ 0 1) (at_ 1 1) [] [] []
           (paragraph (latin "ab") [run 2 (fontSize 16)])
           (paragraph (latin "cd") [run 2 (fontSize 14)])
           eq_refl eq_refl eq_refl Hs He).
Defined.

(** ** The spread of two patches *)

Lemma assign_unfold (o : TextStyle) (kv : string * json) :
  assign o kv = if hasKey (fst kv) o
                then map (assigned (fst kv) (snd kv)) o
                else o ++ [kv].
Proof. reflexivity. Qed.

Lemma hasKey_app (k : string) (o o' : TextStyle) :
  hasKey k (o ++ o') = hasKey k o || hasKey k o'.
Proof. unfold hasKey. apply existsb_app. Qed.

Lemma hasKey_map_assigned (k k' : string) (v : json) (o : TextStyle) :
  hasKey k (map (assigned k' v) o) = hasKey k o.
Proof.
  unfold hasKey. induction o as [|x o IH]; [reflexivity|].
  cbn [map existsb]. rewrite IH. f_equal.
  unfold assigned. destruct (String.eqb (fst x) k'); reflexivity.
Qed.

Lemma map_assigned_absent (k : string) (v : json) (o : TextStyle) :
  hasKey k o = false -> map (assigned k v) o = o.
Proof.
  unfold hasKey. induction o as [|x o IH]; [reflexivity|].
  cbn [map existsb]. intros H. apply orb_false_iff in H. destruct H as [Hx Ho].
  rewrite (IH Ho). unfold assigned. rewrite Hx. reflexivity.
Qed.

Lemma assigned_twice (k : string) (v w : json) (x : string * json) :
  assigned k w (assigned k v x) = assigned k w x.
Proof.
  unfold assigned. destruct (String.eqb (fst x) k) eqn:E; cbn [fst]; rewrite E;
    reflexivity.
Qed.

Lemma assigned_comm (k k' : string) (v w : json) (x : string * json) :
  k <> k' -> assigned k' w (assigned k v x) = assigned k v (assigned k' w x).
Proof.
  intros Hne. unfold assigned.
  destruct (String.eqb (fst x) k) eqn:E, (String.eqb (fst x) k') eqn:E';
    cbn [fst]; rewrite ?E, ?E'; try reflexivity.
  apply String.eqb_eq in E, E'. congruence.
Qed.

Lemma assign_twice (o : TextStyle) (x kv : string * json) :
  fst x = fst kv -> assign (assign o x) kv = assign o kv.
Proof.
  intros Hk. rewrite (assign_unfold o x), (assign_unfold o kv), Hk.
  destruct (hasKey (fst kv) o) eqn:E.
  - rewrite assign_unfold, hasKey_map_assigned, E, map_map.
    apply map_ext. intros y. apply assigned_twice.
  - rewrite assign_unfold, hasKey_app, E. cbn [orb].
    unfold hasKey at 1. cbn [existsb]. rewrite Hk, String.eqb_refl. cbn [orb].
    rewrite map_app, (map_assigned_absent _ _ _ E). cbn [map].
    unfold assigned. rewrite Hk, String.eqb_refl. destruct kv; reflexivity.
Qed.

Lemma assign_comm (o : TextStyle) (x kv : string * json) :
  fst x <> fst kv -> hasKey (fst kv) o = true ->
  assign (assign o kv) x = assign (assign o x) kv.
Proof.
  intros Hne Hk. rewrite (assign_unfold o kv), Hk.
  rewrite (assign_unfold _ x), hasKey_map_assigned.
  rewrite (assign_unfold o x).
  destruct (hasKey (fst x) o) eqn:E.
  - rewrite assign_unfold, hasKey_map_assigned, Hk, !map_map.
    apply map_ext. intros y. apply assigned_comm. congruence.
  - rewrite assign_unfold, hasKey_app, Hk. cbn [orb].
    rewrite map_app. cbn [map]. f_equal.
    unfold assigned. destruct (String.eqb (fst x) (fst kv)) eqn:E'; [| reflexivity].
    apply String.eqb_eq in E'. contradiction.
Qed.

Lemma spread_snoc (s p : TextStyle) (kv : string * json) :
  spread s (p ++ [kv]) = assign (spread s p) kv.
Proof. unfold spread. rewrite fold_left_app. reflexivity. Qed.

Lemma hasKey_In (k : string) (o : TextStyle) :
  hasKey k o = true -> exists kv, In kv o /\ fst kv = k.
Proof.
  unfold hasKey. intros H. apply existsb_exists in H. destruct H as (kv & Hin & Hk).
  exists kv. split; [exact Hin | apply String.eqb_eq, Hk].
Qed.

Lemma spread_map_assigned (kv : string * json) (p : TextStyle) :
  forall s, hasKey (fst kv) p = true ->
            spread s (map (assigned (fst kv) (snd kv)) p) = assign (spread s p) kv.
Proof.
  induction p as [|x q IH] using rev_ind; intros s Hk; [discriminate|].
  rewrite map_app. cbn [map]. rewrite !spread_snoc.
  rewrite hasKey_app in Hk. unfold hasKey at 2 in Hk. cbn [existsb] in Hk.
  rewrite orb_false_r in Hk.
  destruct (String.eqb (fst x) (fst kv)) eqn:E.
  - apply String.eqb_eq in E.
    assert (Hx : assigned (fst kv) (snd kv) x = kv).
    { unfold assigned. rewrite E, String.eqb_refl. destruct kv; reflexivity. }
    rewrite Hx, (assign_twice _ x kv E).
    destruct (hasKey (fst kv) q) eqn:Eq.
    + rewrite (IH s eq_refl). apply assign_twice. reflexivity.
    + rewrite (map_assigned_absent _ _ _ Eq). reflexivity.
  - rewrite orb_false_r in Hk.
    assert (Hx : assigned (fst kv) (snd kv) x = x) by (unfold assigned; rewrite E; reflexivity).
    rewrite Hx, (IH s Hk). apply assign_comm.
    + intros Heq. rewrite Heq, String.eqb_refl in E. discriminate.
    + apply hasKey_spread. right. apply hasKey_In, Hk.
Qed.

Lemma spread_assign (s p : TextStyle) (kv : string * json) :
  spread s (assign p kv) = assign (spread s p) kv.
Proof.
  rewrite (assign_unfold p kv). destruct (hasKey (fst kv) p) eqn:E.
  - apply spread_map_assigned, E.
  - apply spread_snoc.
Qed.

(** [{ ...{ ...s, ...p1 }, ...p2 }] is [{ ...s, ...{ ...p1, ...p2 } }]. *)
Lemma spread_assoc (p2 : TextStyle) :
  forall s p1, spread (spread s p1) p2 = spread s (spread p1 p2).
Proof.
  induction p2 as [|kv p2 IH]; intros s p1; [reflexivity|].
  change (spread p1 (kv :: p2)) with (spread (assign p1 kv) p2).
  change (spread (spread s p1) (kv :: p2)) with (spread (assign (spread s p1) kv) p2).
  rewrite <- IH, spread_assign. reflexivity.
Qed.

(** ** Styling, grapheme by grapheme *)

Lemma styleLoop_sum (a b : Z) (patch : TextStyle) (rs : list Run) :
  forall o, sumLengths (styleLoop rs o a b patch) = sumLengths rs.
Proof.
  induction rs as [|r rs IH]; intros o; [reflexivity|].
  cbn [styleLoop]. rewrite sumLengths_app, IH, sumLengths_cons. f_equal.
  destruct ((o + length r <=? a) || (o >=? b)) eqn:E; [sums|].
  destruct (o <? a) eqn:E1, (o + length r >? b) eqn:E2; sums.
Qed.

Lemma styleLoop_nonNegative (a b : Z) (patch : TextStyle) (rs : list Run) :
  nonNegativeRuns rs -> a <= b ->
  forall o, nonNegativeRuns (styleLoop rs o a b patch).
Proof.
  intros Hnn Hab. induction Hnn as [|r rs Hr _ IH]; intros o; [constructor|].
  cbn [styleLoop]. apply Forall_app. split; [| apply IH].
  destruct ((o + length r <=? a) || (o >=? b)) eqn:E; [repeat constructor; exact Hr|].
  apply orb_false_iff in E. destruct E as [E E'].
  destruct (o <? a) eqn:E1, (o + length r >? b) eqn:E2;
    repeat constructor; cbn; lia.
Qed.

Lemma patchFrom_compose (a b : Z) (p1 p2 : TextStyle) (l : list TextStyle) :
  forall o, patchFrom a b p2 o (patchFrom a b p1 o l)
            = patchFrom a b (spread p1 p2) o l.
Proof.
  induction l as [|s l IH]; intros o; [reflexivity|].
  cbn [patchFrom]. rewrite IH. f_equal.
  destruct ((a <=? o) && (o <? b)); [apply spread_assoc | reflexivity].
Qed.

Lemma patchFrom_absorbed (a b : Z) (patch : TextStyle) (l : list TextStyle) :
  Forall (fun s => spread s patch = s) l ->
  forall o, patchFrom a b patch o l = l.
Proof.
  induction 1 as [|s l Hs _ IH]; intros o; [reflexivity|].
  cbn [patchFrom]. rewrite IH, Hs. destruct ((a <=? o) && (o <? b)); reflexivity.
Qed.

Lemma Forall_expand (P : TextStyle -> Prop) (rs : list Run) :
  Forall (fun r => P (style r)) rs -> Forall P (expand rs).
Proof.
  induction 1 as [|r rs Hr _ IH]; [constructor|].
  rewrite expand_cons. apply Forall_app. split; [| exact IH].
  apply Forall_forall. intros s Hs. apply repeat_spec in Hs. subst s. exact Hr.
Qed.

Lemma expand_styledRuns (a b : Z) (patch : TextStyle) (rs : list Run) :
  nonNegativeRuns rs -> a <= b ->
  expand (styledRuns a b patch rs) = patchFrom a b patch 0 (expand rs).
Proof.
  intros Hnn Hab. unfold styledRuns.
  rewrite expand_mergeAdjacentRuns by (apply styleLoop_nonNegative; assumption).
  apply expand_styleLoop; assumption.
Qed.

Lemma styledRuns_positive (a b : Z) (patch : TextStyle) (rs : list Run) :
  positiveRuns rs -> a < b \/ b <= 0 \/ sumLengths rs <= a ->
  positiveRuns (styledRuns a b patch rs).
Proof.
  intros Hpos H. unfold styledRuns. apply mergeAdjacentRuns_positive.
  destruct (Z_lt_dec a b) as [Hlt | Hge].
  - apply styleLoop_positive; assumption.
  - rewrite styleLoop_unchanged; [exact Hpos | apply positive_nonNegative, Hpos | lia].
Qed.

Lemma styledRuns_rle (a b : Z) (patch : TextStyle) (rs : list Run) :
  positiveRuns rs -> a < b ->
  styledRuns a b patch rs = rle (patchFrom a b patch 0 (expand rs)).
Proof.
  intros Hpos Hab. unfold styledRuns.
  rewrite mergeAdjacentRuns_rle by (apply styleLoop_positive; assumption).
  rewrite expand_styleLoop by (try apply positive_nonNegative; try lia; assumption).
  reflexivity.
Qed.

Lemma styledRuns_compose (a b : Z) (p1 p2 : TextStyle) (rs : list Run) :
  positiveRuns rs -> a < b \/ b <= 0 \/ sumLengths rs <= a ->
  styledRuns a b p2 (styledRuns a b p1 rs) = styledRuns a b (spread p1 p2) rs.
Proof.
  intros Hpos H. destruct (Z_lt_dec a b) as [Hlt | Hge].
  - rewrite (styledRuns_rle a b p2) by (try apply styledRuns_positive; auto).
    rewrite expand_styledRuns by (try apply positive_nonNegative; try lia; assumption).
    rewrite patchFrom_compose. symmetry. apply styledRuns_rle; assumption.
  - pose proof (positive_nonNegative _ Hpos) as Hnn.
    unfold styledRuns.
    rewrite !(styleLoop_unchanged a b _ rs Hnn 0) by lia.
    rewrite styleLoop_unchanged.
    + apply mergeAdjacentRuns_idempotent.
    + apply mergeAdjacentRuns_nonNegative, Hnn.
    + rewrite mergeAdjacentRuns_sum. lia.
Qed.

Lemma styledRuns_absorbed (a b : Z) (patch : TextStyle) (rs : list Run) :
  positiveRuns rs -> noAdjacentEqual rs ->
  a < b \/ b <= 0 \/ sumLengths rs <= a ->
  Forall (fun r => spread (style r) patch = style r) rs ->
  styledRuns a b patch rs = rs.
Proof.
  intros Hpos Hmerged H Habs. destruct (Z_lt_dec a b) as [Hlt | Hge].
  - rewrite styledRuns_rle by assumption.
    rewrite patchFrom_absorbed by (apply Forall_expand; exact Habs).
    rewrite <- mergeAdjacentRuns_rle by assumption.
    apply mergeAdjacentRuns_fixed, Hmerged.
  - unfold styledRuns.
    rewrite styleLoop_unchanged by (try apply positive_nonNegative; try lia; assumption).
    apply mergeAdjacentRuns_fixed, Hmerged.
Qed.

Lemma Forall_js_get {A} (P : A -> Prop) (l : list A) :
  (forall j x, js_get l j = Some x -> P x) -> Forall P l.
Proof.
  intros H. apply Forall_forall. intros x Hin.
  apply In_nth_error in Hin. destruct Hin as [n Hn].
  apply (H (Z.of_nat n)). rewrite js_get_nth by lia.
  rewrite Nat2Z.id. exact Hn.
Qed.

Lemma Forall_js_get_inv {A} (P : A -> Prop) (l : list A) (j : Z) (x : A) :
  Forall P l -> js_get l j = Some x -> P x.
Proof.
  intros H Hj. rewrite Forall_forall in H. apply H. exact (js_get_In _ _ _ Hj).
Qed.

Section StyledRange.
Context {U : Unicode}.

Lemma styledParagraph_styledRange (patch : TextStyle) (start end_ : Position) (i : Z)
    (p : Paragraph) :
  styledParagraph patch start end_ i p
  = match styledRange start end_ i (getGraphemeCount (text p)) with
    | Some (a, b) => restyleRange patch a b p
    | None => p
    end.
Proof.
  unfold styledParagraph, styledRange, restyleWhole.
  destruct (paragraphIndex start =? paragraphIndex end_).
  - destruct (i =? paragraphIndex start); reflexivity.
  - destruct (i =? paragraphIndex start); [reflexivity|].
    destruct ((paragraphIndex start <? i) && (i <? paragraphIndex end_)); [reflexivity|].
    destruct (i =? paragraphIndex end_); reflexivity.
Qed.

Lemma styledRange_bounds (d : Document) (start end_ : Position) (i a b : Z)
    (p : Paragraph) :
  validRange d start end_ ->
  js_get (paragraphs d) i = Some p ->
  styledRange start end_ i (getGraphemeCount (text p)) = Some (a, b) ->
  0 <= a <= b /\ b <= getGraphemeCount (text p)
  /\ (start <> end_ -> a < b \/ b <= 0 \/ getGraphemeCount (text p) <= a).
Proof.
  intros [[ps [Hps Hso]] [[pe [Hpe Heo]] Hord]] Hp Hr.
  unfold startAfterEnd in Hord. unfold styledRange in Hr.
  pose proof (getGraphemeCount_nonneg (text p)) as Hc.
  destruct (paragraphIndex start =? paragraphIndex end_) eqn:E0.
  - destruct (i =? paragraphIndex start) eqn:E1; [| discriminate].
    injection Hr as <- <-.
    assert (i = paragraphIndex start) by lia.
    assert (i = paragraphIndex end_) by lia.
    assert (p = ps) by congruence. assert (p = pe) by congruence. subst ps pe.
    split; [lia|]. split; [lia|]. intros Hne. left.
    assert (offset start <> offset end_).
    { intros Ho. apply Hne. destruct start, end_. cbn in *. f_equal; lia. }
    lia.
  - destruct (i =? paragraphIndex start) eqn:E1.
    + injection Hr as <- <-.
      assert (p = ps) by (assert (i = paragraphIndex start) by lia; congruence).
      subst ps. lia.
    + destruct ((paragraphIndex start <? i) && (i <? paragraphIndex end_)) eqn:E2.
      * injection Hr as <- <-. lia.
      * destruct (i =? paragraphIndex end_) eqn:E3; [| discriminate].
        injection Hr as <- <-.
        assert (p = pe) by (assert (i = paragraphIndex end_) by lia; congruence).
        subst pe. lia.
Qed.
End StyledRange.

Section ApplyStyleEffects.
Context {U : Unicode}.

Lemma restyleRange_text (patch : TextStyle) (a b : Z) (p : Paragraph) :
  text (restyleRange patch a b p) = text p.
Proof. reflexivity. Qed.

Lemma documents_equal (d d' : Document) :
  (forall j, js_get (paragraphs d') j = js_get (paragraphs d) j) -> d' = d.
Proof.
  intros H. destruct d as [ps], d' as [ps']. cbn [paragraphs] in H. f_equal.
  apply js_get_ext, H.
Qed.

(** X11.  [applyStyle] on a valid range, grapheme by grapheme: in every paragraph
    that the range touches, the graphemes of the range take the style of
    their run overlaid with the patch and the others keep theirs, and the
    runs are merged; the other paragraphs are untouched. *)
Theorem applyStyle_styles (d : Document) (start end_ : Position) (patch : TextStyle) :
  validRange d start end_ ->
  Forall (fun p => nonNegativeRuns (runs p)) (paragraphs d) ->
  exists d',
    applyStyle start end_ patch d = (inr tt, d')
    /\ zlength (paragraphs d') = zlength (paragraphs d)
    /\ forall i p,
         js_get (paragraphs d) i = Some p ->
         exists p',
           js_get (paragraphs d') i = Some p'
           /\ text p' = text p
           /\ match styledRange start end_ i (getGraphemeCount (text p)) with
              | Some (a, b) =>
                  expand (runs p') = patchFrom a b patch 0 (expand (runs p))
                  /\ noAdjacentEqual (runs p')
              | None => p' = p
              end.
Proof.
  intros Hv Hnn.
  destruct (applyStyle_valid patch d start end_ Hv) as (d' & Hd' & Hj).
  exists d'. split; [exact Hd'|]. split.
  - apply js_get_length. intros j. rewrite Hj.
    destruct (js_get (paragraphs d) j); cbn; split; congruence.
  - intros i p Hp. rewrite Hj, Hp. cbn [option_map].
    eexists. split; [reflexivity|]. split; [apply styledParagraph_text|].
    rewrite styledParagraph_styledRange.
    destruct (styledRange start end_ i (getGraphemeCount (text p))) as [[a b]|] eqn:Hr;
      [| reflexivity].
    destruct (styledRange_bounds d start end_ i a b p Hv Hp Hr) as (Hab & _).
    split.
    + apply expand_styledRuns; [| lia].
      exact (Forall_js_get_inv _ _ _ _ Hnn Hp).
    + apply mergeAdjacentRuns_noAdjacentEqual.
Qed.

Lemma restyleRange_ledger (patch : TextStyle) (a b : Z) (p : Paragraph) :
  ledgerInvariant p ->
  a < b \/ b <= 0 \/ getGraphemeCount (text p) <= a ->
  ledgerInvariant (restyleRange patch a b p).
Proof.
  intros [Hpos Hsum] H. split.
  - apply styledRuns_positive; [exact Hpos | lia].
  - cbn [runs text restyleRange withRuns]. unfold styledRuns.
    rewrite mergeAdjacentRuns_sum, styleLoop_sum. exact Hsum.
Qed.

(** X12.  [applyStyle] on a valid range that is not empty keeps every ledger in
    order: afterwards, as before, no run is empty and the runs of each
    paragraph add up to the number of its grapheme clusters. *)
Theorem applyStyle_keeps_ledger (d : Document) (start end_ : Position)
    (patch : TextStyle) :
  ledgerInvariants d ->
  validRange d start end_ ->
  start <> end_ ->
  exists d', applyStyle start end_ patch d = (inr tt, d') /\ ledgerInvariants d'.
Proof.
  intros Hinv Hv Hne.
  destruct (applyStyle_valid patch d start end_ Hv) as (d' & Hd' & Hj).
  exists d'. split; [exact Hd'|].
  apply Forall_js_get. intros j p' Hp'. rewrite Hj in Hp'.
  destruct (js_get (paragraphs d) j) as [p|] eqn:Hp; [| discriminate].
  cbn [option_map] in Hp'. injection Hp' as <-.
  pose proof (Forall_js_get_inv _ _ _ _ Hinv Hp) as Hl.
  rewrite styledParagraph_styledRange.
  destruct (styledRange start end_ j (getGraphemeCount (text p))) as [[a b]|] eqn:Hr;
    [| exact Hl].
  destruct (styledRange_bounds d start end_ j a b p Hv Hp Hr) as (_ & _ & Hside).
  apply restyleRange_ledger; [exact Hl | exact (Hside Hne)].
Qed.

Lemma applyStyle_twice_pointwise (d : Document) (start end_ : Position)
    (p1 p2 : TextStyle) :
  validRange d start end_ ->
  exists d1 d2,
    applyStyle start end_ p1 d = (inr tt, d1)
    /\ applyStyle start end_ p2 d1 = (inr tt, d2)
    /\ forall j, js_get (paragraphs d2) j
                 = option_map (fun p => styledParagraph p2 start end_ j
                                          (styledParagraph p1 start end_ j p))
                     (js_get (paragraphs d) j).
Proof.
  intros Hv.
  destruct (applyStyle_valid p1 d start end_ Hv) as (d1 & Hd1 & Hj1).
  assert (Hv1 : validRange d1 start end_).
  { apply (validRange_same_texts d); [| exact Hv]. intros j. rewrite Hj1.
    destruct (js_get (paragraphs d) j); [| reflexivity].
    cbn [option_map]. rewrite styledParagraph_text. reflexivity. }
  destruct (applyStyle_valid p2 d1 start end_ Hv1) as (d2 & Hd2 & Hj2).
  exists d1, d2. split; [exact Hd1|]. split; [exact Hd2|].
  intros j. rewrite Hj2, Hj1. destruct (js_get (paragraphs d) j); reflexivity.
Qed.

(** X13.  Two calls of [applyStyle] on the same range, with the patches [p1] and
    then [p2], leave the document that one call with [{ ...p1, ...p2 }]
    leaves: on a document whose ledgers are in order, for a range that is
    not empty. *)
Theorem applyStyle_composes (d : Document) (start end_ : Position)
    (p1 p2 : TextStyle) :
  ledgerInvariants d ->
  start <> end_ ->
  snd (applyStyle start end_ p2 (snd (applyStyle start end_ p1 d)))
  = snd (applyStyle start end_ (spread p1 p2) d).
Proof.
  intros Hinv Hne.
  destruct (validRange_dec d start end_) as [Hv | Hnv].
  - destruct (applyStyle_twice_pointwise d start end_ p1 p2 Hv)
      as (d1 & d2 & Hd1 & Hd2 & Hj2).
    destruct (applyStyle_valid (spread p1 p2) d start end_ Hv) as (d12 & Hd12 & Hj12).
    rewrite Hd1. cbn [snd]. rewrite Hd2, Hd12. cbn [snd].
    apply documents_equal. intros j. rewrite Hj2, Hj12.
    destruct (js_get (paragraphs d) j) as [p|] eqn:Hp; [| reflexivity].
    cbn [option_map]. f_equal.
    pose proof (Forall_js_get_inv _ _ _ _ Hinv Hp) as [Hpos Hsum].
    rewrite (styledParagraph_styledRange p2), styledParagraph_text.
    rewrite !styledParagraph_styledRange.
    destruct (styledRange start end_ j (getGraphemeCount (text p))) as [[a b]|] eqn:Hr;
      [| reflexivity].
    destruct (styledRange_bounds d start end_ j a b p Hv Hp Hr) as (_ & _ & Hside).
    unfold restyleRange, withRuns. cbn [runs text yOffset]. f_equal.
    apply styledRuns_compose; [exact Hpos | rewrite Hsum; exact (Hside Hne)].
  - destruct (applyStyle_invalid p1 d start end_ Hnv) as [e1 He1].
    destruct (applyStyle_invalid p2 d start end_ Hnv) as [e2 He2].
    destruct (applyStyle_invalid (spread p1 p2) d start end_ Hnv) as [e He].
    rewrite He1. cbn [snd]. rewrite He2, He. reflexivity.
Qed.

(** X14.  [applyStyle] with a patch that the style of every run already holds
    (the empty patch, for one) changes nothing: on a document whose ledgers
    are in order and whose runs are merged, for a valid range that is not
    empty. *)
Theorem applyStyle_absorbed_patch (d : Document) (start end_ : Position)
    (patch : TextStyle) :
  ledgerInvariants d ->
  maximallyMerged d ->
  validRange d start end_ ->
  start <> end_ ->
  Forall (fun p => Forall (fun r => spread (style r) patch = style r) (runs p))
    (paragraphs d) ->
  applyStyle start end_ patch d = (inr tt, d).
Proof.
  intros Hinv Hmerged Hv Hne Habs.
  destruct (applyStyle_valid patch d start end_ Hv) as (d' & Hd' & Hj).
  rewrite Hd'. f_equal. apply documents_equal. intros j. rewrite Hj.
  destruct (js_get (paragraphs d) j) as [p|] eqn:Hp; [| reflexivity].
  cbn [option_map]. f_equal.
  pose proof (Forall_js_get_inv _ _ _ _ Hinv Hp) as [Hpos Hsum].
  rewrite styledParagraph_styledRange.
  destruct (styledRange start end_ j (getGraphemeCount (text p))) as [[a b]|] eqn:Hr;
    [| reflexivity].
  destruct (styledRange_bounds d start end_ j a b p Hv Hp Hr) as (_ & _ & Hside).
  unfold restyleRange. rewrite styledRuns_absorbed.
  - apply withRuns_same.
  - exact Hpos.
  - exact (Forall_js_get_inv _ _ _ _ Hmerged Hp).
  - rewrite Hsum. exact (Hside Hne).
  - exact (Forall_js_get_inv _ _ _ _ Habs Hp).
Qed.
End ApplyStyleEffects.

Lemma twoParagraphs_valid : validRange twoParagraphs (at_ 0 1) (at_ 1 1).
Proof.
  split; [eexists; split; [reflexivity | vm_compute; split; discriminate]|].
  split; [eexists; split; [reflexivity | vm_compute; split; discriminate]|].
  reflexivity.
Qed.

Lemma twoParagraphs_ledger : ledgerInvariants twoParagraphs.
Proof. repeat constructor. Qed.

Lemma applyStyle_styles_example :
  exists d',
    applyStyle (at_ 0 1) (at_ 1 1) (fontSize 20) twoParagraphs = (inr tt, d')
    /\ zlength (paragraphs d') = zlength (paragraphs twoParagraphs)
    /\ forall i p,
         js_get (paragraphs twoParagraphs) i = Some p ->
         exists p',
           js_get (paragraphs d') i = Some p'
           /\ text p' = text p
           /\ match styledRange (at_ 0 1) (at_ 1 1) i (getGraphemeCount (text p)) with
              | Some (a, b) =>
                  expand (runs p') = patchFrom a b (fontSize 20) 0 (expand (runs p))
                  /\ noAdjacentEqual (runs p')
              | None => p' = p
              end.
Proof.
  apply (applyStyle_styles twoParagraphs (at_ 0 1) (at_ 1 1) (fontSize 20)).
  - exact twoParagraphs_valid.
  - repeat constructor; cbn; lia.
Defined.

Lemma applyStyle_keeps_ledger_example :
  exists d',
    applyStyle (at_ 0 1) (at_ 1 1) (fontSize 20) twoParagraphs = (inr tt, d')
    /\ ledgerInvariants d'.
Proof.
  apply (applyStyle_keeps_ledger twoParagraphs (at_ 0 1) (at_ 1 1) (fontSize 20)).
  - exact twoParagraphs_ledger.
  - exact twoParagraphs_valid.
  - discriminate.
Defined.

Lemma applyStyle_composes_example :
  snd (applyStyle (at_ 0 1) (at_ 1 1) bold
         (snd (applyStyle (at_ 0 1) (at_ 1 1) (fontSize 20) twoParagraphs)))
  = snd (applyStyle (at_ 0 1) (at_ 1 1) (spread (fontSize 20) bold) twoParagraphs).
Proof.
  apply (applyStyle_composes twoParagraphs (at_ 0 1) (at_ 1 1) (fontSize 20) bold).
  - exact twoParagraphs_ledger.
  - discriminate.
Defined.

Lemma applyStyle_absorbed_patch_example :
  applyStyle (at_ 0 1) (at_ 1 1) [] twoParagraphs = (inr tt, twoParagraphs).
Proof.
  apply (applyStyle_absorbed_patch twoParagraphs (at_ 0 1) (at_ 1 1) []).
  - exact twoParagraphs_ledger.
  - repeat constructor.
  - exact twoParagraphs_valid.
  - discriminate.
  - repeat constructor.
Defined.

(** ** Copy *)

Lemma js_get_app_middle {A} (P M S : list A) (k : Z) :
  0 <= k < zlength M -> js_get (P ++ M ++ S) (zlength P + k) = js_get M k.
Proof.
  intros Hk. pose proof (zlength_nonneg P) as HP.
  rewrite !js_get_nth by lia.
  replace (Z.to_nat (zlength P + k)) with (List.length P + Z.to_nat k)%nat by zlist.
  rewrite nth_error_app2 by lia.
  replace (List.length P + Z.to_nat k - List.length P)%nat with (Z.to_nat k) by lia.
  apply nth_error_app1. zlist.
Qed.

Lemma js_get_cons {A} (x : A) (l : list A) (k : Z) :
  0 < k -> js_get (x :: l) k = js_get l (k - 1).
Proof.
  intros Hk. rewrite !js_get_nth by lia.
  replace (Z.to_nat k) with (S (Z.to_nat (k - 1))) by lia. reflexivity.
Qed.

Lemma js_get_app_left {A} (l l' : list A) (k : Z) :
  k < zlength l -> js_get (l ++ l') k = js_get l k.
Proof.
  intros Hk. unfold js_get. destruct (k <? 0) eqn:E; [reflexivity|].
  apply nth_error_app1. zlist.
Qed.

Section CopyEntries.
Context {U : Unicode}.

Lemma copyText_effect (d : Document) (start end_ : Position) (p q : Paragraph) :
  validRange d start end_ ->
  js_get (paragraphs d) (paragraphIndex start) = Some p ->
  js_get (paragraphs d) (paragraphIndex end_) = Some q ->
  copyText start end_ d
  = (inr (if paragraphIndex start =? paragraphIndex end_
          then [extractTextRange p (offset start) (offset end_)]
          else extractTextRange p (offset start) (getGraphemeCount (text p))
               :: map wholeParagraph
                    (js_slice (paragraphs d) (paragraphIndex start + 1)
                       (Some (paragraphIndex end_)))
               ++ [extractTextRange q 0 (offset end_)]),
     d).
Proof.
  intros Hv Hp Hq. unfold copyText.
  rewrite (bind_inr _ _ _ _ _ (validateRange_ok d start end_ Hv)).
  destruct (paragraphIndex start =? paragraphIndex end_) eqn:E.
  - rewrite (bind_inr _ _ _ _ _ (getParagraph_ok d _ p Hp)). reflexivity.
  - rewrite (bind_inr _ _ _ _ _ (getParagraph_ok d _ p Hp)).
    unfold bind at 1. unfold getParagraphs.
    rewrite (bind_inr _ _ _ _ _ (getParagraph_ok d _ q Hq)). reflexivity.
Qed.

(** X15.  [copyText] on a valid range reads the document and leaves it as it is;
    the clipboard holds one entry for each paragraph of the range, and the
    entry of a paragraph strictly between the first and the last holds the
    whole text and all the runs of that paragraph. *)
Theorem copyText_entries (d : Document) (start end_ : Position) :
  validRange d start end_ ->
  exists clip,
    copyText start end_ d = (inr clip, d)
    /\ zlength clip = paragraphIndex end_ - paragraphIndex start + 1
    /\ forall k, 0 < k < paragraphIndex end_ - paragraphIndex start ->
                 js_get clip k
                 = option_map wholeParagraph
                     (js_get (paragraphs d) (paragraphIndex start + k)).
Proof.
  intros Hv. pose proof Hv as [[p [Hp Hso]] [[q [Hq Heo]] Hord]].
  rewrite (copyText_effect d start end_ p q Hv Hp Hq).
  eexists. split; [reflexivity|].
  unfold startAfterEnd in Hord.
  destruct (paragraphIndex start =? paragraphIndex end_) eqn:E.
  - split; [zlist | intros k Hk; lia].
  - apply js_get_Some_range in Hp, Hq.
    assert (Hlt : paragraphIndex start < paragraphIndex end_) by zbool.
    destruct (list_split3 (paragraphs d) (paragraphIndex start + 1) (paragraphIndex end_)
                ltac:(lia) ltac:(lia)) as (P & M & S & Hps & HP & HM).
    assert (Hslice : js_slice (paragraphs d) (paragraphIndex start + 1)
                       (Some (paragraphIndex end_)) = M).
    { rewrite Hps, <- HP.
      replace (paragraphIndex end_) with (zlength P + zlength M) by lia.
      apply js_slice_parts. }
    rewrite Hslice. split.
    + rewrite zlength_cons, zlength_app, zlength_map. zlist.
    + intros k Hk. rewrite js_get_cons by lia.
      rewrite js_get_app_left by (rewrite zlength_map; lia).
      rewrite js_get_map, Hps.
      replace (paragraphIndex start + k) with (zlength P + (k - 1)) by lia.
      rewrite js_get_app_middle by lia. reflexivity.
Qed.
End CopyEntries.

Lemma skipn_repeat {A} (x : A) (n k : nat) :
  skipn k (repeat x n) = repeat x (n - k).
Proof.
  revert k; induction n as [|n IH]; intros [|k]; cbn; try reflexivity. apply IH.
Qed.

Lemma firstn_skipn_app_left {A} (X Y : list A) (s k : nat) :
  (s + k <= List.length X)%nat ->
  firstn k (skipn s (X ++ Y)) = firstn k (skipn s X).
Proof.
  intros H. rewrite skipn_app, firstn_app, length_skipn.
  replace (k - (List.length X - s))%nat with 0%nat by lia.
  rewrite firstn_O, app_nil_r. reflexivity.
Qed.

Lemma extractLoop_positive (rs : list Run) :
  forall c s e, positiveRuns (extractLoop rs c s e).
Proof.
  induction rs as [|r rs IH]; intros c s e; cbn [extractLoop]; [constructor|].
  apply Forall_app. split; [| apply IH].
  destruct (Z.min (length r) (e - c) >? Z.max 0 (s - c)) eqn:E;
    repeat constructor. cbn. lia.
Qed.

(** The runs that the extraction loop emits carry the styles of the
    graphemes [s .. e - 1], counted from the first grapheme of the runs it
    is given. *)
Lemma extractLoop_expand (rs : list Run) :
  nonNegativeRuns rs ->
  forall c s e,
    expand (extractLoop rs c s e)
    = firstn (Z.to_nat (e - c) - Z.to_nat (s - c))
        (skipn (Z.to_nat (s - c)) (expand rs)).
Proof.
  induction 1 as [|r rs Hr _ IH]; intros c s e; cbn [extractLoop].
  - rewrite skipn_nil, firstn_nil. reflexivity.
  - rewrite expand_app, IH, expand_cons.
    rewrite skipn_app, firstn_app, skipn_repeat, firstn_repeat.
    rewrite !repeat_length. f_equal.
    + destruct (Z.min (length r) (e - c) >? Z.max 0 (s - c)) eqn:E.
      * cbn. rewrite app_nil_r. f_equal. lia.
      * cbn. replace (Nat.min _ _) with 0%nat by lia. reflexivity.
    + f_equal; [lia|]. f_equal. lia.
Qed.

Section CopiedRuns.
Context {U : Unicode}.

(** X16.  [extractTextRange] on a range that starts inside the first run of the
    paragraph: the runs of the clipboard entry are not empty and carry,
    grapheme by grapheme, the styles of the range.  (The loop counts its
    offsets from the run that holds the start, which is the start of the
    paragraph in this case.) *)
Theorem extractTextRange_styles (p : Paragraph) (s e : Z) :
  nonNegativeRuns (runs p) -> 0 <= s <= e ->
  fst (findRunAtOffset p s) = 0 ->
  let entry := extractTextRange p s e in
  positiveRuns (Clipboard.runs entry)
  /\ expand (Clipboard.runs entry)
     = firstn (Z.to_nat (e - s)) (skipn (Z.to_nat s) (expand (runs p))).
Proof.
  intros Hnn Hse Hk entry. unfold entry, extractTextRange.
  destruct (findRunAtOffset p s) as [k a]. cbn [fst] in Hk. subst k.
  destruct (findRunAtOffset p e) as [j b] eqn:Hj. cbn [Z.eqb Clipboard.runs].
  split; [apply extractLoop_positive|].
  rewrite extractLoop_expand.
  - rewrite !Z.sub_0_r. replace (Z.to_nat e - Z.to_nat s)%nat with (Z.to_nat (e - s)) by lia.
    unfold findRunAtOffset in Hj.
    destruct (Z_lt_dec e (sumLengths (runs p))) as [Hlt | Hge].
    + destruct (findRunLoop_split (runs p) e Hnn ltac:(lia)) as (P & r & S & HP & Hf & Hb).
      rewrite Hf in Hj. injection Hj as <- _.
      pose proof (zlength_nonneg P) as HzP.
      replace (zlength P >=? 0) with true by lia.
      rewrite HP. change (P ++ r :: S) with (P ++ [r] ++ S). rewrite app_assoc.
      replace (zlength P + 1) with (zlength (P ++ [r])) by zlist.
      rewrite js_slice_prefix, (expand_app (P ++ [r]) S).
      rewrite HP in Hnn. change (P ++ r :: S) with (P ++ [r] ++ S) in Hnn.
      rewrite app_assoc in Hnn. apply Forall_app in Hnn. destruct Hnn as [Hnn _].
      pose proof (zlength_expand _ Hnn) as Hl. rewrite sumLengths_app in Hl.
      unfold zlength in Hl. cbn in Hl.
      symmetry. apply firstn_skipn_app_left. lia.
    + rewrite findRunLoop_beyond in Hj by (try assumption; lia).
      injection Hj as <- _. cbn [Z.geb Z.compare].
      replace (zlength (runs p) - 1 + 1) with (zlength (runs p)) by lia.
      rewrite <- (app_nil_r (runs p)) at 1. rewrite js_slice_prefix. reflexivity.
  - unfold js_slice. apply Forall_firstn_keep, Forall_skipn_keep, Hnn.
Qed.
End CopiedRuns.

(** ** Paste (the second source) *)

Lemma js_slice_all {A} (l : list A) : js_slice l 0 (Some (zlength l)) = l.
Proof. rewrite <- (app_nil_r l) at 1. apply js_slice_prefix. Qed.

Lemma js_slice_after {A} (P S : list A) (x : A) :
  js_slice (P ++ x :: S) (zlength P + 1) None = S.
Proof.
  change (P ++ x :: S) with (P ++ [x] ++ S). rewrite app_assoc.
  replace (zlength P + 1) with (zlength (P ++ [x])) by zlist.
  apply js_slice_suffix.
Qed.

Lemma insertRunsAtOffset_expand (p : Paragraph) (off : Z) (ins : list Run) :
  nonNegativeRuns (runs p) -> nonNegativeRuns ins -> 0 <= off ->
  let p' := Part001.insertRunsAtOffset p off ins in
  sumLengths (runs p') = sumLengths (runs p) + sumLengths ins
  /\ nonNegativeRuns (runs p')
  /\ expand (runs p')
     = firstn (Z.to_nat off) (expand (runs p)) ++ expand ins
       ++ skipn (Z.to_nat off) (expand (runs p)).
Proof.
  intros Hnn Hins Hoff p'. subst p'. unfold Part001.insertRunsAtOffset.
  pose proof (seekRun_findRunLoop (runs p) off 0 0 ltac:(lia)) as Hseek.
  destruct (Z_lt_dec off (sumLengths (runs p))) as [Hlt | Hge].
  - destruct (findRunLoop_split (runs p) off Hnn ltac:(lia)) as (P & r & S & HP & Hf & Hb).
    rewrite Hf in Hseek. pose proof (zlength_nonneg P) as HzP.
    replace (zlength P =? -1) with false in Hseek by lia.
    rewrite Hseek. replace (off - (off - sumLengths P)) with (sumLengths P) by lia.
    rewrite HP, js_get_middle, js_slice_prefix, js_slice_after.
    replace (off - sumLengths P <? length r) with true by lia.
    rewrite HP in Hnn. apply Forall_app in Hnn. destruct Hnn as [HnP HnS].
    inversion HnS as [|? ? Hr HnS']; subst.
    destruct (firstn_skipn_expand_split P S r off HnP Hb) as [Hfirst Hskip].
    rewrite Hfirst, Hskip. cbn [runs withRuns].
    set (pre := if off - sumLengths P >? 0
                then [{| length := off - sumLengths P; style := style r |}] else []).
    assert (Hpre : expand pre = repeat (style r) (Z.to_nat (off - sumLengths P))
                   /\ sumLengths pre = off - sumLengths P /\ nonNegativeRuns pre).
    { unfold pre. destruct (off - sumLengths P >? 0) eqn:E1.
      - split; [cbn; apply app_nil_r | split; [sums | repeat constructor; cbn; lia]].
      - replace (Z.to_nat (off - sumLengths P)) with 0%nat by lia.
        split; [reflexivity | split; [sums | constructor]]. }
    destruct Hpre as (Hpe & Hps & Hpn).
    assert (Hnew : nonNegativeRuns
                     (P ++ pre ++ ins
                        ++ [{| length := length r - (off - sumLengths P);
                               style := style r |}] ++ S)).
    { repeat (apply Forall_app; split); try assumption.
      repeat constructor. cbn. lia. }
    split; [| split].
    + rewrite mergeAdjacentRuns_sum. rewrite !sumLengths_app, Hps. sums.
    + apply mergeAdjacentRuns_nonNegative, Hnew.
    + rewrite expand_mergeAdjacentRuns by exact Hnew.
      rewrite !expand_app, Hpe, <- !app_assoc. do 3 f_equal.
      cbn [expand flat_map length style]. rewrite app_nil_r. do 2 f_equal. lia.
  - rewrite findRunLoop_beyond in Hseek by (try assumption; lia).
    rewrite Z.eqb_refl in Hseek.
    destruct (Part001.seekRun (runs p) 0 0 off) as [i c]. cbn [fst] in Hseek. subst i.
    rewrite (js_get_None (runs p)) by lia. rewrite Z.add_0_l, js_slice_all.
    cbn [runs withRuns].
    pose proof (zlength_expand _ Hnn) as Hl. unfold zlength in Hl.
    assert (Hnew : nonNegativeRuns (runs p ++ ins)) by (apply Forall_app; split; assumption).
    split; [| split].
    + rewrite mergeAdjacentRuns_sum. sums.
    + apply mergeAdjacentRuns_nonNegative, Hnew.
    + rewrite expand_mergeAdjacentRuns by exact Hnew.
      rewrite firstn_all2, skipn_all2 by lia. rewrite expand_app, app_nil_r.
      reflexivity.
Qed.



(** X18.  [pasteText] reads the paragraph of the position before anything else: a
    paste of a clipboard that is not empty at a paragraph index outside the
    document fails with a [TypeError] and leaves the document as it is, and
    an empty clipboard is pasted as nothing, wherever. *)
Theorem pasteText_edge_cases (d : Document) (pos : Position) :
  Part001.pasteText pos [] d = (inr tt, d)
  /\ (js_get (paragraphs d) (paragraphIndex pos) = None ->
      forall entry rest,
        Part001.pasteText pos (entry :: rest) d = (inl TypeError, d)).
Proof.
  split; [reflexivity|]. intros Hnone entry rest.
  assert (Hget : getParagraph (paragraphIndex pos) d = (inl TypeError, d)).
  { unfold getParagraph, bind, getParagraphs. rewrite Hnone. reflexivity. }
  unfold Part001.pasteText. destruct rest; apply (bind_inl _ _ _ _ _ Hget).
Qed.

(** X19.  [pasteText] of several clipboard entries into the paragraph [p]: the
    paragraph keeps its text before the code-unit offset [offset] and takes
    the text of the first entry; one paragraph follows for every further
    entry, with the text and the runs of the entry, the last of them ending
    with the text of [p] from the offset on; the paragraphs before and
    after are untouched, and no text of [p] is lost.  The runs of the
    first entry go into the runs of [p], which all stay. *)
Theorem pasteText_several_paragraphs (d : Document) (pos : Position)
    (A C : list Paragraph) (p : Paragraph) (e0 el : Clipboard.Entry)
    (M : list Clipboard.Entry) :
  paragraphs d = A ++ p :: C ->
  paragraphIndex pos = zlength A ->
  let before := js_slice (text p) 0 (Some (offset pos)) in
  let after := js_slice (text p) (offset pos) None in
  exists p0,
    Part001.pasteText pos (e0 :: M ++ [el]) d
    = (inr tt,
       {| paragraphs :=
            A ++ p0 :: map Part001.pastedParagraph M
              ++ {| text := Clipboard.text el ++ after;
                    runs := Clipboard.runs el;
                    yOffset := 0 |} :: C |})
    /\ text p0 = before ++ Clipboard.text e0
    /\ yOffset p0 = yOffset p
    /\ before ++ after = text p
    /\ (nonNegativeRuns (runs p) -> nonNegativeRuns (Clipboard.runs e0) ->
        0 <= offset pos ->
        sumLengths (runs p0) = sumLengths (runs p) + sumLengths (Clipboard.runs e0)).
Proof.
  intros Hps Hidx before after.
  assert (Hp : js_get (paragraphs d) (paragraphIndex pos) = Some p)
    by (rewrite Hps, Hidx; apply js_get_middle).
  set (cur := Part001.updateRunsForPaste (withText p (before ++ Clipboard.text e0))
                (offset pos) (Clipboard.runs e0)).
  exists cur. split; [| split; [| split; [| split]]].
  - unfold Part001.pasteText.
    destruct (M ++ [el]) as [|e1 rest] eqn:Hrest;
      [apply app_eq_nil in Hrest; destruct Hrest; discriminate|].
    rewrite (bind_inr _ _ _ _ _ (getParagraph_ok d _ p Hp)).
    fold before after cur.
    rewrite (bind_inr _ _ _ _ _ (setParagraph_effect d _ _)).
    unfold bind, getParagraphs, setParagraphs. cbn [paragraphs].
    rewrite <- Hrest. rewrite js_slice_inner, last_cons_snoc.
    rewrite Hps, Hidx, js_set_middle.
    change (A ++ cur :: C) with (A ++ [cur] ++ C). rewrite app_assoc.
    replace (zlength A + 1) with (zlength (A ++ [cur])) by zlist.
    rewrite js_splice_insert, <- !app_assoc. reflexivity.
  - unfold cur, Part001.updateRunsForPaste.
    rewrite text_insertRunsAtOffset, text_updateRunsForSplit. reflexivity.
  - unfold cur, Part001.updateRunsForPaste, Part001.insertRunsAtOffset.
    destruct (Part001.seekRun _ _ _ _). cbn [yOffset withRuns].
    rewrite updateRunsForSplit_splitRunsAtOffset.
    destruct (splitRunsAtOffset_keeps (withText p (before ++ Clipboard.text e0))
                (offset pos)) as (_ & Hy & _).
    exact Hy.
  - apply js_slice_split.
  - intros Hnn Hins Hoff. unfold cur, Part001.updateRunsForPaste.
    rewrite updateRunsForSplit_splitRunsAtOffset.
    destruct (splitRunsAtOffset_keeps (withText p (before ++ Clipboard.text e0))
                (offset pos)) as (_ & _ & Hs & He & Hkeep).
    pose proof (Hkeep Hnn) as Hnn'.
    destruct (insertRunsAtOffset_expand _ (offset pos) (Clipboard.runs e0) Hnn' Hins Hoff)
      as (Hsum & _).
    rewrite Hsum, Hs. reflexivity.
Qed.

Lemma copyText_entries_example :
  exists clip,
    copyText (at_ 0 1) (at_ 1 1) twoParagraphs = (inr clip, twoParagraphs)
    /\ zlength clip = 1 - 0 + 1
    /\ forall k, 0 < k < 1 - 0 ->
                 js_get clip k
                 = option_map wholeParagraph (js_get (paragraphs twoParagraphs) (0 + k)).
Proof.
  apply (copyText_entries twoParagraphs (at_ 0 1) (at_ 1 1)).
  exact twoParagraphs_valid.
Defined.

Lemma extractTextRange_styles_example :
  positiveRuns (Clipboard.runs (extractTextRange twoRuns 1 3))
  /\ expand (Clipboard.runs (extractTextRange twoRuns 1 3))
     = firstn (Z.to_nat (3 - 1)) (skipn (Z.to_nat 1) (expand (runs twoRuns))).
Proof.
  apply (extractTextRange_styles twoRuns 1 3);
    [repeat constructor; cbn; lia | lia | reflexivity].
Defined.


Lemma pasteText_edge_cases_example :
  Part001.pasteText (at_ 3 0) [pastedEntry] testDoc = (inl TypeError, testDoc).
Proof.
  apply (pasteText_edge_cases testDoc (at_ 3 0)). reflexivity.
Defined.

Lemma pasteText_several_paragraphs_example :
  exists p0,
    Part001.pasteText (at_ 0 5) [pastedEntry; pastedEntry] testDoc
    = (inr tt,
       {| paragraphs :=
            [p0; {| text := latin "XY" ++ latin " paragraph";
                    runs := [run 2 (fontSize 20)];
                    yOffset := 0 |}] |})
    /\ text p0 = latin "First" ++ latin "XY"
    /\ yOffset p0 = 0
    /\ latin "First" ++ latin " paragraph" = latin "First paragraph"
    /\ (nonNegativeRuns (runs firstParagraph) ->
        nonNegativeRuns (Clipboard.runs pastedEntry) ->
        0 <= 5 ->
        sumLengths (runs p0) = 15 + 2).
Proof.
  exact (pasteText_several_paragraphs testDoc (at_ 0 5) [] [] firstParagraph
           pastedEntry pastedEntry [] eq_refl eq_refl).
Defined.

(** ** Insertion undone by deletion *)

Lemma findRunLoop_at (P S : list Run) (r : Run) (off : Z) :
  nonNegativeRuns P ->
  forall i0 c,
    c + sumLengths P <= off < c + sumLengths P + length r ->
    findRunLoop (P ++ r :: S) i0 c off = (i0 + zlength P, off - (c + sumLengths P)).
Proof.
  induction 1 as [|x P Hx HP IH]; intros i0 c Hoff; cbn [app findRunLoop].
  - cbn in Hoff. replace (c + length r >? off) with true by lia.
    f_equal; [zlist | cbn; lia].
  - rewrite sumLengths_cons in Hoff. pose proof (sumLengths_nonNegative P HP) as Hs.
    replace (c + length x >? off) with false by lia.
    rewrite IH by lia. rewrite sumLengths_cons. f_equal; [zlist | lia].
Qed.

Lemma js_splice_nothing {A} (l : list A) (k c : Z) :
  c <= 0 -> js_splice l k (Some c) [] = l.
Proof.
  intros Hc. unfold js_splice. pose proof (zlength_nonneg l) as Hl.
  pose proof (relativeIndex_range (zlength l) k Hl) as Hr.
  replace (Z.min (Z.max c 0) (zlength l - relativeIndex (zlength l) k)) with 0 by lia.
  rewrite Z.add_0_r. cbn [app]. apply firstn_skipn.
Qed.

Lemma js_set_twice {A} (l : list A) (i : Z) (x y : A) :
  js_set (js_set l i x) i y = js_set l i y.
Proof.
  apply js_get_ext. intros j. rewrite !js_get_set, ?Z.eqb_refl.
  destruct (j =? i), (js_get l i); reflexivity.
Qed.

Lemma js_get_set_same {A} (l : list A) (i : Z) (x y : A) :
  js_get l i = Some x -> js_get (js_set l i y) i = Some y.
Proof. intros H. rewrite js_get_set, Z.eqb_refl, H. reflexivity. Qed.

Lemma map_text_js_set (ps : list Paragraph) (i : Z) (p p' : Paragraph) :
  js_get ps i = Some p -> text p' = text p ->
  map text (js_set ps i p') = map text ps.
Proof.
  intros Hp Ht. destruct (js_get_split _ _ _ Hp) as (A & C & -> & <-).
  rewrite js_set_middle, !map_app. cbn [map]. rewrite Ht. reflexivity.
Qed.

Lemma clampRuns_app (rs rs' : list Run) :
  nonNegativeRuns rs ->
  forall c g, c <= g ->
              clampRuns (rs ++ rs') c g
              = clampRuns rs c g ++ clampRuns rs' (Z.min (c + sumLengths rs) g) g.
Proof.
  induction 1 as [|r rs Hr Hrs IH]; intros c g Hc; cbn [app clampRuns].
  - cbn. replace (Z.min (c + 0) g) with c by lia. reflexivity.
  - rewrite IH by lia. rewrite sumLengths_cons. f_equal. f_equal. f_equal.
    pose proof (sumLengths_nonNegative rs Hrs). lia.
Qed.

Section InsertDelete.
Context {U : Unicode}.

(** A run appended beyond the text is clamped away. *)
Lemma updateRunLengths_drops_excess (p : Paragraph) (r : Run) :
  ledgerInvariant p -> 0 <= length r ->
  updateRunLengths (withRuns p (runs p ++ [r])) = p.
Proof.
  intros [Hpos Hsum] Hr. unfold updateRunLengths. cbn [text runs withRuns].
  pose proof (positive_nonNegative _ Hpos) as Hnn.
  pose proof (getGraphemeCount_nonneg (text p)) as Hc.
  rewrite clampRuns_app by (try assumption; lia).
  rewrite clampRuns_fixed by (try assumption; lia).
  cbn [clampRuns]. rewrite filter_app, filter_positive_fixed by assumption.
  cbn [filter length withLength].
  replace (Z.min (Z.min (0 + sumLengths (runs p)) (getGraphemeCount (text p)) + length r)
             (getGraphemeCount (text p))
           - Z.min (0 + sumLengths (runs p)) (getGraphemeCount (text p)) >? 0)
    with false by lia.
  rewrite app_nil_r. destruct p; reflexivity.
Qed.

Lemma updateRunsAfterDeletion_nothing (p : Paragraph) (a : Z) :
  positiveRuns (runs p) -> updateRunsAfterDeletion p a 0 = p.
Proof.
  intros Hpos. unfold updateRunsAfterDeletion. rewrite Z.add_0_r.
  destruct (findRunAtOffset p a) as [k o].
  destruct (k =? -1); [reflexivity|].
  destruct (js_get (runs p) k) as [r|] eqn:G; [| reflexivity].
  rewrite Z.eqb_refl, Z.sub_0_r, withLength_same, (js_set_same _ _ _ G).
  assert (0 < length r) by (exact (Forall_js_get_inv _ _ _ _ Hpos G)).
  replace (length r <=? 0) with false by lia.
  apply withRuns_same.
Qed.
End InsertDelete.

Section InsertDeleteTheorem.
Context {U : Unicode}.

Lemma insertedParagraph_text (p : Paragraph) (off : Z) (txt : jsstring)
    (sty : TextStyle) :
  text (insertedParagraph p off txt sty)
  = js_slice (text p) 0 (Some off) ++ txt ++ js_slice (text p) off None
  /\ yOffset (insertedParagraph p off txt sty) = yOffset p.
Proof.
  unfold insertedParagraph. cbv zeta.
  destruct (findRunAtOffset _ off) as [i a].
  destruct (i =? -1); [split; reflexivity|].
  unfold insertTextIntoRun. case_all; split; reflexivity.
Qed.

Lemma insert_delete_effect (d : Document) (pos : Position) (txt : jsstring)
    (sty : TextStyle) (p : Paragraph) :
  js_get (paragraphs d) (paragraphIndex pos) = Some p ->
  0 <= offset pos <= getGraphemeCount (text p) ->
  includesNewline (normalizeNFC txt) = false ->
  singleUnitClusters (text p) ->
  singleUnitClusters (normalizeNFC txt) ->
  singleUnitClusters (js_slice (text p) 0 (Some (offset pos)) ++ normalizeNFC txt
                      ++ js_slice (text p) (offset pos) None) ->
  let n := getGraphemeCount (normalizeNFC txt) in
  let end_ := {| paragraphIndex := paragraphIndex pos; offset := offset pos + n |} in
  let inserted :=
    updateRunLengths (insertedParagraph p (offset pos) (normalizeNFC txt) sty) in
  insertText pos txt sty d
  = (inr tt, {| paragraphs := js_set (paragraphs d) (paragraphIndex pos) inserted |})
  /\ deleteText pos end_
       {| paragraphs := js_set (paragraphs d) (paragraphIndex pos) inserted |}
     = (inr tt,
        {| paragraphs :=
             js_set (paragraphs d) (paragraphIndex pos)
               (updateRunLengths
                  (updateRunsAfterDeletion (withText inserted (text p))
                     (offset pos) n)) |}).
Proof.
  intros Hp Hoff Hnl Hsp HsT Hsnew n end_ inserted.
  pose proof (singleUnit_count _ Hsp) as Hcp.
  pose proof (singleUnit_count _ HsT) as HcT.
  pose proof (singleUnit_count _ Hsnew) as Hcnew.
  destruct (list_split2 (text p) (offset pos) ltac:(lia)) as (Pre & Suf & Htp & HPre).
  assert (Hbefore : js_slice (text p) 0 (Some (offset pos)) = Pre)
    by (rewrite Htp, <- HPre; apply js_slice_prefix).
  assert (Hafter : js_slice (text p) (offset pos) None = Suf)
    by (rewrite Htp, <- HPre; apply js_slice_suffix).
  assert (Htext : text inserted = Pre ++ normalizeNFC txt ++ Suf).
  { unfold inserted. cbn [text updateRunLengths withRuns].
    rewrite (proj1 (insertedParagraph_text _ _ _ _)), Hbefore, Hafter. reflexivity. }
  split.
  - exact (insertText_single_effect d pos txt sty p Hp Hoff Hnl).
  - set (d1 := {| paragraphs := _ |}).
    assert (Hp1 : js_get (paragraphs d1) (paragraphIndex pos) = Some inserted)
      by (apply (js_get_set_same _ _ p), Hp).
    rewrite Hbefore, Hafter in Hcnew, Hsnew.
    pose proof (zlength_nonneg (normalizeNFC txt)) as HzT.
    pose proof (zlength_nonneg Suf) as HzS.
    assert (Hdel : concat (js_slice (segment (text inserted)) 0 (Some (offset pos)))
                   ++ concat (js_slice (segment (text inserted)) (offset pos + n) None)
                   = text p).
    { rewrite Htext, !singleUnit_segment_slice by assumption.
      rewrite <- HPre, js_slice_prefix, app_assoc.
      replace (zlength Pre + n) with (zlength (Pre ++ normalizeNFC txt))
        by (unfold n; rewrite HcT; zlist).
      rewrite js_slice_suffix. symmetry. exact Htp. }
    rewrite (deleteText_within_effect d1 pos end_ inserted Hp1 eq_refl).
    + cbn [paragraphs d1 paragraphIndex offset end_].
      rewrite js_set_twice, Hdel.
      replace (offset pos + n - offset pos) with n by lia. reflexivity.
    + cbn [offset end_]. unfold n. lia.
    + cbn [offset end_]. rewrite Htext, Hcnew. unfold n. rewrite HcT. zlist.
Qed.
End InsertDeleteTheorem.

Lemma withText_back (p : Paragraph) (t : jsstring) (rs : list Run) :
  withText (withRuns (withText p t) rs) (text p) = withRuns p rs.
Proof. destruct p; reflexivity. Qed.

Lemma withRuns_twice (p : Paragraph) (rs rs' : list Run) :
  withRuns (withRuns p rs) rs' = withRuns p rs'.
Proof. reflexivity. Qed.

Lemma withRuns_runs (p : Paragraph) (rs : list Run) :
  runs p = rs -> withRuns p rs = p.
Proof. intros <-. apply withRuns_same. Qed.

Lemma zlength_zero_nil {A} (l : list A) : zlength l = 0 -> l = [].
Proof. destruct l; [reflexivity | intros H; zlist]. Qed.

Section InsertDeleteCases.
Context {U : Unicode}.

(** Deleting the graphemes that were appended in a new run at the end. *)
Lemma delete_appended_run (p : Paragraph) (n : Z) (sty : TextStyle) :
  ledgerInvariant p -> 0 < n ->
  updateRunLengths
    (updateRunsAfterDeletion
       (withRuns p (runs p ++ [{| length := n; style := sty |}]))
       (getGraphemeCount (text p)) n)
  = p.
Proof.
  intros Hl Hn. pose proof Hl as [Hpos Hsum].
  pose proof (positive_nonNegative _ Hpos) as Hnn.
  set (new := {| length := n; style := sty |}).
  assert (Hsame : updateRunsAfterDeletion (withRuns p (runs p ++ [new]))
                    (getGraphemeCount (text p)) n
                  = withRuns p (runs p ++ [new])).
  { unfold updateRunsAfterDeletion, findRunAtOffset. cbn [runs withRuns].
    rewrite (findRunLoop_at (runs p) [] new _ Hnn 0 0) by (cbn; lia).
    rewrite findRunLoop_beyond.
    - pose proof (zlength_nonneg (runs p)) as Hz.
      replace (0 + zlength (runs p) =? -1) with false by lia.
      rewrite Z.add_0_l, js_get_middle.
      replace (zlength (runs p) =? -1) with false by lia.
      replace (js_get (runs p ++ [new]) (-1)) with (@None Run) by reflexivity.
      cbn [length new].
      replace (_ >? 0) with false by lia.
      rewrite js_splice_nothing by lia. reflexivity.
    - apply Forall_app. split; [exact Hnn | repeat constructor; cbn; lia].
    - rewrite sumLengths_app. cbn. lia. }
  rewrite Hsame. apply updateRunLengths_drops_excess; [exact Hl | cbn; lia].
Qed.

(** Deleting the graphemes by which a run was extended. *)
Lemma delete_extension (p : Paragraph) (P S : list Run) (r : Run) (off n : Z) :
  ledgerInvariant p -> runs p = P ++ r :: S ->
  sumLengths P <= off < sumLengths P + length r -> 0 <= n ->
  updateRunLengths
    (updateRunsAfterDeletion
       (withRuns p (P ++ withLength r (length r + n) :: S)) off n)
  = p.
Proof.
  intros Hl HP Hb Hn. pose proof Hl as [Hpos Hsum].
  rewrite HP in Hpos. apply Forall_app in Hpos. destruct Hpos as [HPp HSp].
  inversion HSp as [|? ? Hr HSp']; subst.
  pose proof (positive_nonNegative _ HPp) as HnP.
  assert (Hsame : updateRunsAfterDeletion
                    (withRuns p (P ++ withLength r (length r + n) :: S)) off n = p).
  { unfold updateRunsAfterDeletion, findRunAtOffset. cbn [runs withRuns].
    rewrite !(findRunLoop_at P S _ _ HnP 0 0) by (cbn; lia).
    pose proof (zlength_nonneg P) as Hz.
    replace (0 + zlength P =? -1) with false by lia.
    rewrite Z.add_0_l, js_get_middle, Z.eqb_refl, js_set_middle.
    cbn [length withLength].
    replace (length r + n - n <=? 0) with false by lia.
    replace (length r + n - n) with (length r) by lia.
    change (withLength (withLength r (length r + n)) (length r))
      with (withLength r (length r)).
    rewrite withLength_same, withRuns_twice. apply withRuns_runs, HP. }
  rewrite Hsame. apply updateRunLengths_fixed, Hl.
Qed.
End InsertDeleteCases.

Section InsertDeleteRoundTrip.
Context {U : Unicode}.

Lemma inserted_at_end (p : Paragraph) (txt : jsstring) (sty : TextStyle) :
  ledgerInvariant p ->
  insertedParagraph p (getGraphemeCount (text p)) txt sty
  = withRuns (withText p (js_slice (text p) 0 (Some (getGraphemeCount (text p)))
                          ++ txt
                          ++ js_slice (text p) (getGraphemeCount (text p)) None))
      (runs p ++ [{| length := getGraphemeCount txt; style := sty |}]).
Proof.
  intros [Hpos Hsum]. unfold insertedParagraph, findRunAtOffset. cbn [runs withText].
  rewrite findRunLoop_beyond by (try apply positive_nonNegative; try lia; assumption).
  reflexivity.
Qed.

Lemma inserted_in_run (p : Paragraph) (P S : list Run) (r : Run) (off : Z)
    (txt : jsstring) :
  nonNegativeRuns P -> runs p = P ++ r :: S ->
  sumLengths P <= off < sumLengths P + length r ->
  insertedParagraph p off txt (style r)
  = withRuns (withText p (js_slice (text p) 0 (Some off) ++ txt
                          ++ js_slice (text p) off None))
      (P ++ withLength r (length r + getGraphemeCount txt) :: S).
Proof.
  intros HnP HP Hb. unfold insertedParagraph, findRunAtOffset. cbn [runs withText].
  rewrite HP, (findRunLoop_at P S r off HnP 0 0) by lia.
  pose proof (zlength_nonneg P) as Hz.
  replace (0 + zlength P =? -1) with false by lia.
  unfold insertTextIntoRun. cbn [runs withText]. rewrite HP, Z.add_0_l, js_get_middle.
  rewrite areStylesEqual_refl, js_set_middle. reflexivity.
Qed.

(** X20.  [insertText] of a text without a line break, then [deleteText] of the
    graphemes that it put in: the texts of the document are back.  The
    document itself is back, runs included, when the ledger of the paragraph
    was in order and the text went in at the end of the paragraph or in the
    style of the run at the offset.  Every cluster of the texts involved is
    one code unit. *)
Theorem insertText_then_deleteText (d : Document) (pos : Position) (txt : jsstring)
    (sty : TextStyle) (p : Paragraph) :
  js_get (paragraphs d) (paragraphIndex pos) = Some p ->
  0 <= offset pos <= getGraphemeCount (text p) ->
  includesNewline (normalizeNFC txt) = false ->
  singleUnitClusters (text p) ->
  singleUnitClusters (normalizeNFC txt) ->
  singleUnitClusters (js_slice (text p) 0 (Some (offset pos)) ++ normalizeNFC txt
                      ++ js_slice (text p) (offset pos) None) ->
  let end_ := {| paragraphIndex := paragraphIndex pos;
                 offset := offset pos + getGraphemeCount (normalizeNFC txt) |} in
  exists d1 d2,
    insertText pos txt sty d = (inr tt, d1)
    /\ deleteText pos end_ d1 = (inr tt, d2)
    /\ map text (paragraphs d2) = map text (paragraphs d)
    /\ (ledgerInvariant p ->
        offset pos = getGraphemeCount (text p)
        \/ nth_error (expand (runs p)) (Z.to_nat (offset pos)) = Some sty ->
        d2 = d).
Proof.
  intros Hp Hoff Hnl Hsp HsT Hsnew end_.
  destruct (insert_delete_effect d pos txt sty p Hp Hoff Hnl Hsp HsT Hsnew)
    as [Hins Hdel].
  eexists. eexists. split; [exact Hins|]. split; [exact Hdel|].
  cbn [paragraphs]. split.
  - apply (map_text_js_set _ _ p); [exact Hp|].
    cbn [text updateRunLengths withRuns].
    rewrite text_updateRunsAfterDeletion. reflexivity.
  - intros Hl Hcase. pose proof Hl as [Hpos Hsum].
    pose proof (positive_nonNegative _ Hpos) as Hnn.
    set (T := normalizeNFC txt) in *. set (n := getGraphemeCount T) in *.
    pose proof (singleUnit_count _ Hsp) as Hcp.
    pose proof (singleUnit_count _ HsT) as HcT.
    pose proof (singleUnit_count _ Hsnew) as Hcnew.
    pose proof (getGraphemeCount_nonneg T) as Hn. fold n in Hn.
    assert (Hlen : zlength (js_slice (text p) 0 (Some (offset pos)) ++ T
                            ++ js_slice (text p) (offset pos) None)
                   = zlength (text p) + n).
    { rewrite <- (js_slice_split (text p) (offset pos)) at 3.
      rewrite !zlength_app. fold n in HcT. lia. }
    match goal with
    | |- {| paragraphs := js_set _ _ ?q |} = _ => assert (Hq : q = p)
    end.
    { destruct Hcase as [Hend | Hsty].
      - rewrite Hend, inserted_at_end by exact Hl. fold n.
        destruct (Z.eq_dec n 0) as [Hz | Hnz].
        + assert (HT : T = []) by (apply zlength_zero_nil; fold n in HcT; lia).
          rewrite HT. cbn [app].
          rewrite js_slice_split, withText_same.
          rewrite updateRunLengths_drops_excess by (try exact Hl; cbn; lia).
          rewrite withText_same, Hz.
          rewrite updateRunsAfterDeletion_nothing by exact Hpos.
          apply updateRunLengths_fixed, Hl.
        + match goal with
          | |- context [updateRunLengths (withRuns ?a ?b)] =>
              rewrite (updateRunLengths_fixed (withRuns a b))
          end.
          * rewrite withText_back. apply delete_appended_run; [exact Hl | lia].
          * split.
            -- cbn [runs withRuns]. apply Forall_app. split; [exact Hpos|].
               repeat constructor. cbn. lia.
            -- cbn [runs text withRuns withText]. rewrite sumLengths_app.
               rewrite <- Hend, Hcnew, Hlen. cbn. lia.
      - assert (Hlt : offset pos < sumLengths (runs p)).
        { pose proof (zlength_expand _ Hnn) as Hz. unfold zlength in Hz.
          assert (Z.to_nat (offset pos) < List.length (expand (runs p)))%nat
            by (apply nth_error_Some; congruence).
          lia. }
        destruct (findRunLoop_split (runs p) (offset pos) Hnn ltac:(lia))
          as (P & r & S & HP & Hf & Hb).
        pose proof (findRunAtOffset_expand (runs p) (offset pos) Hnn ltac:(lia)) as He.
        rewrite Hf, Hsty in He. cbn [fst] in He. rewrite HP, js_get_middle in He.
        cbn [option_map] in He. injection He as <-.
        assert (HnP : nonNegativeRuns P).
        { rewrite HP in Hnn. apply Forall_app in Hnn. tauto. }
        rewrite (inserted_in_run p P S r (offset pos) T HnP HP Hb). fold n.
        match goal with
        | |- context [updateRunLengths (withRuns ?a ?b)] =>
            rewrite (updateRunLengths_fixed (withRuns a b))
        end.
        + rewrite withText_back. apply delete_extension; assumption.
        + assert (Hr : 0 < length r).
          { rewrite HP in Hpos. apply Forall_app in Hpos. destruct Hpos as [_ HS].
            inversion HS; assumption. }
          split.
          * cbn [runs withRuns]. rewrite HP in Hpos.
            apply Forall_app in Hpos. destruct Hpos as [HPp HS].
            inversion HS; subst. apply Forall_app. split; [assumption|].
            constructor; [cbn; lia | assumption].
          * cbn [runs text withRuns withText]. rewrite Hcnew, Hlen, <- Hcp, <- Hsum, HP.
            sums. }
    rewrite Hq, (js_set_same _ _ _ Hp). destruct d; reflexivity.
Qed.
End InsertDeleteRoundTrip.

Lemma insertText_then_deleteText_example :
  exists d1 d2,
    insertText (at_ 0 5) (latin "XY") (fontSize 16) testDoc = (inr tt, d1)
    /\ deleteText (at_ 0 5) (at_ 0 7) d1 = (inr tt, d2)
    /\ map text (paragraphs d2) = map text (paragraphs testDoc)
    /\ (ledgerInvariant firstParagraph ->
        5 = 15 \/ nth_error (expand (runs firstParagraph)) 5 = Some (fontSize 16) ->
        d2 = testDoc).
Proof.
  assert (Hb : 0 <= offset (at_ 0 5) <= getGraphemeCount (text firstParagraph))
    by (vm_compute; split; discriminate).
  exact (insertText_then_deleteText testDoc (at_ 0 5) (latin "XY") (fontSize 16)
           firstParagraph eq_refl Hb eq_refl eq_refl eq_refl eq_refl).
Defined.

(** ** Deletions that keep the ledger in order *)

Section DeletionInsideRun.
Context {U : Unicode}.

(** X21.  [deleteText] of a range that lies inside one run and ends before the end
    of that run: the run gets shorter by the length of the range and the
    other runs stay; the ledger is in order again when the clusters of the
    new text are those that were left. *)
Theorem deleteText_inside_run (d : Document) (start end_ : Position) (p : Paragraph)
    (P S : list Run) (r : Run) :
  js_get (paragraphs d) (paragraphIndex start) = Some p ->
  paragraphIndex end_ = paragraphIndex start ->
  ledgerInvariant p ->
  runs p = P ++ r :: S ->
  sumLengths P <= offset start ->
  offset start <= offset end_ < sumLengths P + length r ->
  exists p',
    deleteText start end_ d
    = (inr tt, {| paragraphs := js_set (paragraphs d) (paragraphIndex start) p' |})
    /\ (getGraphemeCount (text p')
        = getGraphemeCount (text p) - (offset end_ - offset start) ->
        runs p' = P ++ withLength r (length r - (offset end_ - offset start)) :: S
        /\ ledgerInvariant p').
Proof.
  intros Hp Hidx Hl HP Hs He. pose proof Hl as [Hpos Hsum].
  rewrite HP in Hpos. apply Forall_app in Hpos. destruct Hpos as [HPp HSp].
  inversion HSp as [|? ? Hr HSp']; subst.
  pose proof (positive_nonNegative _ HPp) as HnP.
  pose proof (sumLengths_nonNegative _ HnP) as HsP.
  pose proof (sumLengths_nonNegative _ (positive_nonNegative _ HSp')) as HsS.
  assert (Hc : offset end_ <= getGraphemeCount (text p)).
  { rewrite <- Hsum, HP. rewrite sumLengths_app, sumLengths_cons. lia. }
  pose proof (deleteText_within_effect d start end_ p Hp Hidx ltac:(lia) Hc) as H.
  cbv zeta in H. eexists. split; [exact H|].
  set (t' := concat _ ++ concat _).
  assert (Hruns : updateRunsAfterDeletion (withText p t') (offset start)
                    (offset end_ - offset start)
                  = withRuns (withText p t')
                      (P ++ withLength r (length r - (offset end_ - offset start)) :: S)).
  { unfold updateRunsAfterDeletion, findRunAtOffset. cbn [runs withText].
    replace (offset start + (offset end_ - offset start)) with (offset end_) by lia.
    rewrite HP, !(findRunLoop_at P S r _ HnP 0 0) by lia.
    pose proof (zlength_nonneg P) as Hz.
    replace (0 + zlength P =? -1) with false by lia.
    rewrite Z.add_0_l, js_get_middle, Z.eqb_refl, js_set_middle.
    cbn [length withLength].
    replace (length r - (offset end_ - offset start) <=? 0) with false by lia.
    reflexivity. }
  rewrite Hruns. intros Hcount.
  cbn [text updateRunLengths withRuns withText] in Hcount.
  assert (Hl' : ledgerInvariant
                  (withRuns (withText p t')
                     (P ++ withLength r (length r - (offset end_ - offset start)) :: S))).
  { split.
    - cbn [runs withRuns]. apply Forall_app. split; [assumption|].
      constructor; [cbn; lia | assumption].
    - cbn [runs text withRuns withText]. rewrite Hcount, <- Hsum, HP. sums. }
  rewrite (updateRunLengths_fixed _ Hl'). split; [reflexivity | exact Hl'].
Qed.
End DeletionInsideRun.

Lemma runsFromOffset_expand (rs : list Run) :
  nonNegativeRuns rs ->
  forall g e, expand (runsFromOffset rs g e)
              = skipn (Z.to_nat (e - g)) (expand rs).
Proof.
  induction 1 as [|r rs Hr _ IH]; intros g e; cbn [runsFromOffset].
  - rewrite skipn_nil. reflexivity.
  - rewrite expand_app, IH, expand_cons, skipn_app, skipn_repeat, repeat_length.
    f_equal.
    + destruct (g + length r >? e) eqn:E.
      * destruct (length r - Z.max (e - g) 0 >? 0) eqn:E'.
        -- cbn. rewrite app_nil_r. f_equal. lia.
        -- cbn. replace (Z.to_nat (length r) - Z.to_nat (e - g))%nat with 0%nat by lia.
           reflexivity.
      * cbn. replace (Z.to_nat (length r) - Z.to_nat (e - g))%nat with 0%nat by lia.
        reflexivity.
    + f_equal. lia.
Qed.

Lemma expand_same_style (s : TextStyle) (rs : list Run) :
  forallb (fun r => areStylesEqual (style r) s) rs = true ->
  nonNegativeRuns rs ->
  expand rs = repeat s (Z.to_nat (sumLengths rs)).
Proof.
  intros Hall Hnn. induction Hnn as [|r rs Hr Hrs IH]; [reflexivity|].
  cbn [forallb] in Hall. apply andb_true_iff in Hall. destruct Hall as [Hs Hall].
  apply areStylesEqual_eq in Hs.
  rewrite expand_cons, (IH Hall), sumLengths_cons, Hs, <- repeat_app.
  pose proof (sumLengths_nonNegative rs Hrs). f_equal. lia.
Qed.

(** The runs of the start paragraph up to an offset inside its runs. *)
Lemma trimmed_expand (rs : list Run) (s : Z) :
  positiveRuns rs -> 0 <= s < sumLengths rs ->
  let '(i, a) := findRunLoop rs 0 0 s in
  let trimmed :=
    if negb (i =? -1)
    then match js_get rs i with
         | None => rs
         | Some startRun =>
             if a >? 0
             then js_splice (js_set rs i (withLength startRun a)) (i + 1) None []
             else js_splice rs i None []
         end
    else [] in
  positiveRuns trimmed /\ expand trimmed = firstn (Z.to_nat s) (expand rs).
Proof.
  intros Hpos Hs. pose proof (positive_nonNegative _ Hpos) as Hnn.
  destruct (findRunLoop_split rs s Hnn Hs) as (P & r & S & HP & Hf & Hb).
  rewrite Hf. cbv zeta. pose proof (zlength_nonneg P) as Hz.
  replace (negb (zlength P =? -1)) with true by lia.
  rewrite HP, js_get_middle.
  rewrite HP in Hpos. apply Forall_app in Hpos. destruct Hpos as [HPp HSp].
  pose proof (positive_nonNegative _ HPp) as HnP.
  destruct (firstn_skipn_expand_split P S r s HnP Hb) as [Hfirst _].
  rewrite Hfirst.
  assert (Hcut : forall (l : list Run) k, js_splice l k None [] = firstn (Z.to_nat (relativeIndex (zlength l) k)) l).
  { intros l k. unfold js_splice. cbn [app].
    replace (relativeIndex (zlength l) k + (zlength l - relativeIndex (zlength l) k))
      with (zlength l) by lia.
    rewrite skipn_all2 by (unfold zlength; lia). apply app_nil_r. }
  destruct (s - sumLengths P >? 0) eqn:E.
  - rewrite js_set_middle, Hcut.
    rewrite relativeIndex_nonneg by (try apply zlength_nonneg; lia).
    replace (Z.to_nat (Z.min (zlength P + 1) (zlength (P ++ withLength r (s - sumLengths P) :: S))))
      with (List.length (P ++ [withLength r (s - sumLengths P)])) by zlist.
    change (P ++ withLength r (s - sumLengths P) :: S)
      with (P ++ [withLength r (s - sumLengths P)] ++ S).
    rewrite app_assoc, firstn_app, Nat.sub_diag, firstn_all, firstn_O, app_nil_r.
    split.
    + apply Forall_app. split; [assumption | repeat constructor; cbn; lia].
    + rewrite expand_app. cbn. rewrite app_nil_r. reflexivity.
  - rewrite Hcut.
    rewrite relativeIndex_nonneg by (try apply zlength_nonneg; lia).
    replace (Z.to_nat (Z.min (zlength P) (zlength (P ++ r :: S))))
      with (List.length P) by zlist.
    rewrite firstn_app, Nat.sub_diag, firstn_all, firstn_O, app_nil_r.
    split; [assumption|].
    replace (Z.to_nat (s - sumLengths P)) with 0%nat by lia. cbn.
    rewrite app_nil_r. reflexivity.
Qed.

Section DeletionAcrossLedger.
Context {U : Unicode}.

Lemma updateRunsAfterMultiParagraphDeletion_expand (p q : Paragraph) (s e : Z) :
  positiveRuns (runs p) -> nonNegativeRuns (runs q) ->
  0 <= s < sumLengths (runs p) -> 0 <= e <= sumLengths (runs q) ->
  getGraphemeCount (text p) = s + (sumLengths (runs q) - e) ->
  let p' := updateRunsAfterMultiParagraphDeletion p s q e in
  nonNegativeRuns (runs p')
  /\ sumLengths (runs p') = getGraphemeCount (text p)
  /\ expand (runs p')
     = firstn (Z.to_nat s) (expand (runs p)) ++ skipn (Z.to_nat e) (expand (runs q)).
Proof.
  intros Hpos Hq Hs He Hcount p'. subst p'.
  unfold updateRunsAfterMultiParagraphDeletion, findRunAtOffset.
  pose proof (trimmed_expand (runs p) s Hpos Hs) as Ht.
  destruct (findRunLoop (runs p) 0 0 s) as [i a]. cbv zeta in Ht.
  set (trimmed := if negb (i =? -1) then _ else _) in *.
  destruct Ht as [Htpos Htexp].
  set (target := firstn (Z.to_nat s) (expand (runs p))
                 ++ skipn (Z.to_nat e) (expand (runs q))).
  set (merged := mergeAdjacentRuns (trimmed ++ runsFromOffset (runs q) 0 e)).
  assert (Hmpos : positiveRuns merged).
  { apply mergeAdjacentRuns_positive, Forall_app.
    split; [exact Htpos | apply runsFromOffset_positive]. }
  pose proof (positive_nonNegative _ Hmpos) as Hmnn.
  assert (Hmexp : expand merged = target).
  { unfold merged. rewrite expand_mergeAdjacentRuns.
    - rewrite expand_app, Htexp, runsFromOffset_expand by exact Hq.
      rewrite Z.sub_0_r. reflexivity.
    - apply Forall_app. split; apply positive_nonNegative;
        [exact Htpos | apply runsFromOffset_positive]. }
  assert (Hmsum : sumLengths merged = getGraphemeCount (text p)).
  { rewrite <- (zlength_expand _ Hmnn), Hmexp. unfold target.
    pose proof (zlength_expand _ (positive_nonNegative _ Hpos)) as Hlp.
    pose proof (zlength_expand _ Hq) as Hlq.
    unfold zlength in *. rewrite length_app, length_firstn, length_skipn. lia. }
  cbn [runs withRuns]. fold merged.
  destruct merged as [|r0 rest] eqn:Hm.
  - cbn in Hmsum. rewrite <- Hmsum. split; [repeat constructor; cbn; lia|].
    split; [reflexivity|]. rewrite <- Hmexp. reflexivity.
  - destruct (forallb (fun r => areStylesEqual (style r) (style r0)) (r0 :: rest)) eqn:E.
    + split; [repeat constructor; cbn; apply getGraphemeCount_nonneg|].
      split; [sums|].
      rewrite <- Hmexp, (expand_same_style (style r0) _ E Hmnn), Hmsum.
      cbn. apply app_nil_r.
    + split; [exact Hmnn|]. split; [exact Hmsum | exact Hmexp].
Qed.

(** X22.  [deleteText] across paragraphs, from a start that is not the end of its
    paragraph: when the ledgers of the two paragraphs were in order and the
    clusters of the new text are those that were left, the ledger of the
    merged paragraph is in order, and its graphemes carry the styles they
    had in the first paragraph before [start] and in the last from [end_]
    on. *)
Theorem deleteText_across_keeps_ledger (d : Document) (start end_ : Position)
    (A B C : list Paragraph) (p q : Paragraph) :
  paragraphs d = A ++ p :: B ++ q :: C ->
  paragraphIndex start = zlength A ->
  paragraphIndex end_ = zlength A + 1 + zlength B ->
  ledgerInvariant p -> ledgerInvariant q ->
  0 <= offset start < getGraphemeCount (text p) ->
  0 <= offset end_ <= getGraphemeCount (text q) ->
  exists p',
    deleteText start end_ d = (inr tt, {| paragraphs := A ++ p' :: C |})
    /\ (getGraphemeCount (text p')
        = offset start + (getGraphemeCount (text q) - offset end_) ->
        ledgerInvariant p'
        /\ expand (runs p')
           = firstn (Z.to_nat (offset start)) (expand (runs p))
             ++ skipn (Z.to_nat (offset end_)) (expand (runs q))).
Proof.
  intros Hps Hsi Hei [Hpp Hps'] [Hqp Hqs] Hs He.
  assert (Hs' : 0 <= offset start <= getGraphemeCount (text p)) by lia.
  pose proof (deleteText_across_effect d start end_ A B C p q Hps Hsi Hei Hs' He) as H.
  cbv zeta in H. eexists. split; [exact H|].
  set (newText := _ ++ _). cbn [text updateRunLengths withRuns].
  rewrite text_updateRunsAfterMultiParagraphDeletion. cbn [text withText].
  intros Hcount.
  destruct (updateRunsAfterMultiParagraphDeletion_expand (withText p newText) q
              (offset start) (offset end_))
    as (Hnn & Hsum & Hexp);
    try (cbn [runs text withText]; try assumption; try lia).
  - apply positive_nonNegative, Hqp.
  - split.
    + apply updateRunLengths_ledger; [exact Hnn|].
      rewrite Hsum, text_updateRunsAfterMultiParagraphDeletion. lia.
    + destruct (updateRunLengths_effect _ Hnn) as (_ & _ & Hexp').
      rewrite Hexp', text_updateRunsAfterMultiParagraphDeletion, firstn_all2;
        [exact Hexp|].
      pose proof (zlength_expand _ Hnn) as Hl. unfold zlength in Hl.
      rewrite Hsum in Hl. lia.
Qed.
End DeletionAcrossLedger.

Lemma deleteText_inside_run_example :
  exists p',
    deleteText (at_ 0 5) (at_ 0 7) testDoc
    = (inr tt, {| paragraphs := js_set (paragraphs testDoc) 0 p' |})
    /\ (getGraphemeCount (text p') = 15 - (7 - 5) ->
        runs p' = [withLength (run 15 (fontSize 16)) (15 - (7 - 5))]
        /\ ledgerInvariant p').
Proof.
  assert (Hl : ledgerInvariant firstParagraph)
    by (split; [repeat constructor | reflexivity]).
  assert (Hs : sumLengths [] <= offset (at_ 0 5)) by (cbn; lia).
  assert (He : offset (at_ 0 5) <= offset (at_ 0 7)
               < sumLengths [] + length (run 15 (fontSize 16))) by (cbn; lia).
  exact (deleteText_inside_run testDoc (at_ 0 5) (at_ 0 7) firstParagraph
           [] [] (run 15 (fontSize 16)) eq_refl eq_refl Hl eq_refl Hs He).
Defined.

Lemma deleteText_across_keeps_ledger_example :
  exists p',
    deleteText (at_ 0 1) (at_ 1 1) twoParagraphs = (inr tt, {| paragraphs := [p'] |})
    /\ (getGraphemeCount (text p') = 1 + (2 - 1) ->
        ledgerInvariant p'
        /\ expand (runs p') = [fontSize 16] ++ [fontSize 14]).
Proof.
  assert (Hp : ledgerInvariant (paragraph (latin "ab") [run 2 (fontSize 16)]))
    by (split; [repeat constructor | reflexivity]).
  assert (Hq : ledgerInvariant (paragraph (latin "cd") [run 2 (fontSize 14)]))
    by (split; [repeat constructor | reflexivity]).
  assert (Hs : 0 <= offset (at_ 0 1)
               < getGraphemeCount (text (paragraph (latin "ab") [run 2 (fontSize 16)])))
    by (vm_compute; split; [discriminate | reflexivity]).
  assert (He : 0 <= offset (at_ 1 1)
               <= getGraphemeCount (text (paragraph (latin "cd") [run 2 (fontSize 14)])))
    by (vm_compute; split; discriminate).
  exact (deleteText_across_keeps_ledger twoParagraphs (at_ 0 1) (at_ 1 1) [] [] []
           (paragraph (latin "ab") [run 2 (fontSize 16)])
           (paragraph (latin "cd") [run 2 (fontSize 14)])
           eq_refl eq_refl eq_refl Hp Hq Hs He).
Defined.
